(** * NetViz: failure-aware shortest paths over a router mesh

    A shallow embedding of [graph.js] (class [Graph]) and of [network.js]
    (class [Network], in its revision with adjustable failure
    probabilities and a reset button; the earlier revision has the same
    [findShortestPath] and [addEdgeWithFailure], with the probabilities
    written as constants, and no reset).

    JavaScript objects used as dictionaries are modelled as ordered
    property lists: [for ... in] enumerates string keys in insertion
    order as long as no key is a canonical array index, which holds for
    the router labels of this program.  [Obj.get] reads own properties.
    A plain object also inherits the members of [Object.prototype],
    listed in [prototype_members]: the table [visited] of the two
    traversals is read with them ([reads_truthy]); the further
    properties of the search whose reads could reach such a member
    assume labels that do not name one ([plain_labels], [inherited]);
    elsewhere labels that name a member of [Object.prototype] are
    outside the model.  Costs are integers; the numbers of JavaScript
    add integers exactly up to [2^53], and [costs_within] keeps every
    sum of the search below that.  DOM access, logging and the vis.js
    rendering are left out: they never write to the fields modelled
    here. *)

From Stdlib Require Import List String Ascii Bool ZArith QArith Lia Arith.
From Stdlib Require Import DecimalString.
Import ListNotations.

Local Open Scope string_scope.
Local Open Scope list_scope.

Set Implicit Arguments.

(* ================================================================== *)
(** * Part I: the program *)

(** ** String-keyed objects *)

Module Obj.

Section WithValues.
Variable V : Type.

Definition t := list (string * V).

Definition empty : t := [].

(** [o[k]]; [None] stands for [undefined]. *)
Fixpoint get (k : string) (o : t) : option V :=
  match o with
  | [] => None
  | (k', v) :: rest => if String.eqb k k' then Some v else get k rest
  end.

(** [o.hasOwnProperty(k)] *)
Definition has (k : string) (o : t) : bool :=
  match get k o with Some _ => true | None => false end.

(** [o[k] = v]: an existing property keeps its place in the enumeration
    order, a new one goes last. *)
Fixpoint set (k : string) (v : V) (o : t) : t :=
  match o with
  | [] => [(k, v)]
  | (k', v') :: rest =>
      if String.eqb k k' then (k', v) :: rest
      else (k', v') :: set k v rest
  end.

(** [delete o[k]] *)
Fixpoint remove (k : string) (o : t) : t :=
  match o with
  | [] => []
  | (k', v') :: rest =>
      if String.eqb k k' then remove k rest
      else (k', v') :: remove k rest
  end.

(** The keys in [for ... in] order. *)
Definition keys (o : t) : list string := List.map fst o.

End WithValues.

(** Rewrites every value, keeping keys and order. *)
Definition map_values {V W : Type} (f : V -> W) (o : t V) : t W :=
  List.map (fun kv => (fst kv, f (snd kv))) o.

End Obj.

(** JavaScript truthiness of a property that holds a boolean or is
    missing. *)
Definition truthy (b : option bool) : bool :=
  match b with Some true => true | _ => false end.

(** ** Numbers

    Costs are integers.  Probabilities and the values typed into the two
    probability fields are JavaScript numbers, of which only the order
    against other numbers is observed. *)

Inductive JsNumber : Type :=
| Num (q : Q)
| NaN
| PosInfinity
| NegInfinity.

(** [r < p] for a finite [r] *)
Definition js_lt (r : Q) (p : JsNumber) : bool :=
  match p with
  | Num q => negb (Qle_bool q r)
  | PosInfinity => true
  | NaN | NegInfinity => false
  end.

(** [x >= 0] *)
Definition js_ge0 (x : JsNumber) : bool :=
  match x with
  | Num q => Qle_bool 0 q
  | PosInfinity => true
  | NaN | NegInfinity => false
  end.

(** [x <= 1] *)
Definition js_le1 (x : JsNumber) : bool :=
  match x with
  | Num q => Qle_bool q 1
  | NegInfinity => true
  | NaN | PosInfinity => false
  end.

(* ------------------------------------------------------------------ *)
(** ** graph.js *)

Record Edge := mkEdge { vertex : string; cost : Z }.

Definition Graph := Obj.t (list Edge).

Module GraphOps.

(** [new Graph()] *)
Definition newGraph : Graph := Obj.empty _.

Definition addVertex (v : string) (g : Graph) : Graph :=
  if Obj.has v g then g else Obj.set v [] g.

(** [this.graph[k].push(e)], used on keys known to be present. *)
Definition push (k : string) (e : Edge) (g : Graph) : Graph :=
  match Obj.get k g with
  | Some l => Obj.set k (l ++ [e]) g
  | None => g
  end.

Definition addEdge (src des : string) (c : Z) (g : Graph) : Graph :=
  if (Obj.has src g && Obj.has des g)%bool
  then push des (mkEdge src c) (push src (mkEdge des c) g)
  else g.

Definition not_to (v : string) (e : Edge) : bool :=
  negb (String.eqb (vertex e) v).

Definition removeVertex (v : string) (g : Graph) : Graph :=
  if Obj.has v g
  then Obj.remove v (Obj.map_values (List.filter (not_to v)) g)
  else g.

Definition getNeighbors (v : string) (g : Graph) : list Edge :=
  match Obj.get v g with
  | Some l => l
  | None => []
  end.

Definition removeEdge (src des : string) (g : Graph) : Graph :=
  if (Obj.has src g && Obj.has des g)%bool
  then
    let g1 := Obj.set src (List.filter (not_to des) (getNeighbors src g)) g in
    Obj.set des (List.filter (not_to src) (getNeighbors des g1)) g1
  else g.

(** [list.some(edge => edge.vertex === v)] *)
Definition lists (v : string) (l : list Edge) : bool :=
  List.existsb (fun e => String.eqb (vertex e) v) l.

(** The entries of [u]'s adjacency list that name [v]. *)
Definition entries (u v : string) (g : Graph) : list Edge :=
  List.filter (fun e => String.eqb (vertex e) v) (getNeighbors u g).

(** Every cost in the store is non-negative. *)
Definition costs_nonneg (g : Graph) : bool :=
  List.forallb
    (fun kv => List.forallb (fun e => (0 <=? cost e)%Z) (snd kv)) g.

(** Every cost in the store is positive. *)
Definition costs_positive (g : Graph) : bool :=
  List.forallb
    (fun kv => List.forallb (fun e => (0 <? cost e)%Z) (snd kv)) g.

End GraphOps.

(* ------------------------------------------------------------------ *)
(** ** network.js: the state *)

Record Network := mkNetwork {
  networkGraph : Graph;
  nodeFailures : Obj.t bool;
  linkFailures : Obj.t bool;
  isPaused : bool;
  nodeFailureProbability : JsNumber;
  linkFailureProbability : JsNumber
}.

Definition with_graph (g : Graph) (n : Network) : Network :=
  mkNetwork g (nodeFailures n) (linkFailures n) (isPaused n)
            (nodeFailureProbability n) (linkFailureProbability n).

Definition with_nodeFailures (f : Obj.t bool) (n : Network) : Network :=
  mkNetwork (networkGraph n) f (linkFailures n) (isPaused n)
            (nodeFailureProbability n) (linkFailureProbability n).

Definition with_linkFailures (f : Obj.t bool) (n : Network) : Network :=
  mkNetwork (networkGraph n) (nodeFailures n) f (isPaused n)
            (nodeFailureProbability n) (linkFailureProbability n).

Definition with_isPaused (b : bool) (n : Network) : Network :=
  mkNetwork (networkGraph n) (nodeFailures n) (linkFailures n) b
            (nodeFailureProbability n) (linkFailureProbability n).

Definition with_probabilities (p q : JsNumber) (n : Network) : Network :=
  mkNetwork (networkGraph n) (nodeFailures n) (linkFailures n) (isPaused n)
            p q.

(** The fields as the constructor leaves them before
    [initializeRouters] runs. *)
Definition blank (p q : JsNumber) : Network :=
  mkNetwork GraphOps.newGraph (Obj.empty _) (Obj.empty _) false p q.

(** The template string [`${a}-${b}`] *)
Definition linkKey (a b : string) : string := (a ++ "-" ++ b)%string.

(* ------------------------------------------------------------------ *)
(** ** network.js: findShortestPath *)

Inductive Dist : Type :=
| Finite (d : Z)
| Infinity.

(** [a < b] on two properties of [distances]; a missing one compares
    false either way. *)
Definition dist_lt (a b : option Dist) : bool :=
  match a, b with
  | Some (Finite x), Some (Finite y) => (x <? y)%Z
  | Some (Finite _), Some Infinity => true
  | _, _ => false
  end.

(** [d + edge.cost] *)
Definition dist_add (a : option Dist) (c : Z) : option Dist :=
  match a with
  | Some (Finite x) => Some (Finite (x + c))
  | Some Infinity => Some Infinity
  | None => None
  end.

(** [d === Infinity] *)
Definition is_infinity (a : option Dist) : bool :=
  match a with Some Infinity => true | _ => false end.

Record Search := mkSearch {
  distances : Obj.t Dist;
  previous : Obj.t (option string);   (* [None] is [null] *)
  queue : list string                 (* a [Set], in insertion order *)
}.

Definition set_add (x : string) (s : list string) : list string :=
  if List.existsb (String.eqb x) s then s else s ++ [x].

Definition set_delete (x : string) (s : list string) : list string :=
  List.filter (fun y => negb (String.eqb x y)) s.

(** The first loop, followed by [distances[start] = 0]. *)
Definition init_node (st : Search) (node : string) : Search :=
  mkSearch (Obj.set node Infinity (distances st))
           (Obj.set node None (previous st))
           (set_add node (queue st)).

Definition init_search (g : Graph) (start : string) : Search :=
  let st := List.fold_left init_node (Obj.keys g)
                           (mkSearch (Obj.empty _) (Obj.empty _) []) in
  mkSearch (Obj.set start (Finite 0) (distances st)) (previous st) (queue st).

(** The [queue.forEach] that selects [minNode]. *)
Definition pick (dist : Obj.t Dist) (minNode : option string)
    (node : string) : option string :=
  match minNode with
  | None => Some node
  | Some m =>
      if dist_lt (Obj.get node dist) (Obj.get m dist)
      then Some node else minNode
  end.

Definition select_min (dist : Obj.t Dist) (q : list string) : option string :=
  List.fold_left (pick dist) q None.

(** One turn of the [for (const edge of ...)] loop. *)
Definition relax (n : Network) (minNode : string)
    (dp : Obj.t Dist * Obj.t (option string)) (edge : Edge)
    : Obj.t Dist * Obj.t (option string) :=
  let neighbor := vertex edge in
  if (truthy (Obj.get neighbor (nodeFailures n))
      || truthy (Obj.get (linkKey minNode neighbor) (linkFailures n)))%bool
  then dp
  else
    let newDist := dist_add (Obj.get minNode (fst dp)) (cost edge) in
    if dist_lt newDist (Obj.get neighbor (fst dp))
    then match newDist with
         | Some d => (Obj.set neighbor d (fst dp),
                      Obj.set neighbor (Some minNode) (snd dp))
         | None => dp
         end
    else dp.

Definition visit (n : Network) (minNode : string) (st : Search) : Search :=
  let dp := List.fold_left (relax n minNode)
              (GraphOps.getNeighbors minNode (networkGraph n))
              (distances st, previous st) in
  mkSearch (fst dp) (snd dp) (set_delete minNode (queue st)).

(** The [while (queue.size > 0)] loop.  Every turn that does not break
    deletes a member of the queue, so [fuel] at least the queue's size is
    never used up (see [search_loop_enough]). *)
Fixpoint search_loop (n : Network) (fuel : nat) (st : Search) : Search :=
  match fuel with
  | O => st
  | S fuel' =>
      match select_min (distances st) (queue st) with
      | None => st
      | Some minNode =>
          if is_infinity (Obj.get minNode (distances st)) then st
          else search_loop n fuel' (visit n minNode st)
      end
  end.

Definition dijkstra (n : Network) (start : string) : Search :=
  let st := init_search (networkGraph n) start in
  search_loop n (List.length (queue st)) st.

(** Truthiness of [currentNode]: [null], [undefined] and the empty
    string end the walk. *)
Definition truthy_node (c : option string) : bool :=
  match c with
  | Some s => negb (String.eqb s "")
  | None => false
  end.

(** [previous[x]], with [undefined] read as [null]: the two are only
    ever tested for truthiness. *)
Definition prev_of (prev : Obj.t (option string)) (x : string)
    : option string :=
  match Obj.get x prev with
  | Some p => p
  | None => None
  end.

(** The [while (currentNode)] loop.  It need not end when [previous]
    has a cycle; [None] says that [fuel] tests were not enough. *)
Fixpoint reconstruct (fuel : nat) (prev : Obj.t (option string))
    (currentNode : option string) (path : list string)
    : option (list string) :=
  match fuel with
  | O => None
  | S fuel' =>
      match currentNode with
      | Some c =>
          if truthy_node currentNode
          then reconstruct fuel' prev (prev_of prev c) (c :: path)
          else Some path
      | None => Some path
      end
  end.

(** [path.length > 1 ? path : null] *)
Definition found (path : list string) : option (list string) :=
  if (1 <? List.length path)%nat then Some path else None.

(** The outer [option] is [None] when the walk back did not end within
    [fuel] tests; the inner one is the returned path or [null]. *)
Definition findShortestPath (fuel : nat) (n : Network) (start end_ : string)
    : option (option (list string)) :=
  let st := dijkstra n start in
  option_map found (reconstruct fuel (previous st) (Some end_) []).

(** [distances[x]] when the search from [start] has ended. *)
Definition distance_to (n : Network) (start x : string) : option Dist :=
  Obj.get x (distances (dijkstra n start)).

(* ------------------------------------------------------------------ *)
(** ** network.js: the simulation

    The methods run against the object's fields and the stream of values
    that [Math.random()] returns; [drawn] counts the samples taken so
    far.  A method may end normally, throw a [TypeError] (a property read
    on [undefined]) or fail to end within the fuel it was given. *)

Record World := mkWorld { net : Network; drawn : nat }.

Inductive Outcome (A : Type) : Type :=
| Done (a : A) (w : World)
| TypeError
| OutOfFuel.

Arguments TypeError {A}.
Arguments OutOfFuel {A}.

Definition Sim (A : Type) : Type := World -> Outcome A.

Definition ret {A : Type} (a : A) : Sim A := fun w => Done a w.

Definition bind {A B : Type} (m : Sim A) (k : A -> Sim B) : Sim B :=
  fun w =>
    match m w with
    | Done a w' => k a w'
    | TypeError => TypeError
    | OutOfFuel => OutOfFuel
    end.

Declare Scope sim_scope.
Delimit Scope sim_scope with sim.
Notation "x <- m ;; k" := (bind m (fun x => k))
  (at level 61, m at next level, right associativity) : sim_scope.
Notation "m ;; k" := (bind m (fun _ => k))
  (at level 61, right associativity) : sim_scope.

Local Open Scope sim_scope.

Definition getNet : Sim Network := fun w => Done (net w) w.

Definition modifyNet (f : Network -> Network) : Sim unit :=
  fun w => Done tt (mkWorld (f (net w)) (drawn w)).

(** [list.forEach(f)] and [for (const x in ...)] over a list fixed
    when the loop starts *)
Fixpoint forEach {A : Type} (f : A -> Sim unit) (l : list A) : Sim unit :=
  match l with
  | [] => ret tt
  | x :: rest => f x ;; forEach f rest
  end.

(** [n] runs of [m] in a row *)
Fixpoint repeat_sim (n : nat) (m : Sim unit) : Sim unit :=
  match n with
  | O => ret tt
  | S n' => m ;; repeat_sim n' m
  end.

Section Simulation.

(** The values that successive calls of [Math.random()] return. *)
Variable random : nat -> Q.

Definition mathRandom : Sim Q :=
  fun w => Done (random (drawn w)) (mkWorld (net w) (S (drawn w))).

(** The body of the [routers.forEach] in [initializeRouters]. *)
Definition initRouter (router : string) : Sim unit :=
  modifyNet (fun n =>
    with_graph (GraphOps.addVertex router (networkGraph n)) n) ;;
  r <- mathRandom ;;
  modifyNet (fun n =>
    with_nodeFailures
      (Obj.set router (js_lt r (nodeFailureProbability n)) (nodeFailures n))
      n).

Definition addEdgeWithFailure (from to : string) (c : Z) : Sim unit :=
  n <- getNet ;;
  match Obj.get from (networkGraph n) with
  | None => fun _ => TypeError
  | Some lfrom =>
      if GraphOps.lists to lfrom then ret tt
      else
        match Obj.get to (networkGraph n) with
        | None => fun _ => TypeError
        | Some lto =>
            if GraphOps.lists from lto then ret tt
            else
              modifyNet (fun n =>
                with_graph (GraphOps.addEdge from to c (networkGraph n)) n) ;;
              r <- mathRandom ;;
              modifyNet (fun n =>
                with_linkFailures
                  (Obj.set (linkKey from to)
                           (js_lt r (linkFailureProbability n))
                           (linkFailures n))
                  n)
        end
  end.

Definition routers : list string :=
  List.map
    (fun i => ("Router-" ++ NilEmpty.string_of_uint (Nat.to_uint (i + 1)))%string)
    (List.seq 0 20).

Definition edges : list (string * string * Z) :=
  [ ("Router-1", "Router-2", 1); ("Router-1", "Router-3", 2);
    ("Router-1", "Router-4", 2); ("Router-2", "Router-4", 3);
    ("Router-2", "Router-5", 2); ("Router-3", "Router-6", 3);
    ("Router-4", "Router-5", 4); ("Router-4", "Router-7", 2);
    ("Router-5", "Router-8", 1); ("Router-6", "Router-8", 2);
    ("Router-7", "Router-9", 1); ("Router-8", "Router-10", 3);
    ("Router-10", "Router-11", 1); ("Router-10", "Router-12", 2);
    ("Router-11", "Router-13", 3); ("Router-12", "Router-14", 4);
    ("Router-13", "Router-15", 1); ("Router-14", "Router-16", 2);
    ("Router-15", "Router-17", 3); ("Router-16", "Router-18", 2);
    ("Router-17", "Router-19", 1); ("Router-18", "Router-20", 4);
    ("Router-19", "Router-20", 2) ]%Z.

Definition createNetworkEdges : Sim unit :=
  forEach (fun e => addEdgeWithFailure (fst (fst e)) (snd (fst e)) (snd e))
          edges.

Definition initializeRouters : Sim unit :=
  forEach initRouter routers ;;
  createNetworkEdges.

(** [new Network(p, q)] up to the point where the timer is started. *)
Definition construct (p q : JsNumber) : Outcome unit :=
  initializeRouters (mkWorld (blank p q) 0).

(** One turn of the [for (const node in this.nodeFailures)] loop. *)
Definition checkNode (node : string) : Sim unit :=
  r <- mathRandom ;;
  n <- getNet ;;
  if js_lt r (nodeFailureProbability n)
  then modifyNet (fun n =>
         with_nodeFailures
           (Obj.set node (negb (truthy (Obj.get node (nodeFailures n))))
                    (nodeFailures n))
           n)
  else ret tt.

Definition checkNodeFailures : Sim unit :=
  n <- getNet ;;
  forEach checkNode (Obj.keys (nodeFailures n)).

Definition checkLink (link : string) : Sim unit :=
  r <- mathRandom ;;
  n <- getNet ;;
  if js_lt r (linkFailureProbability n)
  then modifyNet (fun n =>
         with_linkFailures
           (Obj.set link (negb (truthy (Obj.get link (linkFailures n))))
                    (linkFailures n))
           n)
  else ret tt.

Definition checkLinkFailures : Sim unit :=
  n <- getNet ;;
  forEach checkLink (Obj.keys (linkFailures n)).

(** The failure resampling of one tick. *)
Definition resample : Sim unit :=
  checkNodeFailures ;; checkLinkFailures.

(** [findShortestPath] as a step of the simulation. *)
Definition shortestPath (fuel : nat) (start end_ : string)
    : Sim (option (list string)) :=
  fun w =>
    match findShortestPath fuel (net w) start end_ with
    | Some r => Done r w
    | None => OutOfFuel
    end.

(** The callback that [startSimulation] hands to [setInterval]; the
    result is the path that the callback logs. *)
Definition tick (fuel : nat) : Sim (option (list string)) :=
  n <- getNet ;;
  if isPaused n then ret None
  else
    resample ;;
    shortestPath fuel "Router-1" "Router-20".

(** The click handler of the pause button. *)
Definition toggleButton_click : Sim unit :=
  modifyNet (fun n => with_isPaused (negb (isPaused n)) n).

(** The two loops of [resetNetwork]; its closing call of
    [visualizeNetwork] only reads the fields. *)
Definition resetNetwork : Sim unit :=
  modifyNet (fun n =>
    with_nodeFailures (Obj.map_values (fun _ => false) (nodeFailures n)) n) ;;
  modifyNet (fun n =>
    with_linkFailures (Obj.map_values (fun _ => false) (linkFailures n)) n).

(** The click handler installed by [setupProbabilityButton], applied to
    the two numbers that [parseFloat] returned. *)
Definition setProbabilities (nodeProbInput linkProbInput : JsNumber)
    : Sim unit :=
  if (js_ge0 nodeProbInput && js_le1 nodeProbInput
      && js_ge0 linkProbInput && js_le1 linkProbInput)%bool
  then modifyNet (with_probabilities nodeProbInput linkProbInput)
  else ret tt.

(** The states the program can be in: those the methods produce from the
    constructor's blank fields. *)
Inductive Command : Type :=
| CInitRouter (router : string)
| CAddEdgeWithFailure (from to : string) (c : Z)
| CCheckNodeFailures
| CCheckLinkFailures
| CResetNetwork
| CSetProbabilities (nodeP linkP : JsNumber)
| CToggle.

Definition run (c : Command) : Sim unit :=
  match c with
  | CInitRouter r => initRouter r
  | CAddEdgeWithFailure f t c => addEdgeWithFailure f t c
  | CCheckNodeFailures => checkNodeFailures
  | CCheckLinkFailures => checkLinkFailures
  | CResetNetwork => resetNetwork
  | CSetProbabilities p q => setProbabilities p q
  | CToggle => toggleButton_click
  end.

Definition run_all (cs : list Command) : Sim unit := forEach run cs.

Inductive built : World -> Prop :=
| built_blank p q : built (mkWorld (blank p q) 0)
| built_step w c w' : built w -> run c w = Done tt w' -> built w'.

End Simulation.

(* ------------------------------------------------------------------ *)
(** ** Predicates and scenarios used in the statements *)

(** The shape the network keeps its graph in: between two different
    vertices there is at most one entry each way, the two ways agree on
    the cost, and entries name existing vertices. *)
Record simple (g : Graph) : Prop := {
  simple_once : forall u v,
    u <> v -> (List.length (GraphOps.entries u v g) <= 1)%nat;
  simple_sym : forall u v c,
    In (mkEdge v c) (GraphOps.getNeighbors u g) ->
    In (mkEdge u c) (GraphOps.getNeighbors v g);
  simple_closed : forall u e,
    In e (GraphOps.getNeighbors u g) -> Obj.has (vertex e) g = true
}.

(** With no negative cost, what the search keeps true of its start. *)
Definition start_fixed (start : string) (dist : Obj.t Dist)
    (prev : Obj.t (option string)) : Prop :=
  Obj.get start dist = Some (Finite 0) /\
  prev_of prev start = None /\
  forall x d, Obj.get x dist = Some (Finite d) -> (0 <= d)%Z.

(** With positive costs, what the search keeps true of its
    predecessors: each is strictly nearer to the start than the vertex
    it precedes, and no distance is negative. *)
Definition descending (dist : Obj.t Dist) (prev : Obj.t (option string))
    : Prop :=
  (forall x d, Obj.get x dist = Some (Finite d) -> (0 <= d)%Z) /\
  forall x m, prev_of prev x = Some m ->
    exists dm dx,
      Obj.get m dist = Some (Finite dm) /\
      Obj.get x dist = Some (Finite dx) /\
      (dm < dx)%Z.

(** [m], started where [P] holds, can only end normally where [Q]
    holds. *)
Definition ensures {A : Type} (P : World -> Prop) (m : Sim A)
    (Q : World -> Prop) : Prop :=
  forall w a w', P w -> m w = Done a w' -> Q w'.

(** A probability that is the number zero. *)
Definition is_zero (p : JsNumber) : Prop :=
  match p with
  | Num q => q == 0
  | _ => False
  end.

(** A number inside the interval [0, 1]. *)
Definition in_unit_interval (x : JsNumber) : Prop :=
  match x with
  | Num q => 0 <= q /\ q <= 1
  | _ => False
  end.

(** A vertex or link whose failure flag is set. *)
Definition node_down (n : Network) (v : string) : Prop :=
  truthy (Obj.get v (nodeFailures n)) = true.

Definition node_up (n : Network) (v : string) : Prop :=
  truthy (Obj.get v (nodeFailures n)) = false.

(** The graph of [test()] in graph.js: a-b at 3, a-c at 2, b-c at 4. *)
Definition triangle_graph : Graph :=
  GraphOps.addEdge "b" "c" 4
    (GraphOps.addEdge "a" "c" 2
       (GraphOps.addEdge "a" "b" 3
          (GraphOps.addVertex "c"
             (GraphOps.addVertex "b"
                (GraphOps.addVertex "a" GraphOps.newGraph))))).

(** The same three routers and links in a network, everything up. *)
Definition triangle : Network :=
  mkNetwork triangle_graph
            [("a", false); ("b", false); ("c", false)]
            [("a-b", false); ("a-c", false); ("b-c", false)]
            false (Num 0) (Num 0).

(** How the methods of [Network] arrive at [triangle]. *)
Definition triangle_commands : list Command :=
  [ CInitRouter "a"; CInitRouter "b"; CInitRouter "c";
    CAddEdgeWithFailure "a" "b" 3;
    CAddEdgeWithFailure "a" "c" 2;
    CAddEdgeWithFailure "b" "c" 4 ].

(** The state before the last of those commands. *)
Definition triangle_without_bc : Network :=
  mkNetwork
    (GraphOps.addEdge "a" "c" 2
       (GraphOps.addEdge "a" "b" 3
          (GraphOps.addVertex "c"
             (GraphOps.addVertex "b"
                (GraphOps.addVertex "a" GraphOps.newGraph)))))
    [("a", false); ("b", false); ("c", false)]
    [("a-b", false); ("a-c", false)]
    false (Num 0) (Num 0).

(** One router with a link to itself. *)
Definition loop_commands : list Command :=
  [ CInitRouter "a"; CAddEdgeWithFailure "a" "a" 1 ].

Definition loop : Network :=
  mkNetwork
    (GraphOps.addEdge "a" "a" 1 (GraphOps.addVertex "a" GraphOps.newGraph))
    [("a", false)]
    [("a-a", false)]
    false (Num 0) (Num 0).

(** Two routers joined by a link of cost -1, which no topology of the
    program has: the search sets [previous] of each to the other. *)
Definition seesaw : Network :=
  mkNetwork
    (GraphOps.addEdge "a" "b" (-1)
       (GraphOps.addVertex "b" (GraphOps.addVertex "a" GraphOps.newGraph)))
    [("a", false); ("b", false)]
    [("a-b", false)]
    false (Num 0) (Num 0).

Definition set_link (key : string) (down : bool) (n : Network) : Network :=
  with_linkFailures (Obj.set key down (linkFailures n)) n.

Definition set_node (v : string) (down : bool) (n : Network) : Network :=
  with_nodeFailures (Obj.set v down (nodeFailures n)) n.

(** Two routers and the link a-b, whose sample came out below the link
    failure probability 0.1 of the first revision. *)
Definition pair_commands : list Command :=
  [ CInitRouter "a"; CInitRouter "b"; CAddEdgeWithFailure "a" "b" 1 ].

(** The state those commands leave, with the link a-b down. *)
Definition pair : Network :=
  mkNetwork
    (GraphOps.addEdge "a" "b" 1
       (GraphOps.addVertex "b" (GraphOps.addVertex "a" GraphOps.newGraph)))
    [("a", false); ("b", false)]
    [("a-b", true)]
    false (Num (1 # 5)) (Num (1 # 10)).

Definition pair_random (i : nat) : Q :=
  match i with
  | 2%nat => 0
  | _ => 1 # 2
  end.

(* ------------------------------------------------------------------ *)
(** ** Labels that a plain object treats specially

    The tables of the program are plain objects ([{}]).  A read [o[k]]
    of a key that [o] does not own goes on to [Object.prototype], which
    has a member under each of the names below; every one of them reads
    as a truthy value (a function, or for [__proto__] the prototype
    itself). *)
Definition prototype_members : list string :=
  [ "constructor"; "hasOwnProperty"; "isPrototypeOf";
    "propertyIsEnumerable"; "toLocaleString"; "toString"; "valueOf";
    "__proto__"; "__defineGetter__"; "__defineSetter__";
    "__lookupGetter__"; "__lookupSetter__" ].

Definition inherited (k : string) : bool :=
  List.existsb (String.eqb k) prototype_members.

(** The truthiness of [o[k]] for a table of booleans [o]: the own
    property when there is one, the inherited member otherwise. *)
Definition reads_truthy (o : Obj.t bool) (k : string) : bool :=
  match Obj.get k o with
  | Some b => b
  | None => inherited k
  end.

(** No vertex of the graph has the name of a member of
    [Object.prototype]. *)
Definition plain_labels (g : Graph) : bool :=
  List.forallb (fun k => negb (inherited k)) (Obj.keys g).




(** ** Costs that the numbers of JavaScript add exactly

    A JavaScript number is a double: it holds every integer up to
    [2^53], and the sum of two non-negative integers is exact as long as
    it does not pass [2^53]. *)
Definition exact_bound : Z := 9007199254740992.

(** The largest cost in the store, or zero. *)
Definition max_cost (g : Graph) : Z :=
  List.fold_right
    (fun kv acc =>
       List.fold_right (fun e a => Z.max (cost e) a) acc (snd kv))
    0%Z g.

(** Every distance in the table is an integer from [0] to [bound]. *)
Definition within (bound : Z) (dist : Obj.t Dist) : Prop :=
  forall x d, Obj.get x dist = Some (Finite d) -> (0 <= d <= bound)%Z.

(** No cost is negative, and as many of the largest cost as there are
    vertices do not add up to more than [2^53]. *)
Definition costs_within (g : Graph) : bool :=
  (GraphOps.costs_nonneg g
   && (max_cost g * Z.of_nat (List.length (Obj.keys g)) <=? exact_bound)%Z)
  %bool.

(* ------------------------------------------------------------------ *)
(** ** graph.js: the two traversals

    [DFS] and [BFS] write the vertices they visit to the console, one
    line each after a heading.  The model returns the vertices logged,
    in order; a traversal ends, or throws a [TypeError] when it looks up
    the adjacency list of a label that is not a vertex (after having
    logged that label), or is still running when its fuel ends.  The
    table [visited] is a plain object, read with what it inherits. *)

Inductive Trace : Type :=
| Finished (log : list string)
| Thrown (log : list string)
| Unfinished.

(** One turn of the [for (let neighbor of ...)] loop of [DFS]; the top
    of the stack is the head of the list. *)
Definition dfs_push (visited : Obj.t bool) (stack : list string)
    (neighbor : Edge) : list string :=
  if reads_truthy visited (vertex neighbor) then stack
  else vertex neighbor :: stack.

Fixpoint dfs_loop (fuel : nat) (g : Graph) (visited : Obj.t bool)
    (stack log : list string) : Trace :=
  match fuel with
  | O => Unfinished
  | S fuel' =>
      match stack with
      | [] => Finished log
      | v :: rest =>
          if reads_truthy visited v then dfs_loop fuel' g visited rest log
          else
            let visited' := Obj.set v true visited in
            match Obj.get v g with
            | None => Thrown (log ++ [v])
            | Some neighbors =>
                dfs_loop fuel' g visited'
                         (List.fold_left (dfs_push visited') neighbors rest)
                         (log ++ [v])
            end
      end
  end.

Definition DFS (fuel : nat) (g : Graph) (start : string) : Trace :=
  dfs_loop fuel g (Obj.empty _) [start] [].

(** One turn of the [for (let neighbor of ...)] loop of [BFS]; the front
    of the queue is the head of the list. *)
Definition bfs_enqueue (vq : Obj.t bool * list string) (neighbor : Edge)
    : Obj.t bool * list string :=
  if reads_truthy (fst vq) (vertex neighbor) then vq
  else (Obj.set (vertex neighbor) true (fst vq),
        snd vq ++ [vertex neighbor]).

Fixpoint bfs_loop (fuel : nat) (g : Graph) (visited : Obj.t bool)
    (queue log : list string) : Trace :=
  match fuel with
  | O => Unfinished
  | S fuel' =>
      match queue with
      | [] => Finished log
      | v :: rest =>
          match Obj.get v g with
          | None => Thrown (log ++ [v])
          | Some neighbors =>
              let vq := List.fold_left bfs_enqueue neighbors (visited, rest) in
              bfs_loop fuel' g (fst vq) (snd vq) (log ++ [v])
          end
      end
  end.

Definition BFS (fuel : nat) (g : Graph) (start : string) : Trace :=
  bfs_loop fuel g (Obj.set start true (Obj.empty _)) [start] [].

(* ------------------------------------------------------------------ *)
(** ** Predicates used in the further properties *)

(** How the two flag tables sit on the graph: every vertex has a flag
    and the flags are in vertex order; no table has a key twice; every
    link flag is keyed [from-to] for two vertices that list each other;
    every adjacency entry has its flag under one of the two directions. *)
Definition coherent (n : Network) : Prop :=
  let g := networkGraph n in
  Obj.keys (nodeFailures n) = Obj.keys g /\
  NoDup (Obj.keys g) /\
  NoDup (Obj.keys (linkFailures n)) /\
  (forall k, Obj.has k (linkFailures n) = true ->
     exists from to,
       k = linkKey from to /\
       GraphOps.lists to (GraphOps.getNeighbors from g) = true /\
       GraphOps.lists from (GraphOps.getNeighbors to g) = true) /\
  (forall u e, In e (GraphOps.getNeighbors u g) ->
     Obj.has (linkKey u (vertex e)) (linkFailures n) = true \/
     Obj.has (linkKey (vertex e) u) (linkFailures n) = true).

(** Two states with the same graph and the same keys in both flag
    tables. *)
Definition same_shape (n n' : Network) : Prop :=
  networkGraph n' = networkGraph n /\
  Obj.keys (nodeFailures n') = Obj.keys (nodeFailures n) /\
  Obj.keys (linkFailures n') = Obj.keys (linkFailures n).

(** What one round of [checkNodeFailures] or [checkLinkFailures] makes
    of a flag table, sample [i] being the first it draws: each flag is
    negated when its sample is below the probability. *)
Fixpoint toggled (random : nat -> Q) (p : JsNumber) (i : nat)
    (flags : Obj.t bool) : Obj.t bool :=
  match flags with
  | [] => []
  | (k, b) :: rest =>
      (k, if js_lt (random i) p then negb b else b)
        :: toggled random p (S i) rest
  end.

(** *** Walks that the search may take *)

(** The entry [e] of [m]'s adjacency list can be relaxed: its target is
    a vertex of the graph, is up, and the link flag read from [m]'s side
    is not set. *)
Definition usable (n : Network) (m : string) (e : Edge) : bool :=
  (Obj.has (vertex e) (networkGraph n)
   && negb (truthy (Obj.get (vertex e) (nodeFailures n)))
   && negb (truthy (Obj.get (linkKey m (vertex e)) (linkFailures n))))%bool.

(** One usable entry from [m] to [x] at cost [c]. *)
Definition step (n : Network) (m x : string) (c : Z) : Prop :=
  exists e,
    In e (GraphOps.getNeighbors m (networkGraph n)) /\
    vertex e = x /\ cost e = c /\ usable n m e = true.

(** [walk n s p x w]: [p] is the sequence of vertices of a walk from [s]
    to [x] along usable entries, of total cost [w]. *)
Inductive walk (n : Network) (s : string)
    : list string -> string -> Z -> Prop :=
| walk_nil : walk n s [s] s 0
| walk_step p m x c w :
    walk n s p m w -> step n m x c -> walk n s (p ++ [x]) x (w + c).

(** What holds of the search between two turns of its main loop; a
    vertex is settled when it is in the graph and no longer in the
    queue. *)
Record settled_inv (n : Network) (start : string) (st : Search) : Prop := {
  inv_queue : forall u, In u (queue st) -> Obj.has u (networkGraph n) = true;
  inv_defined : forall x,
    Obj.has x (networkGraph n) = true ->
    exists d, Obj.get x (distances st) = Some d;
  inv_keys : forall x d,
    Obj.get x (distances st) = Some d -> Obj.has x (networkGraph n) = true;
  inv_start : start_fixed start (distances st) (previous st);
  inv_order : forall v u,
    Obj.has v (networkGraph n) = true -> ~ In v (queue st) ->
    In u (queue st) ->
    dist_lt (Obj.get u (distances st)) (Obj.get v (distances st)) = false;
  inv_relaxed : forall v dv x c,
    Obj.has v (networkGraph n) = true -> ~ In v (queue st) ->
    Obj.get v (distances st) = Some (Finite dv) ->
    step n v x c ->
    exists dx, Obj.get x (distances st) = Some (Finite dx) /\ (dx <= dv + c)%Z;
  inv_walk : forall x d,
    Obj.get x (distances st) = Some (Finite d) ->
    exists p, walk n start p x d;
  inv_prev : forall x m,
    prev_of (previous st) x = Some m ->
    Obj.has m (networkGraph n) = true /\ ~ In m (queue st) /\
    exists dm c,
      Obj.get m (distances st) = Some (Finite dm) /\
      Obj.get x (distances st) = Some (Finite (dm + c)) /\
      step n m x c;
  inv_reached : forall x d,
    Obj.get x (distances st) = Some (Finite d) ->
    x = start \/ exists m, prev_of (previous st) x = Some m
}.

(** What holds inside one turn, after the entries [l] of [m] have been
    relaxed from the state [(dist, prev)] in which [m] had distance
    [dm]. *)
Definition relaxed_inv (n : Network) (m : string) (dm : Z)
    (dist : Obj.t Dist) (prev : Obj.t (option string)) (l : list Edge)
    (dp : Obj.t Dist * Obj.t (option string)) : Prop :=
  (forall x,
     (Obj.get x (fst dp) = Obj.get x dist /\
      prev_of (snd dp) x = prev_of prev x)
     \/
     (exists c,
        step n m x c /\
        Obj.get x (fst dp) = Some (Finite (dm + c)) /\
        prev_of (snd dp) x = Some m /\
        dist_lt (Some (Finite (dm + c))) (Obj.get x dist) = true)) /\
  (forall e, In e l -> usable n m e = true ->
     exists dx,
       Obj.get (vertex e) (fst dp) = Some (Finite dx) /\
       (dx <= dm + cost e)%Z).

(** A network over the graph [g] in which nothing is flagged. *)
Definition unflagged (g : Graph) : Network :=
  mkNetwork g (Obj.empty _) (Obj.empty _) false (Num 0) (Num 0).

(** Two networks with the same graph whose flag tables read alike under
    JavaScript truthiness. *)
Definition same_failures (n1 n2 : Network) : Prop :=
  networkGraph n1 = networkGraph n2 /\
  (forall v, truthy (Obj.get v (nodeFailures n1))
             = truthy (Obj.get v (nodeFailures n2))) /\
  (forall k, truthy (Obj.get k (linkFailures n1))
             = truthy (Obj.get k (linkFailures n2))).

(** *** Reachability in the graph *)

(** [y] can be reached from [s] along adjacency entries. *)
Inductive reaches (g : Graph) (s : string) : string -> Prop :=
| reaches_refl : reaches g s s
| reaches_step x y :
    reaches g s x ->
    GraphOps.lists y (GraphOps.getNeighbors x g) = true ->
    reaches g s y.

(** Every adjacency entry names a vertex of the graph. *)
Definition closed (g : Graph) : Prop :=
  forall u e, In e (GraphOps.getNeighbors u g) -> Obj.has (vertex e) g = true.

(** The entries held by vertices that are not in [log] yet. *)
Definition pending (log : list string) (g : Graph) : nat :=
  List.list_sum
    (List.map
       (fun kv => if List.existsb (String.eqb (fst kv)) log then O
                  else List.length (snd kv))
       g).

(** What holds of [BFS] between two turns of its loop. *)
Record bfs_inv (g : Graph) (start : string) (visited : Obj.t bool)
    (queue log : list string) : Prop := {
  bfs_marked : forall x,
    truthy (Obj.get x visited) = true <-> In x (log ++ queue);
  bfs_once : NoDup (log ++ queue);
  bfs_reached : forall x, In x (log ++ queue) -> reaches g start x;
  bfs_done : forall x y,
    In x log -> GraphOps.lists y (GraphOps.getNeighbors x g) = true ->
    In y (log ++ queue);
  bfs_first : exists tail, log ++ queue = start :: tail
}.

(** What holds of [DFS] between two turns of its loop. *)
Record dfs_inv (g : Graph) (start : string) (visited : Obj.t bool)
    (stack log : list string) : Prop := {
  dfs_marked : forall x, truthy (Obj.get x visited) = true <-> In x log;
  dfs_once : NoDup log;
  dfs_reached : forall x, In x (log ++ stack) -> reaches g start x;
  dfs_done : forall x y,
    In x log -> GraphOps.lists y (GraphOps.getNeighbors x g) = true ->
    In y (log ++ stack);
  dfs_first : exists tail, log ++ stack = start :: tail
}.

(** *** The topology the constructor builds *)

Definition shipped_graph : Graph :=
  List.fold_left
    (fun g e => GraphOps.addEdge (fst (fst e)) (snd (fst e)) (snd e) g)
    edges
    (List.fold_left (fun g r => GraphOps.addVertex r g) routers
                    GraphOps.newGraph).

(** The flag of the [i]-th router comes from the [i]-th sample, the flag
    of the [k]-th link from sample [20 + k]. *)
Definition shipped_nodeFailures (random : nat -> Q) (p : JsNumber)
    : Obj.t bool :=
  List.map (fun i => (List.nth i routers "", js_lt (random i) p))
           (List.seq 0 20).

Definition shipped_linkFailures (random : nat -> Q) (q : JsNumber)
    : Obj.t bool :=
  List.map
    (fun k =>
       let e := List.nth k edges ("", "", 0%Z) in
       (linkKey (fst (fst e)) (snd (fst e)), js_lt (random (20 + k)%nat) q))
    (List.seq 0 23).

(** Every entry of a vertex of [region] leads into [region] or to
    [cut]. *)
Definition fenced (g : Graph) (region : list string) (cut : string) : bool :=
  List.forallb
    (fun m =>
       List.forallb
         (fun e => (List.existsb (String.eqb (vertex e)) region
                    || String.eqb (vertex e) cut)%bool)
         (GraphOps.getNeighbors m g))
    region.

(** The routers on the near side of Router-10. *)
Definition upstream : list string :=
  [ "Router-1"; "Router-2"; "Router-3"; "Router-4"; "Router-5";
    "Router-6"; "Router-7"; "Router-8"; "Router-9" ].

(* ================================================================== *)
(** * Part II: properties *)

(** ** Objects *)

Module ObjFacts.

Section WithValues.
Variable V : Type.
Implicit Types (o : Obj.t V) (k : string) (v : V).

Lemma get_set_same k v o : Obj.get k (Obj.set k v o) = Some v.
Proof.
  induction o as [|[k' v'] rest IH]; simpl.
  - now rewrite String.eqb_refl.
  - destruct (String.eqb k k') eqn:E; simpl; rewrite E; auto.
Qed.

Lemma get_set_other k k' v o :
  k <> k' -> Obj.get k (Obj.set k' v o) = Obj.get k o.
Proof.
  intros Hne. apply String.eqb_neq in Hne.
  induction o as [|[k0 v0] rest IH]; simpl.
  - now rewrite Hne.
  - destruct (String.eqb k' k0) eqn:E; simpl.
    + apply String.eqb_eq in E. subst k0. now rewrite Hne.
    + now rewrite IH.
Qed.

Lemma get_set k k' v o :
  Obj.get k (Obj.set k' v o) =
  if String.eqb k k' then Some v else Obj.get k o.
Proof.
  destruct (String.eqb k k') eqn:E.
  - apply String.eqb_eq in E. subst. apply get_set_same.
  - apply String.eqb_neq in E. now apply get_set_other.
Qed.

Lemma has_set k k' v o :
  Obj.has k (Obj.set k' v o) = (String.eqb k k' || Obj.has k o)%bool.
Proof.
  unfold Obj.has. rewrite get_set.
  destruct (String.eqb k k'); reflexivity.
Qed.

Lemma keys_set_present k v o :
  Obj.has k o = true -> Obj.keys (Obj.set k v o) = Obj.keys o.
Proof.
  unfold Obj.has, Obj.keys.
  induction o as [|[k' v'] rest IH]; simpl; [discriminate|].
  destruct (String.eqb k k') eqn:E; simpl; intros H; [reflexivity|].
  now rewrite IH.
Qed.

Lemma keys_set_absent k v o :
  Obj.has k o = false -> Obj.keys (Obj.set k v o) = Obj.keys o ++ [k].
Proof.
  unfold Obj.has, Obj.keys.
  induction o as [|[k' v'] rest IH]; simpl; [reflexivity|].
  destruct (String.eqb k k') eqn:E; simpl; intros H; [discriminate|].
  now rewrite IH.
Qed.

Lemma has_In_keys k o : Obj.has k o = true <-> In k (Obj.keys o).
Proof.
  unfold Obj.has, Obj.keys.
  induction o as [|[k' v'] rest IH]; simpl.
  - split; [discriminate | tauto].
  - destruct (String.eqb k k') eqn:E.
    + apply String.eqb_eq in E. subst. split; auto.
    + apply String.eqb_neq in E. rewrite IH. split; [auto|].
      intros [H|H]; [congruence | exact H].
Qed.

Lemma get_In k v o : Obj.get k o = Some v -> In (k, v) o.
Proof.
  induction o as [|[k' v'] rest IH]; simpl; [discriminate|].
  destruct (String.eqb k k') eqn:E.
  - apply String.eqb_eq in E. intros [= ->]. subst. now left.
  - intros H. right. auto.
Qed.

End WithValues.

Lemma keys_map_values {V W} (f : V -> W) o :
  Obj.keys (Obj.map_values f o) = Obj.keys o.
Proof.
  unfold Obj.keys, Obj.map_values. rewrite List.map_map. reflexivity.
Qed.

Lemma get_map_values {V W} (f : V -> W) k o :
  Obj.get k (Obj.map_values f o) = option_map f (Obj.get k o).
Proof.
  induction o as [|[k' v'] rest IH]; simpl; [reflexivity|].
  destruct (String.eqb k k'); auto.
Qed.

End ObjFacts.

(** ** The graph store *)

Module GraphFacts.
Import GraphOps.

Lemma getNeighbors_addVertex w v g :
  getNeighbors w (addVertex v g) = getNeighbors w g.
Proof.
  unfold addVertex, getNeighbors.
  destruct (Obj.has v g) eqn:Hv; [reflexivity|].
  rewrite ObjFacts.get_set.
  destruct (String.eqb w v) eqn:E; [|reflexivity].
  apply String.eqb_eq in E. subst w.
  unfold Obj.has in Hv. destruct (Obj.get v g); [discriminate | reflexivity].
Qed.

Lemma has_addVertex w v g :
  Obj.has w (addVertex v g) = (String.eqb w v || Obj.has w g)%bool.
Proof.
  unfold addVertex. destruct (Obj.has v g) eqn:Hv.
  - destruct (String.eqb w v) eqn:E; [|reflexivity].
    apply String.eqb_eq in E. now subst.
  - apply ObjFacts.has_set.
Qed.

Lemma has_push w k e g : Obj.has w (push k e g) = Obj.has w g.
Proof.
  unfold push. destruct (Obj.get k g) eqn:Hk; [|reflexivity].
  rewrite ObjFacts.has_set.
  destruct (String.eqb w k) eqn:E; [|reflexivity].
  apply String.eqb_eq in E. subst. unfold Obj.has. now rewrite Hk.
Qed.

Lemma keys_push k e g : Obj.keys (push k e g) = Obj.keys g.
Proof.
  unfold push. destruct (Obj.get k g) eqn:Hk; [|reflexivity].
  apply ObjFacts.keys_set_present. unfold Obj.has. now rewrite Hk.
Qed.

Lemma getNeighbors_push w k e g :
  Obj.has k g = true ->
  getNeighbors w (push k e g) =
  if String.eqb w k then getNeighbors w g ++ [e] else getNeighbors w g.
Proof.
  unfold Obj.has, push, getNeighbors.
  destruct (Obj.get k g) eqn:Hk; [intros _ | discriminate].
  rewrite ObjFacts.get_set.
  destruct (String.eqb w k) eqn:E; [|reflexivity].
  apply String.eqb_eq in E. subst. now rewrite Hk.
Qed.

(** What an accepted [addEdge] does to each adjacency list. *)
Lemma getNeighbors_addEdge w src des c g :
  Obj.has src g = true -> Obj.has des g = true ->
  getNeighbors w (addEdge src des c g) =
  getNeighbors w g
    ++ (if String.eqb w src then [mkEdge des c] else [])
    ++ (if String.eqb w des then [mkEdge src c] else []).
Proof.
  intros Hs Hd. unfold addEdge. rewrite Hs, Hd. simpl.
  rewrite getNeighbors_push by now rewrite has_push.
  rewrite getNeighbors_push by assumption.
  destruct (String.eqb w src), (String.eqb w des);
    rewrite <- ?app_assoc; simpl; rewrite ?app_nil_r; reflexivity.
Qed.

Lemma has_addEdge w src des c g :
  Obj.has w (addEdge src des c g) = Obj.has w g.
Proof.
  unfold addEdge. destruct (Obj.has src g && Obj.has des g)%bool;
    [|reflexivity].
  now rewrite !has_push.
Qed.

Lemma keys_addEdge src des c g :
  Obj.keys (addEdge src des c g) = Obj.keys g.
Proof.
  unfold addEdge. destruct (Obj.has src g && Obj.has des g)%bool;
    [|reflexivity].
  now rewrite !keys_push.
Qed.

Lemma lists_false_entries u v g :
  lists v (getNeighbors u g) = false <-> entries u v g = [].
Proof.
  unfold lists, entries.
  induction (getNeighbors u g) as [|e l IH]; simpl; [tauto|].
  destruct (String.eqb (vertex e) v); simpl.
  - split; discriminate.
  - exact IH.
Qed.

Lemma entries_addEdge u v src des c g :
  Obj.has src g = true -> Obj.has des g = true ->
  entries u v (addEdge src des c g) =
  entries u v g
    ++ (if (String.eqb u src && String.eqb des v)%bool
        then [mkEdge des c] else [])
    ++ (if (String.eqb u des && String.eqb src v)%bool
        then [mkEdge src c] else []).
Proof.
  intros Hs Hd. unfold entries.
  rewrite getNeighbors_addEdge by assumption.
  rewrite !filter_app.
  destruct (String.eqb u src), (String.eqb u des); simpl;
    destruct (String.eqb des v), (String.eqb src v); reflexivity.
Qed.

Lemma simple_empty : simple newGraph.
Proof.
  split; unfold entries, getNeighbors; simpl; intros; try tauto. lia.
Qed.

Lemma simple_addVertex v g : simple g -> simple (addVertex v g).
Proof.
  intros [H1 H2 H3]. split.
  - intros u w Hne. unfold entries. rewrite getNeighbors_addVertex.
    now apply H1.
  - intros u w c. rewrite !getNeighbors_addVertex. apply H2.
  - intros u e. rewrite getNeighbors_addVertex, has_addVertex.
    intros Hin. rewrite (H3 _ _ Hin). apply orb_true_r.
Qed.

Lemma simple_addEdge src des c g :
  simple g ->
  Obj.has src g = true -> Obj.has des g = true ->
  lists des (getNeighbors src g) = false ->
  lists src (getNeighbors des g) = false ->
  simple (addEdge src des c g).
Proof.
  intros [H1 H2 H3] Hs Hd Hsd Hds.
  apply lists_false_entries in Hsd, Hds. split.
  - intros u v Hne. rewrite entries_addEdge by assumption.
    rewrite !length_app. specialize (H1 u v Hne).
    destruct (String.eqb_spec u src), (String.eqb_spec des v),
      (String.eqb_spec u des), (String.eqb_spec src v);
      subst; simpl; try congruence; rewrite ?Hsd, ?Hds; simpl; lia.
  - intros u v c0. rewrite !getNeighbors_addEdge by assumption.
    rewrite !in_app_iff. intros [Hin|[Hin|Hin]].
    + left. now apply H2.
    + destruct (String.eqb u src) eqn:E; [|contradiction].
      apply String.eqb_eq in E. subst u.
      destruct Hin as [[= <- <-]|[]].
      right. right. rewrite String.eqb_refl. now left.
    + destruct (String.eqb u des) eqn:E; [|contradiction].
      apply String.eqb_eq in E. subst u.
      destruct Hin as [[= <- <-]|[]].
      right. left. rewrite String.eqb_refl. now left.
  - intros u e. rewrite getNeighbors_addEdge by assumption.
    rewrite has_addEdge, !in_app_iff. intros [Hin|[Hin|Hin]].
    + now apply H3 with u.
    + destruct (String.eqb u src); [|contradiction].
      destruct Hin as [<-|[]]. exact Hd.
    + destruct (String.eqb u des); [|contradiction].
      destruct Hin as [<-|[]]. exact Hs.
Qed.

(** In a simple graph an edge between two different vertices is one
    entry on each side, with one cost. *)
Lemma simple_single_entry g u v :
  simple g -> u <> v ->
  lists v (getNeighbors u g) = true ->
  exists c, entries u v g = [mkEdge v c] /\ entries v u g = [mkEdge u c].
Proof.
  intros [H1 H2 H3] Hne Hl.
  assert (Hlen := H1 _ _ Hne).
  assert (Hlen' := H1 v u (not_eq_sym Hne)).
  destruct (entries u v g) as [|e [|e' l]] eqn:Euv; simpl in Hlen; try lia.
  - apply lists_false_entries in Euv. congruence.
  - assert (Hin : In e (entries u v g)) by (rewrite Euv; now left).
    unfold entries in Hin. apply filter_In in Hin as [Hin Hv].
    apply String.eqb_eq in Hv. destruct e as [v' c]. simpl in Hv. subst v'.
    exists c. split; [reflexivity|].
    apply H2 in Hin.
    assert (Hin' : In (mkEdge u c) (entries v u g)).
    { unfold entries. apply filter_In. split; [exact Hin|].
      simpl. apply String.eqb_refl. }
    destruct (entries v u g) as [|e1 [|e2 l]]; simpl in Hlen'; try lia.
    + destruct Hin'.
    + destruct Hin' as [->|[]]. reflexivity.
Qed.

Lemma costs_nonneg_spec g u e :
  costs_nonneg g = true -> In e (getNeighbors u g) -> (0 <= cost e)%Z.
Proof.
  unfold costs_nonneg, getNeighbors. intros Hall Hin.
  destruct (Obj.get u g) as [l|] eqn:Hu; [|destruct Hin].
  apply ObjFacts.get_In in Hu.
  rewrite forallb_forall in Hall. specialize (Hall _ Hu). simpl in Hall.
  rewrite forallb_forall in Hall. specialize (Hall _ Hin).
  now apply Z.leb_le.
Qed.

End GraphFacts.

(** ** The simulation: what each method leaves alone *)

Module SimFacts.
Import GraphOps.

Lemma ensures_bind {A B} (P Q R : World -> Prop) (m : Sim A)
    (k : A -> Sim B) :
  ensures P m Q -> (forall a, ensures Q (k a) R) -> ensures P (bind m k) R.
Proof.
  intros Hm Hk w b w' HP. unfold bind.
  destruct (m w) as [a w1| |] eqn:E; try discriminate.
  intros Hrun. exact (Hk a w1 b w' (Hm _ _ _ HP E) Hrun).
Qed.

Lemma ensures_ret {A} (P : World -> Prop) (a : A) : ensures P (ret a) P.
Proof. intros w a' w' HP [= _ <-]. exact HP. Qed.

Lemma ensures_forEach {A} (P : World -> Prop) (f : A -> Sim unit) l :
  (forall x, ensures P (f x) P) -> ensures P (forEach f l) P.
Proof.
  intros Hf. induction l as [|x rest IH]; simpl.
  - apply ensures_ret.
  - apply ensures_bind with P; auto.
Qed.

Lemma ensures_repeat (P : World -> Prop) (m : Sim unit) n :
  ensures P m P -> ensures P (repeat_sim n m) P.
Proof.
  intros Hm. induction n as [|n IH]; simpl.
  - apply ensures_ret.
  - apply ensures_bind with P; auto.
Qed.

Section Frames.
Variable random : nat -> Q.

(** A property of the graph alone. *)
Variable G : Graph -> Prop.

Let onGraph (w : World) : Prop := G (networkGraph (net w)).

Lemma checkNode_graph node : ensures onGraph (checkNode random node) onGraph.
Proof.
  intros w a w' HP. unfold checkNode, bind, mathRandom, getNet, modifyNet, ret.
  simpl. destruct (js_lt _ _); intros [= _ <-]; exact HP.
Qed.

Lemma checkLink_graph link : ensures onGraph (checkLink random link) onGraph.
Proof.
  intros w a w' HP. unfold checkLink, bind, mathRandom, getNet, modifyNet, ret.
  simpl. destruct (js_lt _ _); intros [= _ <-]; exact HP.
Qed.

Lemma checkNodeFailures_graph :
  ensures onGraph (checkNodeFailures random) onGraph.
Proof.
  unfold checkNodeFailures. apply ensures_bind with onGraph.
  - intros w a w' HP [= _ <-]. exact HP.
  - intros n. apply ensures_forEach. apply checkNode_graph.
Qed.

Lemma checkLinkFailures_graph :
  ensures onGraph (checkLinkFailures random) onGraph.
Proof.
  unfold checkLinkFailures. apply ensures_bind with onGraph.
  - intros w a w' HP [= _ <-]. exact HP.
  - intros n. apply ensures_forEach. apply checkLink_graph.
Qed.

Lemma resetNetwork_graph : ensures onGraph resetNetwork onGraph.
Proof. intros w a w' HP [= _ <-]. exact HP. Qed.

Lemma setProbabilities_graph p q :
  ensures onGraph (setProbabilities p q) onGraph.
Proof.
  intros w a w' HP. unfold setProbabilities.
  destruct (_ && _)%bool; intros [= _ <-]; exact HP.
Qed.

Lemma toggleButton_click_graph : ensures onGraph toggleButton_click onGraph.
Proof. intros w a w' HP [= _ <-]. exact HP. Qed.

End Frames.

(** The two ways an [addEdgeWithFailure] call can end normally. *)
Lemma addEdgeWithFailure_cases random from to c w w' :
  addEdgeWithFailure random from to c w = Done tt w' ->
  let g := networkGraph (net w) in
  (w' = w /\
   (lists to (getNeighbors from g) || lists from (getNeighbors to g))%bool
   = true)
  \/
  (Obj.has from g = true /\ Obj.has to g = true /\
   lists to (getNeighbors from g) = false /\
   lists from (getNeighbors to g) = false /\
   w' = mkWorld
          (with_linkFailures
             (Obj.set (linkKey from to)
                (js_lt (random (drawn w)) (linkFailureProbability (net w)))
                (linkFailures (net w)))
             (with_graph (addEdge from to c g) (net w)))
          (S (drawn w))).
Proof.
  unfold addEdgeWithFailure, bind, getNet, getNeighbors, Obj.has. simpl.
  destruct (Obj.get from (networkGraph (net w))) as [lf|] eqn:Hf;
    [|discriminate].
  destruct (lists to lf) eqn:Hl1.
  - intros [= <-]. left. now split.
  - destruct (Obj.get to (networkGraph (net w))) as [lt|] eqn:Ht;
      [|discriminate].
    destruct (lists from lt) eqn:Hl2.
    + intros [= <-]. left. split; [reflexivity | apply orb_true_r].
    + unfold modifyNet, mathRandom, ret. simpl. intros [= <-].
      right. repeat split; reflexivity.
Qed.

(** Every state of the program keeps its graph simple. *)
Lemma built_simple random w :
  built random w -> simple (networkGraph (net w)).
Proof.
  induction 1 as [p q | w c w' Hb IH Hrun].
  - apply GraphFacts.simple_empty.
  - destruct c; simpl in Hrun.
    + unfold initRouter, bind, modifyNet, mathRandom in Hrun. simpl in Hrun.
      injection Hrun as <-. simpl. now apply GraphFacts.simple_addVertex.
    + apply addEdgeWithFailure_cases in Hrun.
      destruct Hrun as [[-> _] | (Hf & Ht & Hl1 & Hl2 & ->)]; [exact IH|].
      simpl. now apply GraphFacts.simple_addEdge.
    + exact (@checkNodeFailures_graph random _ w tt w' IH Hrun).
    + exact (@checkLinkFailures_graph random _ w tt w' IH Hrun).
    + exact (@resetNetwork_graph _ w tt w' IH Hrun).
    + exact (@setProbabilities_graph _ nodeP linkP w tt w' IH Hrun).
    + exact (@toggleButton_click_graph _ w tt w' IH Hrun).
Qed.

End SimFacts.

(** ** The search *)

Module SearchFacts.
Import GraphOps.

Lemma prev_of_set prev k v x :
  prev_of (Obj.set k v prev) x =
  if String.eqb x k then v else prev_of prev x.
Proof.
  unfold prev_of. rewrite ObjFacts.get_set.
  destruct (String.eqb x k); reflexivity.
Qed.

(** *** The first loop *)

Lemma init_fold_previous keys st x :
  prev_of (previous st) x = None ->
  prev_of (previous (List.fold_left init_node keys st)) x = None.
Proof.
  revert st. induction keys as [|k rest IH]; intros st H; simpl; [exact H|].
  apply IH. simpl. rewrite prev_of_set.
  destruct (String.eqb x k); [reflexivity | exact H].
Qed.

Lemma init_fold_distances keys st x d :
  (forall d', Obj.get x (distances st) = Some d' -> d' = Infinity) ->
  Obj.get x (distances (List.fold_left init_node keys st)) = Some d ->
  d = Infinity.
Proof.
  revert st. induction keys as [|k rest IH]; intros st H; simpl; [apply H|].
  apply IH. simpl. intros d'. rewrite ObjFacts.get_set.
  destruct (String.eqb x k); [congruence | apply H].
Qed.

Lemma init_search_previous g start x :
  prev_of (previous (init_search g start)) x = None.
Proof. unfold init_search. simpl. now apply init_fold_previous. Qed.

Lemma init_search_distances g start x d :
  Obj.get x (distances (init_search g start)) = Some d ->
  d = Infinity \/ (x = start /\ d = Finite 0).
Proof.
  unfold init_search. simpl. rewrite ObjFacts.get_set.
  destruct (String.eqb_spec x start).
  - intros [= <-]. right. now split.
  - intros H. left. revert H. apply init_fold_distances. discriminate.
Qed.

Lemma init_search_start g start :
  Obj.get start (distances (init_search g start)) = Some (Finite 0).
Proof. unfold init_search. simpl. apply ObjFacts.get_set_same. Qed.

(** *** The main loop never runs short of fuel *)

Lemma pick_fold_In dist q acc m :
  List.fold_left (pick dist) q acc = Some m -> acc = Some m \/ In m q.
Proof.
  revert acc. induction q as [|x rest IH]; intros acc H; simpl in *.
  - now left.
  - apply IH in H. destruct H as [H|H]; [|now right; right].
    unfold pick in H. destruct acc as [a|].
    + destruct (dist_lt _ _); injection H as H; subst; auto.
    + injection H as H. subst. right. now left.
Qed.

Lemma pick_fold_none dist q acc :
  List.fold_left (pick dist) q acc = None -> acc = None.
Proof.
  revert acc. induction q as [|x rest IH]; intros acc H; simpl in *.
  - exact H.
  - apply IH in H. unfold pick in H. destruct acc as [a|]; [|reflexivity].
    destruct (dist_lt _ _); discriminate.
Qed.

Lemma select_min_In dist q m : select_min dist q = Some m -> In m q.
Proof.
  unfold select_min. intros H. apply pick_fold_In in H.
  destruct H as [H|H]; [discriminate | exact H].
Qed.

Lemma select_min_nil dist : select_min dist [] = None.
Proof. reflexivity. Qed.

Lemma set_delete_shorter m q :
  In m q -> (List.length (set_delete m q) < List.length q)%nat.
Proof.
  unfold set_delete. induction q as [|x rest IH]; simpl; [tauto|].
  assert (Hle : (List.length
                   (List.filter (fun y => negb (String.eqb m y)) rest)
                 <= List.length rest)%nat) by apply filter_length_le.
  intros [->|Hin].
  - rewrite String.eqb_refl. simpl. lia.
  - specialize (IH Hin). destruct (negb (String.eqb m x)); simpl; lia.
Qed.

Lemma search_loop_fuel n f1 f2 st :
  (List.length (queue st) <= f1)%nat ->
  (List.length (queue st) <= f2)%nat ->
  search_loop n f1 st = search_loop n f2 st.
Proof.
  revert f2 st. induction f1 as [|f1 IH]; intros [|f2] st H1 H2; simpl;
    try reflexivity.
  - destruct (queue st) eqn:Eq; [|simpl in H1; lia].
    now rewrite select_min_nil.
  - destruct (queue st) eqn:Eq; [|simpl in H2; lia].
    now rewrite select_min_nil.
  - destruct (select_min (distances st) (queue st)) as [m|] eqn:Em;
      [|reflexivity].
    destruct (is_infinity _); [reflexivity|].
    apply select_min_In, set_delete_shorter in Em.
    apply IH; simpl; lia.
Qed.

(** More fuel than the queue is long changes nothing. *)
Lemma search_loop_enough n fuel st :
  (List.length (queue st) <= fuel)%nat ->
  search_loop n fuel st = search_loop n (List.length (queue st)) st.
Proof. intros H. apply search_loop_fuel; [exact H | apply Nat.le_refl]. Qed.

(** With that much fuel the loop stops where the program's loop does:
    on an empty queue or at the [break]. *)
Lemma search_loop_final n fuel st :
  (List.length (queue st) <= fuel)%nat ->
  let r := search_loop n fuel st in
  queue r = [] \/
  exists m, select_min (distances r) (queue r) = Some m /\
            is_infinity (Obj.get m (distances r)) = true.
Proof.
  revert st. induction fuel as [|fuel IH]; intros st Hlen; simpl.
  - left. destruct (queue st); [reflexivity | simpl in Hlen; lia].
  - destruct (select_min (distances st) (queue st)) as [m|] eqn:Em.
    + destruct (is_infinity (Obj.get m (distances st))) eqn:Ei.
      * right. exists m. now split.
      * apply IH. apply select_min_In, set_delete_shorter in Em.
        simpl. lia.
    + left. destruct (queue st) as [|x rest] eqn:Eq; [reflexivity|].
      unfold select_min in Em. simpl in Em.
      apply pick_fold_none in Em. discriminate.
Qed.

(** *** Properties that every relaxation keeps *)

Section Invariant.
Variable n : Network.
Variable P : Obj.t Dist -> Obj.t (option string) -> Prop.

Hypothesis relax_keeps : forall m dp e,
  In e (getNeighbors m (networkGraph n)) ->
  P (fst dp) (snd dp) ->
  P (fst (relax n m dp e)) (snd (relax n m dp e)).

Lemma relax_fold_keeps m l dp :
  incl l (getNeighbors m (networkGraph n)) ->
  P (fst dp) (snd dp) ->
  P (fst (List.fold_left (relax n m) l dp))
    (snd (List.fold_left (relax n m) l dp)).
Proof.
  revert dp. induction l as [|e rest IH]; intros dp Hincl HP; simpl.
  - exact HP.
  - apply IH.
    + intros x Hx. apply Hincl. now right.
    + apply relax_keeps; [apply Hincl; now left | exact HP].
Qed.

Lemma visit_keeps m st :
  P (distances st) (previous st) ->
  P (distances (visit n m st)) (previous (visit n m st)).
Proof.
  intros HP. unfold visit. simpl.
  apply relax_fold_keeps; [apply incl_refl | exact HP].
Qed.

Lemma search_loop_keeps fuel st :
  P (distances st) (previous st) ->
  P (distances (search_loop n fuel st)) (previous (search_loop n fuel st)).
Proof.
  revert st. induction fuel as [|fuel IH]; intros st HP; simpl; [exact HP|].
  destruct (select_min _ _) as [m|]; [|exact HP].
  destruct (is_infinity _); [exact HP|].
  apply IH. now apply visit_keeps.
Qed.

Lemma dijkstra_keeps start :
  (let st := init_search (networkGraph n) start in
   P (distances st) (previous st)) ->
  P (distances (dijkstra n start)) (previous (dijkstra n start)).
Proof. intros H. unfold dijkstra. now apply search_loop_keeps. Qed.

End Invariant.

(** *** A vertex that is down is never given a predecessor *)

Lemma relax_down_keeps n x m dp e :
  truthy (Obj.get x (nodeFailures n)) = true ->
  prev_of (snd dp) x = None ->
  prev_of (snd (relax n m dp e)) x = None.
Proof.
  intros Hdown Hp. unfold relax.
  destruct (truthy (Obj.get (vertex e) (nodeFailures n))) eqn:Hv; simpl.
  - exact Hp.
  - destruct (truthy (Obj.get (linkKey m (vertex e)) (linkFailures n)));
      [exact Hp|].
    destruct (dist_lt _ _); [|exact Hp].
    destruct (dist_add _ _); [|exact Hp].
    simpl. rewrite prev_of_set.
    destruct (String.eqb_spec x (vertex e)); [|exact Hp].
    subst x. congruence.
Qed.

Lemma dijkstra_down n start x :
  truthy (Obj.get x (nodeFailures n)) = true ->
  prev_of (previous (dijkstra n start)) x = None.
Proof.
  intros Hdown.
  apply (dijkstra_keeps n (fun _ prev => prev_of prev x = None)).
  - intros m dp e _. now apply relax_down_keeps.
  - apply init_search_previous.
Qed.

(** Whoever has a predecessor is up. *)
Lemma relax_up_keeps n m dp e :
  (forall x p, prev_of (snd dp) x = Some p ->
               truthy (Obj.get x (nodeFailures n)) = false) ->
  forall x p, prev_of (snd (relax n m dp e)) x = Some p ->
              truthy (Obj.get x (nodeFailures n)) = false.
Proof.
  intros H x p. unfold relax.
  destruct (truthy (Obj.get (vertex e) (nodeFailures n))) eqn:Hv; simpl.
  - apply H.
  - destruct (truthy (Obj.get (linkKey m (vertex e)) (linkFailures n)));
      [apply H|].
    destruct (dist_lt _ _); [|apply H].
    destruct (dist_add _ _); [|apply H].
    simpl. rewrite prev_of_set.
    destruct (String.eqb_spec x (vertex e)); [|apply H].
    subst x. intros _. exact Hv.
Qed.

Lemma dijkstra_up n start x p :
  prev_of (previous (dijkstra n start)) x = Some p ->
  truthy (Obj.get x (nodeFailures n)) = false.
Proof.
  revert x p.
  apply (dijkstra_keeps n
           (fun _ prev => forall x p, prev_of prev x = Some p ->
              truthy (Obj.get x (nodeFailures n)) = false)).
  - intros m dp e _. apply relax_up_keeps.
  - cbv zeta. intros x p. now rewrite init_search_previous.
Qed.

(** *** With no negative cost the start keeps distance 0 and no
    predecessor *)

Lemma relax_start_fixed n start m dp e :
  (0 <= cost e)%Z ->
  start_fixed start (fst dp) (snd dp) ->
  start_fixed start (fst (relax n m dp e)) (snd (relax n m dp e)).
Proof.
  intros Hc (H0 & Hp & Hpos). unfold relax.
  destruct (_ || _)%bool; [now repeat split|].
  destruct (Obj.get m (fst dp)) as [[dm|]|] eqn:Hm; cbn [dist_add];
    try (now repeat split).
  assert (Hdm : (0 <= dm)%Z) by now apply Hpos with m.
  destruct (dist_lt _ _) eqn:Hlt; cbn [fst snd]; [|now repeat split].
  assert (Hne : vertex e <> start).
  { intros Heq. rewrite Heq, H0 in Hlt. simpl in Hlt.
    apply Z.ltb_lt in Hlt. lia. }
  repeat split.
  - now rewrite ObjFacts.get_set_other by congruence.
  - rewrite prev_of_set.
    destruct (String.eqb_spec start (vertex e)); [congruence | exact Hp].
  - intros x d. rewrite ObjFacts.get_set.
    destruct (String.eqb x (vertex e)).
    + intros [= <-]. lia.
    + apply Hpos.
Qed.

Lemma dijkstra_start_fixed n start :
  costs_nonneg (networkGraph n) = true ->
  start_fixed start (distances (dijkstra n start))
              (previous (dijkstra n start)).
Proof.
  intros Hc. apply (dijkstra_keeps n (start_fixed start)).
  - intros m dp e Hin. apply relax_start_fixed.
    now apply GraphFacts.costs_nonneg_spec with (networkGraph n) m.
  - cbv zeta. split; [apply init_search_start|].
    split; [apply init_search_previous|].
    intros x d H. apply init_search_distances in H.
    destruct H as [H|[_ H]]; [discriminate|]. injection H as <-. lia.
Qed.

(** *** With positive costs predecessors descend *)

Lemma costs_positive_spec g u e :
  costs_positive g = true -> In e (getNeighbors u g) -> (0 < cost e)%Z.
Proof.
  unfold costs_positive, getNeighbors. intros Hall Hin.
  destruct (Obj.get u g) as [l|] eqn:Hu; [|destruct Hin].
  apply ObjFacts.get_In in Hu.
  rewrite forallb_forall in Hall. specialize (Hall _ Hu). simpl in Hall.
  rewrite forallb_forall in Hall. specialize (Hall _ Hin).
  now apply Z.ltb_lt.
Qed.

Lemma relax_descending n m dp e :
  (0 < cost e)%Z ->
  descending (fst dp) (snd dp) ->
  descending (fst (relax n m dp e)) (snd (relax n m dp e)).
Proof.
  intros Hc [Hpos Hdesc]. unfold relax.
  destruct (_ || _)%bool; [now split|].
  destruct (Obj.get m (fst dp)) as [[dm|]|] eqn:Hm; cbn [dist_add];
    try (now split).
  assert (Hdm : (0 <= dm)%Z) by now apply Hpos with m.
  destruct (dist_lt _ _) eqn:Hlt; cbn [fst snd]; [|now split].
  assert (Hself : m <> vertex e).
  { intros Heq. rewrite <- Heq, Hm in Hlt. simpl in Hlt.
    apply Z.ltb_lt in Hlt. lia. }
  split.
  - intros x d. rewrite ObjFacts.get_set.
    destruct (String.eqb x (vertex e)); [intros [= <-]; lia | apply Hpos].
  - intros x p. rewrite prev_of_set.
    destruct (String.eqb_spec x (vertex e)) as [->|Hx].
    + intros [= <-]. exists dm, (dm + cost e)%Z.
      rewrite ObjFacts.get_set_other by exact Hself.
      rewrite ObjFacts.get_set_same. repeat split; [exact Hm | lia].
    + intros Hp. destruct (Hdesc _ _ Hp) as (dp' & dx & Hgp & Hgx & Hlt').
      rewrite (ObjFacts.get_set_other _ _ Hx).
      destruct (String.eqb_spec p (vertex e)) as [->|Hpv].
      * exists (dm + cost e)%Z, dx. rewrite ObjFacts.get_set_same.
        repeat split; [exact Hgx|].
        rewrite Hgp in Hlt. simpl in Hlt. apply Z.ltb_lt in Hlt. lia.
      * exists dp', dx. rewrite (ObjFacts.get_set_other _ _ Hpv).
        now repeat split.
Qed.

Lemma dijkstra_descending n start :
  costs_positive (networkGraph n) = true ->
  descending (distances (dijkstra n start)) (previous (dijkstra n start)).
Proof.
  intros Hc. apply (dijkstra_keeps n descending).
  - intros m dp e Hin. apply relax_descending.
    now apply costs_positive_spec with (networkGraph n) m.
  - cbv zeta. split.
    + intros x d H. apply init_search_distances in H.
      destruct H as [H|[_ H]]; [discriminate|]. injection H as <-. lia.
    + intros x m. now rewrite init_search_previous.
Qed.

(** *** The walk back *)

(** More fuel does not change a walk that has ended. *)
Lemma reconstruct_more fuel k prev cur path p :
  reconstruct fuel prev cur path = Some p ->
  reconstruct (fuel + k) prev cur path = Some p.
Proof.
  revert cur path. induction fuel as [|fuel IH]; intros cur path; simpl;
    [discriminate|].
  destruct cur as [c|]; [|auto].
  destruct (truthy_node (Some c)); auto.
Qed.

(** A walk from a vertex without predecessor has that vertex alone, or
    nothing when its label is empty. *)
Lemma reconstruct_no_predecessor fuel prev x :
  prev_of prev x = None ->
  reconstruct (S (S fuel)) prev (Some x) [] =
  Some (if String.eqb x "" then [] else [x]).
Proof.
  intros Hp. simpl. rewrite Hp. now destruct (String.eqb x "").
Qed.

Lemma found_short l : (List.length l <= 1)%nat -> found l = None.
Proof.
  unfold found. intros H.
  destruct (1 <? List.length l)%nat eqn:E; [|reflexivity].
  apply Nat.ltb_lt in E. lia.
Qed.

(** In a finished walk every vertex but the first has a predecessor. *)
Lemma reconstruct_chain fuel prev cur path p :
  reconstruct fuel prev cur path = Some p ->
  exists chain,
    p = chain ++ path /\
    (truthy_node cur = false -> chain = []) /\
    forall x, In x (List.tl chain) -> exists q, prev_of prev x = Some q.
Proof.
  revert cur path. induction fuel as [|fuel IH]; intros cur path; simpl;
    [discriminate|].
  destruct cur as [c|].
  - destruct (truthy_node (Some c)) eqn:Hc.
    + intros H. destruct (IH _ _ H) as (chain & -> & Hnil & Htl).
      exists (chain ++ [c]). split; [now rewrite <- app_assoc|].
      split; [discriminate|].
      intros x Hx. destruct chain as [|h rest].
      * destruct Hx.
      * simpl in Hx. apply in_app_or in Hx. destruct Hx as [Hx|[<-|[]]].
        -- apply Htl. exact Hx.
        -- destruct (prev_of prev c) as [q|] eqn:Hq; [now exists q|].
           specialize (Hnil eq_refl). discriminate.
    + intros [= <-]. exists []. repeat split; simpl; tauto.
  - intros [= <-]. exists []. repeat split; simpl; tauto.
Qed.

(** Along descending predecessors the walk ends: its length is bounded
    by the distance of the vertex it starts from. *)
Lemma reconstruct_ends dist prev :
  descending dist prev ->
  forall bound c path,
    (forall d, Obj.get c dist = Some (Finite d) -> (d <= Z.of_nat bound)%Z) ->
    exists p, reconstruct (bound + 2) prev (Some c) path = Some p.
Proof.
  intros [Hpos Hdesc]. induction bound as [|bound IH]; intros c path Hb.
  - simpl. destruct (negb (String.eqb c "")); [|eauto].
    destruct (prev_of prev c) as [m|] eqn:Hp; [|eauto].
    destruct (Hdesc _ _ Hp) as (dm & dc & Hgm & Hgc & Hlt).
    specialize (Hb _ Hgc). specialize (Hpos _ _ Hgm). lia.
  - cbn [Nat.add reconstruct truthy_node].
    destruct (negb (String.eqb c "")); [|eauto].
    destruct (prev_of prev c) as [m|] eqn:Hp.
    + apply IH. intros d Hd.
      destruct (Hdesc _ _ Hp) as (dm & dc & Hgm & Hgc & Hlt).
      specialize (Hb _ Hgc). rewrite Hgm in Hd. injection Hd as <-. lia.
    + replace (bound + 2)%nat with (S (bound + 1)) by lia. simpl. eauto.
Qed.

Lemma reconstruct_cycle fuel path :
  let prev := [("a", Some "b"); ("b", Some "a")] in
  reconstruct fuel prev (Some "a") path = None /\
  reconstruct fuel prev (Some "b") path = None.
Proof.
  cbv zeta. revert path. induction fuel as [|fuel IH]; intros path.
  - now split.
  - split; simpl; apply IH.
Qed.

End SearchFacts.

(** ** Runs of commands, and walks with more fuel *)

Lemma built_run_all random cs w w' :
  built random w -> run_all random cs w = Done tt w' -> built random w'.
Proof.
  revert w. induction cs as [|c rest IH]; intros w Hb; simpl.
  - intros [= <-]. exact Hb.
  - unfold run_all in *. simpl. unfold bind at 1.
    destruct (run random c w) as [[] w1| |] eqn:E; try discriminate.
    intros Hrest. apply (IH w1); [|exact Hrest].
    now apply built_step with w c.
Qed.

Lemma findShortestPath_more fuel k n start end_ r :
  findShortestPath fuel n start end_ = Some r ->
  findShortestPath (fuel + k) n start end_ = Some r.
Proof.
  unfold findShortestPath.
  destruct (reconstruct fuel _ _ _) as [p|] eqn:E; [|discriminate].
  intros H. now rewrite (SearchFacts.reconstruct_more _ k _ _ _ E).
Qed.

Lemma triangle_built :
  run_all (fun _ => 0) triangle_commands (mkWorld (blank (Num 0) (Num 0)) 0)
  = Done tt (mkWorld triangle 6).
Proof. vm_compute. reflexivity. Qed.

Lemma pair_built :
  run_all pair_random pair_commands
          (mkWorld (blank (Num (1 # 5)) (Num (1 # 10))) 0)
  = Done tt (mkWorld pair 3).
Proof. vm_compute. reflexivity. Qed.

Lemma triangle_without_bc_built :
  run_all (fun _ => 0) (List.firstn 5 triangle_commands)
          (mkWorld (blank (Num 0) (Num 0)) 0)
  = Done tt (mkWorld triangle_without_bc 5).
Proof. vm_compute. reflexivity. Qed.

(** On a graph whose costs are all positive the walk back ends, so
    [findShortestPath] returns: some amount of fuel is enough, and more
    fuel gives the same result. *)
Lemma findShortestPath_returns n start end_ :
  GraphOps.costs_positive (networkGraph n) = true ->
  exists fuel r,
    forall k, findShortestPath (fuel + k) n start end_ = Some r.
Proof.
  intros Hc.
  assert (Hd := SearchFacts.dijkstra_descending n start Hc).
  set (bound :=
         match distance_to n start end_ with
         | Some (Finite d) => Z.to_nat d
         | _ => O
         end).
  destruct (SearchFacts.reconstruct_ends Hd bound end_ [])
    as [p Hp].
  { intros d Hget. unfold bound, distance_to. rewrite Hget.
    destruct Hd as [Hpos _]. specialize (Hpos _ _ Hget). lia. }
  exists (bound + 2)%nat, (found p). intros k.
  apply findShortestPath_more. unfold findShortestPath. now rewrite Hp.
Qed.

(** With a negative cost it need not: on [seesaw] the walk back from
    [a] never ends. *)
Lemma seesaw_never_returns fuel :
  findShortestPath fuel seesaw "a" "a" = None.
Proof.
  unfold findShortestPath.
  replace (previous (dijkstra seesaw "a"))
    with [("a", Some "b"); ("b", Some "a")] by (vm_compute; reflexivity).
  now rewrite (proj1 (SearchFacts.reconstruct_cycle fuel [])).
Qed.

(* ================================================================== *)
(** * Part III: the claims *)

(** C1 (the code does otherwise).  The claim wants the failure flag of an
    accepted edge stored under a key that does not depend on direction,
    so that a down edge is skipped from either endpoint.  The code stores
    the flag under [from-to] only: after [addEdgeWithFailure("a","b",1)]
    has drawn a failure, the flag read from [a] is [true], the flag read
    from [b] is missing, the search from [a] to [b] skips the link and
    finds no path, and the search from [b] to [a] crosses the down
    link. *)
Theorem C1_link_flag_keyed_by_insertion_direction :
  run_all pair_random pair_commands
          (mkWorld (blank (Num (1 # 5)) (Num (1 # 10))) 0)
  = Done tt (mkWorld pair 3) /\
  Obj.get (linkKey "a" "b") (linkFailures pair) = Some true /\
  Obj.get (linkKey "b" "a") (linkFailures pair) = None /\
  (forall k, findShortestPath (3 + k) pair "a" "b" = Some None) /\
  (forall k, findShortestPath (3 + k) pair "b" "a" = Some (Some ["b"; "a"])).
Proof.
  split; [exact pair_built|].
  split; [reflexivity|]. split; [reflexivity|].
  split; intros k; apply findShortestPath_more; vm_compute; reflexivity.
Qed.

(** C2.  On the three-vertex graph with a-b at 3, a-c at 2 and b-c at 4
    and no failure, the path from [a] to [c] is [a, c] at distance 2 and
    the path from [a] to [b] is [a, b] at distance 3; once the link a-c
    is down, the path from [a] to [c] is [a, b, c] at distance 7. *)
Theorem C2_triangle_paths :
  forall k,
    findShortestPath (4 + k) triangle "a" "c" = Some (Some ["a"; "c"]) /\
    distance_to triangle "a" "c" = Some (Finite 2) /\
    findShortestPath (4 + k) triangle "a" "b" = Some (Some ["a"; "b"]) /\
    distance_to triangle "a" "b" = Some (Finite 3) /\
    findShortestPath (4 + k) (set_link "a-c" true triangle) "a" "c"
    = Some (Some ["a"; "b"; "c"]) /\
    distance_to (set_link "a-c" true triangle) "a" "c" = Some (Finite 7).
Proof.
  intros k. repeat split;
    try (apply findShortestPath_more); vm_compute; reflexivity.
Qed.

(** C3, as the claim states it, fails.  [Graph.addEdge] has no duplicate
    check, so a second call appends a second entry on each side.  And
    where the check is made, in [addEdgeWithFailure], a vertex joined to
    itself lists itself twice, not once, when the second call is
    skipped. *)
Lemma C3_addEdge_appends_duplicate :
  (let g := GraphOps.addEdge "a" "b" 3
              (GraphOps.addVertex "b"
                 (GraphOps.addVertex "a" GraphOps.newGraph)) in
   let g' := GraphOps.addEdge "a" "b" 5 g in
   g' <> g /\
   GraphOps.entries "a" "b" g' = [mkEdge "b" 3; mkEdge "b" 5] /\
   GraphOps.entries "b" "a" g' = [mkEdge "a" 3; mkEdge "a" 5])
  /\
  (run_all (fun _ => 0) loop_commands (mkWorld (blank (Num 0) (Num 0)) 0)
   = Done tt (mkWorld loop 2) /\
   addEdgeWithFailure (fun _ => 0) "a" "a" 5 (mkWorld loop 2)
   = Done tt (mkWorld loop 2) /\
   GraphOps.entries "a" "a" (networkGraph loop)
   = [mkEdge "a" 1; mkEdge "a" 1]).
Proof.
  cbv zeta. split; [split; [|split; reflexivity] | repeat split].
  intros H. vm_compute in H. discriminate H.
Qed.

(** C3, amended: what a stored link goes through.  A command of the
    program never touches the two entries that join two different
    vertices once they are there, and a state in which two vertices are
    joined has the accepted insertion of that link in its history. *)
Module Links.

Section Kept.
Variable random : nat -> Q.
Variables (u v : string) (c1 : Z).
Hypothesis Hne : u <> v.

Let joined (g : Graph) : Prop :=
  GraphOps.entries u v g = [mkEdge v c1] /\
  GraphOps.entries v u g = [mkEdge u c1].

Lemma joined_lists g :
  joined g ->
  GraphOps.lists v (GraphOps.getNeighbors u g) = true /\
  GraphOps.lists u (GraphOps.getNeighbors v g) = true.
Proof.
  intros [Huv Hvu]. split.
  - destruct (GraphOps.lists v (GraphOps.getNeighbors u g)) eqn:E;
      [reflexivity|].
    apply GraphFacts.lists_false_entries in E. congruence.
  - destruct (GraphOps.lists u (GraphOps.getNeighbors v g)) eqn:E;
      [reflexivity|].
    apply GraphFacts.lists_false_entries in E. congruence.
Qed.

(** An accepted insertion joins a pair that was not joined, so it is
    the insertion of another pair and leaves the entries of this one. *)
Lemma joined_addEdge src des c g :
  Obj.has src g = true -> Obj.has des g = true ->
  GraphOps.lists des (GraphOps.getNeighbors src g) = false ->
  GraphOps.lists src (GraphOps.getNeighbors des g) = false ->
  joined g -> joined (GraphOps.addEdge src des c g).
Proof.
  intros Hs Hd Hl1 Hl2 Hj.
  destruct (joined_lists Hj) as [Luv Lvu].
  destruct Hj as [Huv Hvu].
  assert (Hno1 : (String.eqb u src && String.eqb des v)%bool = false).
  { destruct (String.eqb u src) eqn:E1; [|reflexivity].
    destruct (String.eqb des v) eqn:E2; [|reflexivity].
    apply String.eqb_eq in E1, E2. subst. congruence. }
  assert (Hno2 : (String.eqb u des && String.eqb src v)%bool = false).
  { destruct (String.eqb u des) eqn:E1; [|reflexivity].
    destruct (String.eqb src v) eqn:E2; [|reflexivity].
    apply String.eqb_eq in E1, E2. subst. congruence. }
  assert (Hno3 : (String.eqb v src && String.eqb des u)%bool = false).
  { rewrite Bool.andb_comm, (String.eqb_sym des u), (String.eqb_sym v src).
    exact Hno2. }
  assert (Hno4 : (String.eqb v des && String.eqb src u)%bool = false).
  { rewrite Bool.andb_comm, (String.eqb_sym src u), (String.eqb_sym v des).
    exact Hno1. }
  split; rewrite GraphFacts.entries_addEdge by assumption.
  - rewrite Hno1, Hno2, !app_nil_r. exact Huv.
  - rewrite Hno3, Hno4, !app_nil_r. exact Hvu.
Qed.

Lemma joined_run c :
  ensures (fun w => joined (networkGraph (net w))) (run random c)
          (fun w => joined (networkGraph (net w))).
Proof.
  destruct c as [r | f t c | | | | p q | ]; simpl.
  - intros w [] w' Hj Hrun.
    unfold initRouter, bind, modifyNet, mathRandom in Hrun. simpl in Hrun.
    injection Hrun as <-. simpl.
    unfold joined, GraphOps.entries in *.
    now rewrite !GraphFacts.getNeighbors_addVertex.
  - intros w a w' Hj Hrun. destruct a.
    apply SimFacts.addEdgeWithFailure_cases in Hrun.
    destruct Hrun as [[-> _] | (Hf & Ht & Hl1 & Hl2 & ->)]; [exact Hj|].
    simpl. now apply joined_addEdge.
  - apply (SimFacts.checkNodeFailures_graph random joined).
  - apply (SimFacts.checkLinkFailures_graph random joined).
  - apply (SimFacts.resetNetwork_graph joined).
  - apply (SimFacts.setProbabilities_graph joined).
  - apply (SimFacts.toggleButton_click_graph joined).
Qed.

Lemma joined_run_all cs :
  ensures (fun w => joined (networkGraph (net w))) (run_all random cs)
          (fun w => joined (networkGraph (net w))).
Proof. apply SimFacts.ensures_forEach. exact joined_run. Qed.

(** The accepted insertion stores the two entries. *)
Lemma first_insertion from to w0 w1 :
  (from = u /\ to = v) \/ (from = v /\ to = u) ->
  built random w0 ->
  GraphOps.lists to (GraphOps.getNeighbors from (networkGraph (net w0)))
  = false ->
  addEdgeWithFailure random from to c1 w0 = Done tt w1 ->
  joined (networkGraph (net w1)).
Proof.
  intros Hdir Hb Hfresh Hrun.
  assert (Hs := SimFacts.built_simple Hb).
  assert (Hft : from <> to) by (destruct Hdir as [[-> ->]|[-> ->]]; auto).
  apply SimFacts.addEdgeWithFailure_cases in Hrun.
  destruct Hrun as [[-> Hold] | (Hf & Ht & Hl1 & Hl2 & ->)].
  - rewrite Hfresh in Hold. simpl in Hold.
    destruct (GraphFacts.simple_single_entry Hs (not_eq_sym Hft) Hold)
      as (c & _ & Hback).
    apply GraphFacts.lists_false_entries in Hfresh. congruence.
  - simpl. apply GraphFacts.lists_false_entries in Hl1, Hl2.
    assert (Eft : String.eqb from to = false) by now apply String.eqb_neq.
    assert (Etf : String.eqb to from = false)
      by (rewrite String.eqb_sym; exact Eft).
    unfold joined. rewrite !GraphFacts.entries_addEdge by assumption.
    destruct Hdir as [[-> ->]|[-> ->]];
      rewrite Hl1, Hl2, !String.eqb_refl, ?Eft, ?Etf; simpl; now split.
Qed.

End Kept.

Lemma run_all_snoc random cs c w1 w w' :
  run_all random cs w1 = Done tt w ->
  run random c w = Done tt w' ->
  run_all random (cs ++ [c]) w1 = Done tt w'.
Proof.
  unfold run_all. revert w1.
  induction cs as [|c0 rest IH]; intros w1; simpl.
  - intros [= ->] Hrun. unfold bind. now rewrite Hrun.
  - unfold bind at 1. intros Hcs Hrun. unfold bind at 1.
    destruct (run random c0 w1) as [[] w2| |]; try discriminate.
    now apply IH.
Qed.

(** Two vertices are joined only by an accepted insertion of their
    link, in one of the two directions. *)
Lemma joined_history random w u v :
  built random w ->
  u <> v ->
  GraphOps.lists v (GraphOps.getNeighbors u (networkGraph (net w))) = true ->
  exists c1 w0 w1 cs from to,
    ((from = u /\ to = v) \/ (from = v /\ to = u)) /\
    built random w0 /\
    GraphOps.lists to (GraphOps.getNeighbors from (networkGraph (net w0)))
    = false /\
    GraphOps.lists from (GraphOps.getNeighbors to (networkGraph (net w0)))
    = false /\
    addEdgeWithFailure random from to c1 w0 = Done tt w1 /\
    run_all random cs w1 = Done tt w.
Proof.
  intros Hb Hne. induction Hb as [p q | w c w' Hb IH Hrun]; intros Hl.
  - discriminate Hl.
  - destruct (GraphOps.lists v
                (GraphOps.getNeighbors u (networkGraph (net w)))) eqn:Hold.
    + destruct (IH eq_refl)
        as (c1 & w0 & w1 & cs & from & to & Hdir & Hb0 & F1 & F2 & Hins & Hcs).
      exists c1, w0, w1, (cs ++ [c]), from, to.
      repeat (split; [assumption|]).
      now apply run_all_snoc with w.
    + pose (G := fun g : Graph =>
                   GraphOps.lists v (GraphOps.getNeighbors u g) = false).
      assert (Hframe : forall m : Sim unit,
                 ensures (fun w => G (networkGraph (net w))) m
                         (fun w => G (networkGraph (net w))) ->
                 m w = Done tt w' -> False).
      { intros m Hm Hmw. specialize (Hm w tt w' Hold Hmw).
        unfold G in Hm. congruence. }
      destruct c as [r | f t c | | | | p q | ]; simpl in Hrun.
      * exfalso.
        unfold initRouter, bind, modifyNet, mathRandom in Hrun.
        simpl in Hrun. injection Hrun as <-. simpl in Hl.
        rewrite GraphFacts.getNeighbors_addVertex in Hl. congruence.
      * assert (Hcases := SimFacts.addEdgeWithFailure_cases _ _ _ _ _ Hrun).
        destruct Hcases as [[-> _] | (Hf & Ht & Hl1 & Hl2 & Hw)];
          [congruence|].
        exists c, w, w', [], f, t.
        assert (Hdir : (f = u /\ t = v) \/ (f = v /\ t = u)).
        { rewrite Hw in Hl. simpl in Hl.
          destruct (GraphOps.lists v
                      (GraphOps.getNeighbors u
                         (GraphOps.addEdge f t c (networkGraph (net w)))))
            eqn:Hnew; [|discriminate].
          destruct (GraphOps.entries u v
                      (GraphOps.addEdge f t c (networkGraph (net w))))
            as [|e l] eqn:Hent.
          - apply GraphFacts.lists_false_entries in Hent. congruence.
          - rewrite GraphFacts.entries_addEdge in Hent by assumption.
            apply GraphFacts.lists_false_entries in Hold. rewrite Hold in Hent.
            simpl in Hent.
            destruct (String.eqb u f) eqn:E1, (String.eqb t v) eqn:E2;
              simpl in Hent;
              try (apply String.eqb_eq in E1; apply String.eqb_eq in E2;
                   left; split; congruence);
              destruct (String.eqb u t) eqn:E3, (String.eqb f v) eqn:E4;
              simpl in Hent; try discriminate;
              apply String.eqb_eq in E3; apply String.eqb_eq in E4;
              right; split; congruence. }
        repeat (split; [assumption|]). reflexivity.
      * exfalso. apply (Hframe _ (SimFacts.checkNodeFailures_graph random G)).
        exact Hrun.
      * exfalso. apply (Hframe _ (SimFacts.checkLinkFailures_graph random G)).
        exact Hrun.
      * exfalso. apply (Hframe _ (SimFacts.resetNetwork_graph G)). exact Hrun.
      * exfalso. apply (Hframe _ (SimFacts.setProbabilities_graph G p q)).
        exact Hrun.
      * exfalso. apply (Hframe _ (SimFacts.toggleButton_click_graph G)).
        exact Hrun.
Qed.

End Links.

(** C3, amended.  The duplicate check is the guard of
    [Network.addEdgeWithFailure].  In every state the program can
    reach, for two different vertices [u] and [v] that a link already
    connects (found from either side), [addEdgeWithFailure(u, v, c2)]
    and [addEdgeWithFailure(v, u, c2)] change nothing and draw no
    sample, [u] lists [v] exactly once and [v] lists [u] exactly once,
    and the one cost [c1] that both entries carry is the cost of the
    first insertion: the state has in its history a call
    [addEdgeWithFailure] on the two vertices, in one direction or the
    other, with cost [c1], made when neither listed the other.
    Conversely, whatever insertion of the link was accepted, with
    whatever cost [c1], and whatever commands ran since, the two entries
    are [(v, c1)] and [(u, c1)]. *)
Theorem C3_duplicate_link_is_skipped :
  forall random w u v c2,
    built random w ->
    u <> v ->
    let g := networkGraph (net w) in
    (GraphOps.lists v (GraphOps.getNeighbors u g)
     || GraphOps.lists u (GraphOps.getNeighbors v g))%bool = true ->
    (addEdgeWithFailure random u v c2 w = Done tt w /\
     addEdgeWithFailure random v u c2 w = Done tt w /\
     exists c1,
       GraphOps.entries u v g = [mkEdge v c1] /\
       GraphOps.entries v u g = [mkEdge u c1] /\
       exists w0 w1 cs from to,
         ((from = u /\ to = v) \/ (from = v /\ to = u)) /\
         built random w0 /\
         GraphOps.lists to
           (GraphOps.getNeighbors from (networkGraph (net w0))) = false /\
         GraphOps.lists from
           (GraphOps.getNeighbors to (networkGraph (net w0))) = false /\
         addEdgeWithFailure random from to c1 w0 = Done tt w1 /\
         run_all random cs w1 = Done tt w)
    /\
    (forall w0 w1 c1 cs from to,
       (from = u /\ to = v) \/ (from = v /\ to = u) ->
       built random w0 ->
       GraphOps.lists to
         (GraphOps.getNeighbors from (networkGraph (net w0))) = false ->
       addEdgeWithFailure random from to c1 w0 = Done tt w1 ->
       run_all random cs w1 = Done tt w ->
       GraphOps.entries u v g = [mkEdge v c1] /\
       GraphOps.entries v u g = [mkEdge u c1]).
Proof.
  intros random w u v c2 Hb Hne g Hconn.
  assert (Hs := SimFacts.built_simple Hb). fold g in Hs.
  assert (Huv : GraphOps.lists v (GraphOps.getNeighbors u g) = true).
  { destruct (GraphOps.lists v (GraphOps.getNeighbors u g)) eqn:E;
      [reflexivity|].
    simpl in Hconn.
    destruct (GraphFacts.simple_single_entry Hs (not_eq_sym Hne) Hconn)
      as (c & _ & Hvu).
    apply GraphFacts.lists_false_entries in E. congruence. }
  assert (Hkept : forall w0 w1 c1 cs from to,
             (from = u /\ to = v) \/ (from = v /\ to = u) ->
             built random w0 ->
             GraphOps.lists to
               (GraphOps.getNeighbors from (networkGraph (net w0))) = false ->
             addEdgeWithFailure random from to c1 w0 = Done tt w1 ->
             run_all random cs w1 = Done tt w ->
             GraphOps.entries u v g = [mkEdge v c1] /\
             GraphOps.entries v u g = [mkEdge u c1]).
  { intros w0 w1 c1 cs from to Hdir Hb0 Hfresh Hins Hcs.
    apply (@Links.joined_run_all random u v c1 Hne cs w1 tt w); [|exact Hcs].
    exact (@Links.first_insertion random u v c1 Hne from to w0 w1
             Hdir Hb0 Hfresh Hins). }
  destruct (Links.joined_history Hb Hne Huv)
    as (c1 & w0 & w1 & cs & from & to & Hdir & Hb0 & F1 & F2 & Hins & Hcs).
  destruct (Hkept w0 w1 c1 cs from to Hdir Hb0 F1 Hins Hcs) as [Euv Evu].
  assert (Hvu : GraphOps.lists u (GraphOps.getNeighbors v g) = true).
  { destruct (GraphOps.lists u (GraphOps.getNeighbors v g)) eqn:E;
      [reflexivity|].
    apply GraphFacts.lists_false_entries in E. congruence. }
  assert (Hskip : forall x y,
             GraphOps.lists y (GraphOps.getNeighbors x g) = true ->
             addEdgeWithFailure random x y c2 w = Done tt w).
  { intros x y Hxy. unfold addEdgeWithFailure, bind, getNet.
    unfold GraphOps.getNeighbors in Hxy. fold g.
    destruct (Obj.get x g) as [l|]; [|discriminate].
    now rewrite Hxy. }
  split; [|exact Hkept].
  split; [now apply Hskip|]. split; [now apply Hskip|].
  exists c1. split; [exact Euv|]. split; [exact Evu|].
  exists w0, w1, cs, from, to. repeat (split; [assumption|]). exact Hcs.
Qed.

Lemma C3_duplicate_link_is_skipped_witness :
  let w := mkWorld (with_nodeFailures (Obj.map_values (fun _ => false)
                                         (nodeFailures triangle))
                      (with_linkFailures (Obj.map_values (fun _ => false)
                                            (linkFailures triangle))
                         triangle)) 6 in
  (addEdgeWithFailure (fun _ => 0) "b" "c" 9 w = Done tt w /\
   addEdgeWithFailure (fun _ => 0) "c" "b" 9 w = Done tt w)
  /\
  GraphOps.entries "b" "c" (networkGraph (net w)) = [mkEdge "c" 4] /\
  GraphOps.entries "c" "b" (networkGraph (net w)) = [mkEdge "b" 4].
Proof.
  assert (Hbuilt : forall cs w,
            run_all (fun _ => 0) cs (mkWorld (blank (Num 0) (Num 0)) 0)
            = Done tt w -> built (fun _ => 0) w).
  { intros cs w. apply built_run_all, built_blank. }
  pose (w := mkWorld (with_nodeFailures (Obj.map_values (fun _ => false)
                                          (nodeFailures triangle))
                        (with_linkFailures (Obj.map_values (fun _ => false)
                                              (linkFailures triangle))
                           triangle)) 6).
  assert (Hlater : run_all (fun _ => 0) [CResetNetwork; CToggle; CToggle]
                     (mkWorld triangle 6) = Done tt w) by reflexivity.
  destruct (@C3_duplicate_link_is_skipped
              (fun _ => 0) w "b" "c" 9
              (@built_run_all _ _ _ _ (Hbuilt _ _ triangle_built) Hlater)
              ltac:(discriminate) eq_refl) as [Hskip Hfirst].
  split; [split; [exact (proj1 Hskip) | exact (proj1 (proj2 Hskip))]|].
  apply (Hfirst (mkWorld triangle_without_bc 5) (mkWorld triangle 6) 4%Z
                [CResetNetwork; CToggle; CToggle] "b" "c").
  - left. now split.
  - exact (Hbuilt _ _ triangle_without_bc_built).
  - reflexivity.
  - reflexivity.
  - exact Hlater.
Defined.




(** C5.  Whatever the topology and the other flags, when the failure
    flag of the sink is set, [findShortestPath(source, sink)] returns
    [null]: the walk back ends after the sink itself, which no
    relaxation ever gave a predecessor. *)
Theorem C5_sink_down_no_path :
  forall n source sink fuel,
    node_down n sink ->
    (2 <= fuel)%nat ->
    findShortestPath fuel n source sink = Some None.
Proof.
  intros n source sink fuel Hdown Hfuel. unfold findShortestPath.
  destruct fuel as [|[|fuel]]; try lia.
  rewrite SearchFacts.reconstruct_no_predecessor
    by now apply SearchFacts.dijkstra_down.
  simpl. f_equal. apply SearchFacts.found_short.
  destruct (String.eqb sink ""); simpl; lia.
Qed.

Lemma C5_sink_down_no_path_witness :
  findShortestPath 2 (set_node "c" true triangle) "a" "c" = Some None.
Proof.
  apply (@C5_sink_down_no_path (set_node "c" true triangle) "a" "c" 2).
  - reflexivity.
  - lia.
Defined.

(** What the search does guarantee about vertices that are down: in a
    returned path every vertex after the first is up. *)
Lemma returned_path_tail_up n fuel start end_ p :
  findShortestPath fuel n start end_ = Some (Some p) ->
  forall v, In v (List.tl p) -> node_up n v.
Proof.
  unfold findShortestPath.
  destruct (reconstruct fuel _ _ _) as [path|] eqn:E; [|discriminate].
  simpl. unfold found. destruct (1 <? List.length path)%nat; [|discriminate].
  intros [= <-] v Hv.
  destruct (SearchFacts.reconstruct_chain _ _ _ _ E) as (chain & -> & _ & H).
  rewrite app_nil_r in Hv. destruct (H v Hv) as [q Hq].
  now apply SearchFacts.dijkstra_up with start q.
Qed.

(** C6 (the code does otherwise).  The claim wants a vertex that is down
    to appear in no returned path, also when it is the start.  The code
    tests the flag of a neighbour before relaxing it and never the flag
    of the start: in the triangle with [a] down, the search from [a] to
    [c] returns [a, c], headed by the vertex that is down.  (A search
    that ends in a down vertex returns [null], and every vertex after
    the first of a returned path is up.) *)
Theorem C6_down_start_heads_the_path :
  let n := set_node "a" true triangle in
  node_down n "a" /\
  (forall k, findShortestPath (3 + k) n "a" "c" = Some (Some ["a"; "c"])) /\
  (forall k, findShortestPath (3 + k) n "c" "a" = Some None).
Proof.
  cbv zeta. split; [reflexivity|].
  split; intros k; apply findShortestPath_more; vm_compute; reflexivity.
Qed.

(** C10.  As long as no cost is negative, [findShortestPath(s, s)]
    returns [null] for every [s], whatever the failure flags: the start
    keeps distance 0 and never gets a predecessor, so the walk back
    yields the one-element sequence [s] (nothing at all for the empty
    label), which the final test turns into [null]. *)
Theorem C10_same_endpoints_no_path :
  forall n s fuel,
    GraphOps.costs_nonneg (networkGraph n) = true ->
    (2 <= fuel)%nat ->
    reconstruct fuel (previous (dijkstra n s)) (Some s) []
    = Some (if String.eqb s "" then [] else [s]) /\
    findShortestPath fuel n s s = Some None.
Proof.
  intros n s fuel Hc Hfuel.
  destruct (SearchFacts.dijkstra_start_fixed n s Hc) as (_ & Hp & _).
  destruct fuel as [|[|fuel]]; try lia.
  assert (E := SearchFacts.reconstruct_no_predecessor fuel _ _ Hp).
  split; [exact E|].
  unfold findShortestPath. rewrite E. simpl. f_equal.
  apply SearchFacts.found_short. destruct (String.eqb s ""); simpl; lia.
Qed.

Lemma C10_same_endpoints_no_path_witness :
  reconstruct 2 (previous (dijkstra triangle "a")) (Some "a") [] = Some ["a"]
  /\ findShortestPath 2 triangle "a" "a" = Some None.
Proof.
  apply (@C10_same_endpoints_no_path triangle "a" 2).
  - reflexivity.
  - lia.
Defined.

(** ** Resampling at probability zero *)

Lemma js_lt_zero r p : 0 <= r -> is_zero p -> js_lt r p = false.
Proof.
  destruct p as [q| | |]; simpl; try tauto.
  intros Hr Hq. apply negb_false_iff, Qle_bool_iff.
  rewrite Hq. exact Hr.
Qed.

Section ZeroProbability.
Variable random : nat -> Q.
Hypothesis random_nonneg : forall i, 0 <= random i.

Lemma forEach_checkNode_zero l w :
  is_zero (nodeFailureProbability (net w)) ->
  forEach (checkNode random) l w
  = Done tt (mkWorld (net w) (drawn w + List.length l)).
Proof.
  revert w. induction l as [|node rest IH]; intros w Hz; simpl.
  - unfold ret. rewrite Nat.add_0_r. now destruct w.
  - unfold bind at 1. unfold checkNode, bind, mathRandom, getNet. simpl.
    rewrite js_lt_zero by auto. unfold ret. rewrite IH by exact Hz.
    simpl. now rewrite Nat.add_succ_r.
Qed.

Lemma forEach_checkLink_zero l w :
  is_zero (linkFailureProbability (net w)) ->
  forEach (checkLink random) l w
  = Done tt (mkWorld (net w) (drawn w + List.length l)).
Proof.
  revert w. induction l as [|link rest IH]; intros w Hz; simpl.
  - unfold ret. rewrite Nat.add_0_r. now destruct w.
  - unfold bind at 1. unfold checkLink, bind, mathRandom, getNet. simpl.
    rewrite js_lt_zero by auto. unfold ret. rewrite IH by exact Hz.
    simpl. now rewrite Nat.add_succ_r.
Qed.

Lemma resample_zero w :
  is_zero (nodeFailureProbability (net w)) ->
  is_zero (linkFailureProbability (net w)) ->
  exists d, resample random w = Done tt (mkWorld (net w) d).
Proof.
  intros Hn Hl. unfold resample, checkNodeFailures, checkLinkFailures.
  unfold bind at 1. unfold bind at 1. unfold getNet at 1.
  rewrite forEach_checkNode_zero by exact Hn.
  unfold bind, getNet. simpl.
  rewrite forEach_checkLink_zero by exact Hl. simpl. eauto.
Qed.

Lemma repeat_resample_zero ticks w :
  is_zero (nodeFailureProbability (net w)) ->
  is_zero (linkFailureProbability (net w)) ->
  exists d, repeat_sim ticks (resample random) w
            = Done tt (mkWorld (net w) d).
Proof.
  revert w. induction ticks as [|ticks IH]; intros w Hn Hl; simpl.
  - exists (drawn w). now destruct w.
  - unfold bind. destruct (resample_zero w Hn Hl) as [d ->].
    apply (IH (mkWorld (net w) d)); assumption.
Qed.

(** A whole tick, path search included, either leaves the network as it
    was or is still walking back when its fuel ends. *)
Lemma tick_zero fuel w :
  is_zero (nodeFailureProbability (net w)) ->
  is_zero (linkFailureProbability (net w)) ->
  tick random fuel w = OutOfFuel \/
  exists path d, tick random fuel w = Done path (mkWorld (net w) d).
Proof.
  intros Hn Hl. cbv [tick bind getNet].
  destruct (isPaused (net w)).
  - right. exists None, (drawn w). unfold ret. now destruct w.
  - destruct (resample_zero w Hn Hl) as [d ->].
    unfold shortestPath. cbn [net].
    destruct (findShortestPath _ _ _ _) as [r|]; [right; eauto | now left].
Qed.

End ZeroProbability.

(** C7.  With both failure probabilities zero, whatever values
    [Math.random()] returns (they are never negative) and however many
    ticks pass, [checkNodeFailures] and [checkLinkFailures] end and
    leave every vertex flag and every link flag as it was. *)
Theorem C7_zero_probability_no_toggle :
  forall random ticks w,
    (forall i, 0 <= random i) ->
    is_zero (nodeFailureProbability (net w)) ->
    is_zero (linkFailureProbability (net w)) ->
    (exists w1, checkNodeFailures random w = Done tt w1 /\ net w1 = net w) /\
    (exists w2, checkLinkFailures random w = Done tt w2 /\ net w2 = net w) /\
    exists w',
      repeat_sim ticks (resample random) w = Done tt w' /\
      nodeFailures (net w') = nodeFailures (net w) /\
      linkFailures (net w') = linkFailures (net w).
Proof.
  intros random ticks w Hr Hn Hl. split; [|split].
  - unfold checkNodeFailures, bind, getNet.
    rewrite forEach_checkNode_zero by assumption. eauto.
  - unfold checkLinkFailures, bind, getNet.
    rewrite forEach_checkLink_zero by assumption. eauto.
  - destruct (@repeat_resample_zero random Hr ticks w Hn Hl) as [d ->].
    eexists. split; [reflexivity|]. now split.
Qed.

Lemma C7_zero_probability_no_toggle_witness :
  exists w',
    repeat_sim 3 (resample (fun _ => 0)) (mkWorld triangle 6) = Done tt w' /\
    nodeFailures (net w') = nodeFailures triangle /\
    linkFailures (net w') = linkFailures triangle.
Proof.
  refine (proj2 (proj2 (@C7_zero_probability_no_toggle
                          (fun _ => 0) 3 (mkWorld triangle 6) _ _ _))).
  - intros i. apply Qle_refl.
  - simpl. reflexivity.
  - simpl. reflexivity.
Defined.

(** C8.  [resetNetwork] ends, turns every vertex flag and every link flag
    into [false] (the keys stay as they are), takes no sample, and
    leaves the two probabilities, the graph and the pause state as they
    were. *)
Theorem C8_reset_clears_flags_only :
  forall w,
    exists w',
      resetNetwork w = Done tt w' /\
      (forall v, Obj.get v (nodeFailures (net w'))
                 = option_map (fun _ => false)
                              (Obj.get v (nodeFailures (net w)))) /\
      (forall k, Obj.get k (linkFailures (net w'))
                 = option_map (fun _ => false)
                              (Obj.get k (linkFailures (net w)))) /\
      Obj.keys (nodeFailures (net w')) = Obj.keys (nodeFailures (net w)) /\
      Obj.keys (linkFailures (net w')) = Obj.keys (linkFailures (net w)) /\
      drawn w' = drawn w /\
      nodeFailureProbability (net w') = nodeFailureProbability (net w) /\
      linkFailureProbability (net w') = linkFailureProbability (net w) /\
      networkGraph (net w') = networkGraph (net w) /\
      isPaused (net w') = isPaused (net w).
Proof.
  intros w. eexists. split; [reflexivity|]. simpl.
  repeat split;
    auto using ObjFacts.get_map_values, ObjFacts.keys_map_values.
Qed.

(** ** The probability fields *)

Lemma in_unit_interval_test x :
  (js_ge0 x && js_le1 x)%bool = true <-> in_unit_interval x.
Proof.
  destruct x as [q| | |]; simpl; try (split; [discriminate | tauto]).
  rewrite andb_true_iff, !Qle_bool_iff. tauto.
Qed.

(** C9.  [setProbabilities(nodeP, linkP)] with a value outside [0, 1]
    (not-a-number and the infinities included) changes nothing at all;
    with both values inside [0, 1] it stores them as the two
    probabilities and leaves every failure flag, the graph and the
    sample count as they were. *)
Theorem C9_setProbabilities_validates :
  forall nodeP linkP w,
    (~ (in_unit_interval nodeP /\ in_unit_interval linkP) ->
     setProbabilities nodeP linkP w = Done tt w) /\
    (in_unit_interval nodeP -> in_unit_interval linkP ->
     exists w',
       setProbabilities nodeP linkP w = Done tt w' /\
       nodeFailureProbability (net w') = nodeP /\
       linkFailureProbability (net w') = linkP /\
       nodeFailures (net w') = nodeFailures (net w) /\
       linkFailures (net w') = linkFailures (net w) /\
       networkGraph (net w') = networkGraph (net w) /\
       drawn w' = drawn w).
Proof.
  intros nodeP linkP w. unfold setProbabilities.
  rewrite <- (andb_assoc (js_ge0 nodeP && js_le1 nodeP)).
  destruct (js_ge0 nodeP && js_le1 nodeP)%bool eqn:En;
    destruct (js_ge0 linkP && js_le1 linkP)%bool eqn:El; simpl.
  - apply in_unit_interval_test in En, El. split; [tauto|].
    intros _ _. eexists. split; [reflexivity|]. simpl. repeat split.
  - split; [reflexivity|].
    intros _ Hl. apply in_unit_interval_test in Hl. congruence.
  - split; [reflexivity|].
    intros Hn _. apply in_unit_interval_test in Hn. congruence.
  - split; [reflexivity|].
    intros Hn _. apply in_unit_interval_test in Hn. congruence.
Qed.

Lemma C9_setProbabilities_validates_witness :
  setProbabilities NaN (Num (1 # 2)) (mkWorld triangle 6)
  = Done tt (mkWorld triangle 6) /\
  exists w',
    setProbabilities (Num (1 # 4)) (Num 1) (mkWorld triangle 6)
    = Done tt w' /\
    nodeFailureProbability (net w') = Num (1 # 4) /\
    linkFailureProbability (net w') = Num 1 /\
    nodeFailures (net w') = nodeFailures triangle /\
    linkFailures (net w') = linkFailures triangle /\
    networkGraph (net w') = networkGraph triangle /\
    drawn w' = 6%nat.
Proof.
  split.
  - apply (proj1 (C9_setProbabilities_validates
                    NaN (Num (1 # 2)) (mkWorld triangle 6))).
    simpl. tauto.
  - apply (proj2 (C9_setProbabilities_validates
                    (Num (1 # 4)) (Num 1) (mkWorld triangle 6))).
    + simpl. split; discriminate.
    + simpl. split; discriminate.
Defined.

(* ================================================================== *)
(** * Part IV: further properties of the code *)

(** ** More on objects *)

Module ObjMore.

Section WithValues.
Variable V : Type.
Implicit Types (o : Obj.t V) (k : string) (v : V).

Lemma get_remove k k' o :
  Obj.get k (Obj.remove k' o) =
  if String.eqb k k' then None else Obj.get k o.
Proof.
  induction o as [|[k0 v0] rest IH]; simpl.
  - now destruct (String.eqb k k').
  - destruct (String.eqb_spec k' k0) as [->|Hne]; simpl.
    + rewrite IH. now destruct (String.eqb k k0).
    + rewrite IH. destruct (String.eqb_spec k k') as [->|Hk].
      * apply String.eqb_neq in Hne. now rewrite Hne.
      * reflexivity.
Qed.


(** Writing back what a property holds changes nothing. *)
Lemma set_get_same k v o : Obj.get k o = Some v -> Obj.set k v o = o.
Proof.
  induction o as [|[k0 v0] rest IH]; simpl; [discriminate|].
  destruct (String.eqb_spec k k0) as [->|Hne].
  - now intros [= ->].
  - intros H. now rewrite IH.
Qed.

Lemma set_set_same k v v' o :
  Obj.set k v' (Obj.set k v o) = Obj.set k v' o.
Proof.
  induction o as [|[k0 v0] rest IH]; simpl.
  - now rewrite String.eqb_refl.
  - destruct (String.eqb k k0) eqn:E; simpl; rewrite E; [reflexivity|].
    now rewrite IH.
Qed.

(** Writes to two different properties that exist commute. *)
Lemma set_set_other k k' v v' o :
  k <> k' -> Obj.has k o = true -> Obj.has k' o = true ->
  Obj.set k v (Obj.set k' v' o) = Obj.set k' v' (Obj.set k v o).
Proof.
  intros Hne. unfold Obj.has.
  induction o as [|[k0 v0] rest IH]; simpl; [discriminate|].
  destruct (String.eqb_spec k k0) as [->|Hk];
    destruct (String.eqb_spec k' k0) as [->|Hk']; simpl;
    rewrite ?String.eqb_refl; try congruence.
  - intros _ _. apply String.eqb_neq in Hk'. now rewrite Hk'.
  - intros _ _. apply String.eqb_neq in Hk. now rewrite Hk.
  - apply String.eqb_neq in Hk, Hk'. rewrite Hk, Hk'.
    intros H1 H2. now rewrite IH.
Qed.

Lemma set_keeps_NoDup k v o :
  NoDup (Obj.keys o) -> NoDup (Obj.keys (Obj.set k v o)).
Proof.
  intros Hnd. destruct (Obj.has k o) eqn:Hk.
  - now rewrite ObjFacts.keys_set_present.
  - rewrite ObjFacts.keys_set_absent by exact Hk.
    apply NoDup_app; [exact Hnd | repeat constructor; intros [] |].
    intros x Hx [<-|[]]. apply ObjFacts.has_In_keys in Hx. congruence.
Qed.

End WithValues.

End ObjMore.

(** ** More on the graph store *)

Module GraphMore.
Import GraphOps.

Lemma filter_not_to_id v l :
  lists v l = false -> List.filter (not_to v) l = l.
Proof.
  unfold lists, not_to. induction l as [|e rest IH]; simpl; [reflexivity|].
  destruct (String.eqb (vertex e) v); simpl; [discriminate|].
  intros H. now rewrite IH.
Qed.

Lemma filter_not_to_self v c rest :
  List.filter (not_to v) (mkEdge v c :: rest) = List.filter (not_to v) rest.
Proof. simpl. unfold not_to at 1. simpl. now rewrite String.eqb_refl. Qed.

Lemma filter_not_to_twice v l :
  List.filter (not_to v) (List.filter (not_to v) l) = List.filter (not_to v) l.
Proof.
  induction l as [|e rest IH]; simpl; [reflexivity|].
  destruct (not_to v e) eqn:E; simpl; rewrite ?E, IH; reflexivity.
Qed.



Lemma getNeighbors_set u k l g :
  getNeighbors u (Obj.set k l g)
  = if String.eqb u k then l else getNeighbors u g.
Proof.
  unfold getNeighbors. rewrite ObjFacts.get_set.
  now destruct (String.eqb u k).
Qed.

Lemma set_getNeighbors k g :
  Obj.has k g = true -> Obj.set k (getNeighbors k g) g = g.
Proof.
  unfold Obj.has, getNeighbors. destruct (Obj.get k g) eqn:E; [|discriminate].
  intros _. now apply ObjMore.set_get_same.
Qed.

(** After [removeEdge] each adjacency list. *)
Lemma getNeighbors_removeEdge u src des g :
  Obj.has src g = true -> Obj.has des g = true ->
  getNeighbors u (removeEdge src des g) =
  if String.eqb u src
  then (if String.eqb u des
        then List.filter (not_to src) (getNeighbors u g)
        else List.filter (not_to des) (getNeighbors u g))
  else if String.eqb u des
       then List.filter (not_to src) (getNeighbors u g)
       else getNeighbors u g.
Proof.
  intros Hs Hd. unfold removeEdge. rewrite Hs, Hd. cbn [andb].
  cbv zeta. rewrite !getNeighbors_set.
  destruct (String.eqb_spec u src) as [Hus|Hus];
    destruct (String.eqb_spec u des) as [Hud|Hud]; subst;
    rewrite ?String.eqb_refl; try reflexivity.
  - apply filter_not_to_twice.
  - apply String.eqb_neq in Hus. now rewrite Hus.
Qed.

Lemma keys_removeEdge src des g :
  Obj.keys (removeEdge src des g) = Obj.keys g.
Proof.
  unfold removeEdge. destruct (Obj.has src g) eqn:Hs; [|reflexivity].
  destruct (Obj.has des g) eqn:Hd; [|reflexivity]. cbn [andb]. cbv zeta.
  rewrite ObjFacts.keys_set_present.
  - now apply ObjFacts.keys_set_present.
  - rewrite ObjFacts.has_set, Hd. apply orb_true_r.
Qed.

Lemma getNeighbors_removeVertex u v g :
  Obj.has v g = true ->
  getNeighbors u (removeVertex v g) =
  if String.eqb u v then [] else List.filter (not_to v) (getNeighbors u g).
Proof.
  intros Hv. unfold removeVertex, getNeighbors. rewrite Hv.
  rewrite ObjMore.get_remove, ObjFacts.get_map_values.
  destruct (String.eqb u v); [reflexivity|].
  now destruct (Obj.get u g).
Qed.

Lemma has_removeVertex u v g :
  Obj.has v g = true ->
  Obj.has u (removeVertex v g) = (negb (String.eqb u v) && Obj.has u g)%bool.
Proof.
  intros Hv. unfold removeVertex. rewrite Hv. unfold Obj.has.
  rewrite ObjMore.get_remove, ObjFacts.get_map_values.
  destruct (String.eqb u v); [reflexivity|].
  now destruct (Obj.get u g).
Qed.

(** [removeEdge] takes back what an accepted [addEdge] put in. *)
Lemma removeEdge_addEdge u v c g :
  Obj.has u g = true -> Obj.has v g = true ->
  lists v (getNeighbors u g) = false ->
  lists u (getNeighbors v g) = false ->
  removeEdge u v (addEdge u v c g) = g.
Proof.
  intros Hu Hv Huv Hvu.
  assert (Hu' : Obj.has u (addEdge u v c g) = true)
    by now rewrite GraphFacts.has_addEdge.
  assert (Hv' : Obj.has v (addEdge u v c g) = true)
    by now rewrite GraphFacts.has_addEdge.
  unfold removeEdge. rewrite Hu', Hv'. cbn [andb]. cbv zeta.
  rewrite getNeighbors_set.
  rewrite !GraphFacts.getNeighbors_addEdge by assumption.
  rewrite !String.eqb_refl.
  unfold addEdge. rewrite Hu, Hv. cbn [andb]. unfold push.
  unfold Obj.has in Hu. destruct (Obj.get u g) as [lu|] eqn:Eu; [|discriminate].
  assert (Egu : getNeighbors u g = lu) by (unfold getNeighbors; now rewrite Eu).
  rewrite ObjFacts.get_set.
  destruct (String.eqb_spec v u) as [->|Hne].
  - (* a self-loop: both entries went to the one list *)
    rewrite String.eqb_refl. rewrite Egu in *.
    rewrite !ObjMore.set_set_same.
    rewrite filter_not_to_twice, filter_app. cbn [app].
    rewrite !filter_not_to_self. simpl. rewrite app_nil_r.
    rewrite filter_not_to_id by exact Huv.
    now apply ObjMore.set_get_same.
  - unfold Obj.has in Hv.
    destruct (Obj.get v g) as [lv|] eqn:Ev; [|discriminate].
    assert (Egv : getNeighbors v g = lv)
      by (unfold getNeighbors; now rewrite Ev).
    rewrite Egu, Egv in *.
    assert (Huv' : String.eqb u v = false)
      by (apply String.eqb_neq; congruence).
    rewrite Huv'. simpl.
    rewrite !filter_app, !filter_not_to_self. simpl. rewrite !app_nil_r.
    rewrite (filter_not_to_id v lu Huv), (filter_not_to_id u lv Hvu).
    rewrite (@ObjMore.set_set_other _ u v lu (lv ++ [mkEdge u c]));
      [| congruence
       | rewrite ObjFacts.has_set, String.eqb_refl; reflexivity
       | rewrite ObjFacts.has_set; unfold Obj.has; rewrite Ev;
         apply orb_true_r].
    rewrite !ObjMore.set_set_same.
    rewrite (ObjMore.set_get_same _ _ Eu).
    now apply ObjMore.set_get_same.
Qed.

End GraphMore.

Module GraphShape.
Import GraphOps.

Lemma filter_filter_length {A} (P Q : A -> bool) l :
  (List.length (List.filter Q (List.filter P l))
   <= List.length (List.filter Q l))%nat.
Proof.
  induction l as [|x rest IH]; simpl; [lia|].
  destruct (P x), (Q x) eqn:E; simpl; rewrite ?E; simpl; lia.
Qed.

Lemma simple_removeVertex v g : simple g -> simple (removeVertex v g).
Proof.
  intros Hs. destruct (Obj.has v g) eqn:Hv;
    [|unfold removeVertex; now rewrite Hv].
  destruct Hs as [H1 H2 H3]. split.
  - intros u w Hne. unfold entries.
    rewrite GraphMore.getNeighbors_removeVertex by exact Hv.
    destruct (String.eqb u v); simpl; [lia|].
    etransitivity; [apply filter_filter_length | now apply H1].
  - intros u w c. rewrite !GraphMore.getNeighbors_removeVertex by exact Hv.
    destruct (String.eqb_spec u v) as [->|Hu]; [intros []|].
    rewrite filter_In. intros [Hin Hw]. unfold not_to in Hw. simpl in Hw.
    apply negb_true_iff in Hw. rewrite Hw.
    apply filter_In. split; [now apply H2|].
    unfold not_to. simpl. apply String.eqb_neq in Hu. now rewrite Hu.
  - intros u e. rewrite GraphMore.getNeighbors_removeVertex by exact Hv.
    rewrite GraphMore.has_removeVertex by exact Hv.
    destruct (String.eqb u v); [intros []|].
    rewrite filter_In. intros [Hin He]. unfold not_to in He.
    rewrite He. simpl. now apply H3 with u.
Qed.

Lemma simple_removeEdge src des g : simple g -> simple (removeEdge src des g).
Proof.
  intros Hs. destruct (Obj.has src g) eqn:Hsrc;
    [|unfold removeEdge; now rewrite Hsrc].
  destruct (Obj.has des g) eqn:Hdes;
    [|unfold removeEdge; rewrite Hsrc, Hdes; exact Hs].
  assert (Hsub : forall u e, In e (getNeighbors u (removeEdge src des g)) ->
                   In e (getNeighbors u g)).
  { intros u e. rewrite GraphMore.getNeighbors_removeEdge by assumption.
    destruct (String.eqb u src), (String.eqb u des);
      rewrite ?filter_In; tauto. }
  destruct Hs as [H1 H2 H3]. split.
  - intros u w Hne. unfold entries.
    rewrite GraphMore.getNeighbors_removeEdge by assumption.
    specialize (H1 u w Hne). unfold entries in H1.
    destruct (String.eqb u src), (String.eqb u des); try exact H1;
      (etransitivity; [apply filter_filter_length | exact H1]).
  - intros u w c Hin. assert (Hin' := H2 _ _ _ (Hsub _ _ Hin)).
    revert Hin. rewrite !GraphMore.getNeighbors_removeEdge by assumption.
    unfold not_to.
    destruct (String.eqb_spec u src) as [Hus|Hus];
      destruct (String.eqb_spec u des) as [Hud|Hud];
      destruct (String.eqb_spec w src) as [Hws|Hws];
      destruct (String.eqb_spec w des) as [Hwd|Hwd];
      subst; rewrite ?filter_In; simpl;
      rewrite ?String.eqb_refl; simpl;
      try tauto; try (intros [_ Hf]; discriminate Hf);
      intros Hin; (split; [exact Hin'|]);
      apply negb_true_iff, String.eqb_neq; congruence.
  - intros u e Hin.
    assert (Hk : forall x, Obj.has x (removeEdge src des g) = Obj.has x g).
    { intros x. apply eq_true_iff_eq.
      rewrite !ObjFacts.has_In_keys, GraphMore.keys_removeEdge. tauto. }
    rewrite Hk. apply H3 with u. now apply Hsub.
Qed.

End GraphShape.









(** X5.  [removeEdge] undoes [addEdge]: when two present vertices (or
    one vertex, for a self-loop) are not linked yet, adding the link and
    removing it again gives back the very same graph. *)
Theorem X5_removeEdge_undoes_addEdge :
  forall u v c g,
    Obj.has u g = true -> Obj.has v g = true ->
    GraphOps.lists v (GraphOps.getNeighbors u g) = false ->
    GraphOps.lists u (GraphOps.getNeighbors v g) = false ->
    GraphOps.removeEdge u v (GraphOps.addEdge u v c g) = g.
Proof. exact GraphMore.removeEdge_addEdge. Qed.

Lemma X5_removeEdge_undoes_addEdge_witness :
  GraphOps.removeEdge "b" "c" (GraphOps.addEdge "b" "c" 4
                                 (networkGraph triangle_without_bc))
  = networkGraph triangle_without_bc.
Proof.
  apply X5_removeEdge_undoes_addEdge; reflexivity.
Defined.

(** X6.  The shape of the graph (at most one entry each way between two
    different vertices, the same cost both ways, entries naming present
    vertices only) is kept by [addVertex], by [removeVertex], by
    [removeEdge], and by [addEdge] between two present vertices that are
    not linked yet. *)
Theorem X6_mutators_keep_graph_simple :
  forall g u v c,
    simple g ->
    simple (GraphOps.addVertex v g) /\
    simple (GraphOps.removeVertex v g) /\
    simple (GraphOps.removeEdge u v g) /\
    (Obj.has u g = true -> Obj.has v g = true ->
     GraphOps.lists v (GraphOps.getNeighbors u g) = false ->
     GraphOps.lists u (GraphOps.getNeighbors v g) = false ->
     simple (GraphOps.addEdge u v c g)).
Proof.
  intros g u v c Hs. split; [|split; [|split]].
  - now apply GraphFacts.simple_addVertex.
  - now apply GraphShape.simple_removeVertex.
  - now apply GraphShape.simple_removeEdge.
  - intros. now apply GraphFacts.simple_addEdge.
Qed.

(** ** The flag tables and the graph *)

Module NetworkShape.
Import GraphOps.

Lemma has_keys_eq {V W} (o : Obj.t V) (o' : Obj.t W) k :
  Obj.keys o = Obj.keys o' -> Obj.has k o = Obj.has k o'.
Proof.
  intros H. apply eq_true_iff_eq. rewrite !ObjFacts.has_In_keys, H. tauto.
Qed.

Lemma same_shape_refl n : same_shape n n.
Proof. now repeat split. Qed.

Lemma same_shape_trans n1 n2 n3 :
  same_shape n1 n2 -> same_shape n2 n3 -> same_shape n1 n3.
Proof.
  intros (A1 & A2 & A3) (B1 & B2 & B3). repeat split; congruence.
Qed.

Lemma coherent_same_shape n n' :
  coherent n -> same_shape n n' -> coherent n'.
Proof.
  intros (C1 & C2 & C3 & C4 & C5) (Hg & Hn & Hl). unfold coherent.
  rewrite Hg, Hn, Hl. repeat split; try assumption.
  - intros k Hk. apply C4. now rewrite (has_keys_eq _ _ k (eq_sym Hl)).
  - intros u e Hin. rewrite !(has_keys_eq _ _ _ Hl). now apply C5.
Qed.

Lemma ensures_forEach_In {A} (P : World -> Prop) (f : A -> Sim unit) l :
  (forall x, In x l -> ensures P (f x) P) ->
  ensures P (forEach f l) P.
Proof.
  induction l as [|x rest IH]; intros Hf; simpl.
  - apply SimFacts.ensures_ret.
  - apply SimFacts.ensures_bind with P.
    + apply Hf. now left.
    + intros _. apply IH. intros y Hy. apply Hf. now right.
Qed.

Section Shapes.
Variable random : nat -> Q.
Variable n0 : Network.

Let shaped (w : World) : Prop := same_shape n0 (net w).

Lemma checkNode_shape node :
  In node (Obj.keys (nodeFailures n0)) ->
  ensures shaped (checkNode random node) shaped.
Proof.
  intros Hin w a w' (Hg & Hn & Hl).
  unfold checkNode, bind, mathRandom, getNet, modifyNet, ret. simpl.
  destruct (js_lt _ _); intros [= _ <-]; [|now repeat split].
  repeat split; simpl; try assumption.
  rewrite ObjFacts.keys_set_present; [exact Hn|].
  apply ObjFacts.has_In_keys. now rewrite Hn.
Qed.

Lemma checkLink_shape link :
  In link (Obj.keys (linkFailures n0)) ->
  ensures shaped (checkLink random link) shaped.
Proof.
  intros Hin w a w' (Hg & Hn & Hl).
  unfold checkLink, bind, mathRandom, getNet, modifyNet, ret. simpl.
  destruct (js_lt _ _); intros [= _ <-]; [|now repeat split].
  repeat split; simpl; try assumption.
  rewrite ObjFacts.keys_set_present; [exact Hl|].
  apply ObjFacts.has_In_keys. now rewrite Hl.
Qed.

End Shapes.

Lemma checkNodeFailures_shape random w a w' :
  checkNodeFailures random w = Done a w' -> same_shape (net w) (net w').
Proof.
  unfold checkNodeFailures, bind at 1, getNet at 1. intros Hrun.
  refine (@ensures_forEach_In _ (fun w1 => same_shape (net w) (net w1))
            (checkNode random) _ _ w a w' (same_shape_refl _) Hrun).
  intros x Hx. now apply checkNode_shape.
Qed.

Lemma checkLinkFailures_shape random w a w' :
  checkLinkFailures random w = Done a w' -> same_shape (net w) (net w').
Proof.
  unfold checkLinkFailures, bind at 1, getNet at 1. intros Hrun.
  refine (@ensures_forEach_In _ (fun w1 => same_shape (net w) (net w1))
            (checkLink random) _ _ w a w' (same_shape_refl _) Hrun).
  intros x Hx. now apply checkLink_shape.
Qed.

Lemma resetNetwork_shape w a w' :
  resetNetwork w = Done a w' -> same_shape (net w) (net w').
Proof.
  intros [= _ <-]. repeat split; simpl; apply ObjFacts.keys_map_values.
Qed.

Lemma setProbabilities_shape p q w a w' :
  setProbabilities p q w = Done a w' -> same_shape (net w) (net w').
Proof.
  unfold setProbabilities. destruct (_ && _)%bool; intros [= _ <-];
    now repeat split.
Qed.

Lemma lists_app v l l' : lists v (l ++ l') = (lists v l || lists v l')%bool.
Proof. unfold lists. apply existsb_app. Qed.

Lemma lists_addEdge_mono x y src des c g :
  Obj.has src g = true -> Obj.has des g = true ->
  lists y (getNeighbors x g) = true ->
  lists y (getNeighbors x (addEdge src des c g)) = true.
Proof.
  intros Hs Hd H. rewrite GraphFacts.getNeighbors_addEdge by assumption.
  now rewrite lists_app, H.
Qed.

Lemma coherent_blank p q : coherent (blank p q).
Proof.
  unfold coherent, blank. simpl.
  split; [reflexivity|]. split; [constructor|]. split; [constructor|].
  split.
  - intros k Hk. discriminate.
  - intros u e [].
Qed.

Lemma coherent_initRouter n r b :
  coherent n ->
  coherent (with_nodeFailures (Obj.set r b (nodeFailures n))
              (with_graph (addVertex r (networkGraph n)) n)).
Proof.
  intros (C1 & C2 & C3 & C4 & C5). unfold coherent. simpl.
  split; [|split; [|split; [|split]]].
  - assert (Hh := has_keys_eq _ _ r C1). unfold addVertex.
    destruct (Obj.has r (networkGraph n)) eqn:Hr.
    + now rewrite ObjFacts.keys_set_present.
    + rewrite !ObjFacts.keys_set_absent by congruence. now rewrite C1.
  - unfold addVertex. destruct (Obj.has r (networkGraph n)); [exact C2|].
    now apply ObjMore.set_keeps_NoDup.
  - exact C3.
  - intros k Hk. destruct (C4 k Hk) as (f & t & -> & H1 & H2).
    exists f, t. now rewrite !GraphFacts.getNeighbors_addVertex.
  - intros u e. rewrite GraphFacts.getNeighbors_addVertex. apply C5.
Qed.

Lemma coherent_addEdge n from to c b :
  coherent n ->
  Obj.has from (networkGraph n) = true ->
  Obj.has to (networkGraph n) = true ->
  coherent (with_linkFailures
              (Obj.set (linkKey from to) b (linkFailures n))
              (with_graph (addEdge from to c (networkGraph n)) n)).
Proof.
  intros (C1 & C2 & C3 & C4 & C5) Hf Ht. unfold coherent. simpl.
  split; [|split; [|split; [|split]]].
  - now rewrite GraphFacts.keys_addEdge.
  - now rewrite GraphFacts.keys_addEdge.
  - now apply ObjMore.set_keeps_NoDup.
  - intros k. rewrite ObjFacts.has_set.
    destruct (String.eqb_spec k (linkKey from to)) as [->|Hk]; simpl.
    + intros _. exists from, to. split; [reflexivity|].
      rewrite !GraphFacts.getNeighbors_addEdge by assumption.
      rewrite !lists_app, !String.eqb_refl. unfold lists at 2 6. simpl.
      rewrite !String.eqb_refl. simpl.
      split; [apply orb_true_r|]. rewrite !orb_true_r. reflexivity.
    + intros Hk'. destruct (C4 k Hk') as (f & t & -> & H1 & H2).
      exists f, t. split; [reflexivity|].
      split; now apply lists_addEdge_mono.
  - intros u e. rewrite GraphFacts.getNeighbors_addEdge by assumption.
    rewrite !ObjFacts.has_set, !in_app_iff. intros [Hin|[Hin|Hin]].
    + destruct (C5 u e Hin) as [H|H]; rewrite H, !orb_true_r; auto.
    + destruct (String.eqb_spec u from) as [->|]; [|destruct Hin].
      destruct Hin as [<-|[]]. simpl. left.
      now rewrite String.eqb_refl.
    + destruct (String.eqb_spec u to) as [->|]; [|destruct Hin].
      destruct Hin as [<-|[]]. simpl. right.
      now rewrite String.eqb_refl.
Qed.

Lemma built_coherent random w : built random w -> coherent (net w).
Proof.
  induction 1 as [p q | w c w' Hb IH Hrun].
  - apply coherent_blank.
  - destruct c; simpl in Hrun.
    + unfold initRouter, bind, modifyNet, mathRandom in Hrun. simpl in Hrun.
      injection Hrun as <-. simpl. now apply coherent_initRouter.
    + apply SimFacts.addEdgeWithFailure_cases in Hrun.
      destruct Hrun as [[-> _] | (Hf & Ht & _ & _ & ->)]; [exact IH|].
      simpl. now apply coherent_addEdge.
    + apply checkNodeFailures_shape in Hrun.
      now apply coherent_same_shape with (net w).
    + apply checkLinkFailures_shape in Hrun.
      now apply coherent_same_shape with (net w).
    + apply resetNetwork_shape in Hrun.
      now apply coherent_same_shape with (net w).
    + apply setProbabilities_shape in Hrun.
      now apply coherent_same_shape with (net w).
    + injection Hrun as <-. apply coherent_same_shape with (net w);
        [exact IH | now repeat split].
Qed.

End NetworkShape.

(** ** One round of resampling, flag by flag *)

Module Resampling.

Lemma get_app_notin {V} k (pre o : Obj.t V) :
  ~ In k (Obj.keys pre) -> Obj.get k (pre ++ o) = Obj.get k o.
Proof.
  induction pre as [|[k0 v0] rest IH]; simpl; [reflexivity|].
  intros Hn. destruct (String.eqb_spec k k0) as [->|_]; [tauto|].
  apply IH. tauto.
Qed.

Lemma set_app_notin {V} k (v : V) (pre o : Obj.t V) :
  ~ In k (Obj.keys pre) -> Obj.set k v (pre ++ o) = pre ++ Obj.set k v o.
Proof.
  induction pre as [|[k0 v0] rest IH]; simpl; [reflexivity|].
  intros Hn. destruct (String.eqb_spec k k0) as [->|_]; [tauto|].
  rewrite IH; tauto.
Qed.

Lemma NoDup_keys_head {V} (pre : Obj.t V) k (b : V) rest :
  NoDup (Obj.keys (pre ++ (k, b) :: rest)) -> ~ In k (Obj.keys pre).
Proof.
  unfold Obj.keys. rewrite map_app. simpl. intros H.
  apply NoDup_remove_2 in H. intros Hin. apply H, in_or_app. now left.
Qed.

Lemma truthy_Some b : truthy (Some b) = b.
Proof. now destruct b. Qed.

Lemma toggled_length random p i flags :
  List.length (toggled random p i flags) = List.length flags.
Proof.
  revert i. induction flags as [|[k b] rest IH]; intros i; simpl;
    [reflexivity | now rewrite IH].
Qed.

Lemma toggled_keys random p i flags :
  Obj.keys (toggled random p i flags) = Obj.keys flags.
Proof.
  revert i. induction flags as [|[k b] rest IH]; intros i; simpl;
    [reflexivity | now rewrite IH].
Qed.

Section Rounds.
Variable random : nat -> Q.

Lemma forEach_checkNode suf :
  forall pre n d,
    nodeFailures n = pre ++ suf ->
    NoDup (Obj.keys (pre ++ suf)) ->
    forEach (checkNode random) (Obj.keys suf) (mkWorld n d)
    = Done tt
        (mkWorld
           (with_nodeFailures
              (pre ++ toggled random (nodeFailureProbability n) d suf) n)
           (d + List.length suf)).
Proof.
  induction suf as [|[k b] rest IH]; intros pre n d Hnf Hnd.
  - simpl. unfold ret. rewrite Nat.add_0_r, <- Hnf. now destruct n.
  - assert (Hk := NoDup_keys_head _ _ _ _ Hnd).
    cbn [Obj.keys List.map fst forEach]. unfold bind at 1.
    unfold checkNode, bind, mathRandom, getNet. cbn [net drawn].
    destruct (js_lt (random d) (nodeFailureProbability n)) eqn:Hlt.
    + unfold modifyNet. cbn [net drawn].
      rewrite Hnf, (get_app_notin _ _ _ Hk), (set_app_notin _ _ _ _ Hk).
      cbn [Obj.get Obj.set]. rewrite String.eqb_refl, truthy_Some.
      fold (Obj.keys rest).
      rewrite (IH (pre ++ [(k, negb b)])); cbn [nodeFailures
        with_nodeFailures nodeFailureProbability].
      * cbn [toggled]. rewrite Hlt, <- app_assoc. simpl.
        now rewrite Nat.add_succ_r.
      * now rewrite <- app_assoc.
      * rewrite <- app_assoc. simpl. revert Hnd. unfold Obj.keys.
        now rewrite !map_app.
    + unfold ret. fold (Obj.keys rest).
      rewrite (IH (pre ++ [(k, b)])).
      * cbn [toggled]. rewrite Hlt, <- app_assoc. simpl.
        now rewrite Nat.add_succ_r.
      * now rewrite <- app_assoc.
      * now rewrite <- app_assoc.
Qed.

Lemma forEach_checkLink suf :
  forall pre n d,
    linkFailures n = pre ++ suf ->
    NoDup (Obj.keys (pre ++ suf)) ->
    forEach (checkLink random) (Obj.keys suf) (mkWorld n d)
    = Done tt
        (mkWorld
           (with_linkFailures
              (pre ++ toggled random (linkFailureProbability n) d suf) n)
           (d + List.length suf)).
Proof.
  induction suf as [|[k b] rest IH]; intros pre n d Hnf Hnd.
  - simpl. unfold ret. rewrite Nat.add_0_r, <- Hnf. now destruct n.
  - assert (Hk := NoDup_keys_head _ _ _ _ Hnd).
    cbn [Obj.keys List.map fst forEach]. unfold bind at 1.
    unfold checkLink, bind, mathRandom, getNet. cbn [net drawn].
    destruct (js_lt (random d) (linkFailureProbability n)) eqn:Hlt.
    + unfold modifyNet. cbn [net drawn].
      rewrite Hnf, (get_app_notin _ _ _ Hk), (set_app_notin _ _ _ _ Hk).
      cbn [Obj.get Obj.set]. rewrite String.eqb_refl, truthy_Some.
      fold (Obj.keys rest).
      rewrite (IH (pre ++ [(k, negb b)])); cbn [linkFailures
        with_linkFailures linkFailureProbability].
      * cbn [toggled]. rewrite Hlt, <- app_assoc. simpl.
        now rewrite Nat.add_succ_r.
      * now rewrite <- app_assoc.
      * rewrite <- app_assoc. simpl. revert Hnd. unfold Obj.keys.
        now rewrite !map_app.
    + unfold ret. fold (Obj.keys rest).
      rewrite (IH (pre ++ [(k, b)])).
      * cbn [toggled]. rewrite Hlt, <- app_assoc. simpl.
        now rewrite Nat.add_succ_r.
      * now rewrite <- app_assoc.
      * now rewrite <- app_assoc.
Qed.

End Rounds.

End Resampling.

(** X7.  In every state the program reaches through its methods the
    flag tables fit the graph: the vertex flags have exactly the
    vertices as keys, in the same order and each once; each link flag is
    keyed [from-to] for two vertices that list each other; and every
    adjacency entry has a link flag under one of its two directions. *)
Theorem X7_flag_tables_fit_the_graph :
  forall random w, built random w -> coherent (net w).
Proof. exact NetworkShape.built_coherent. Qed.

Lemma X7_flag_tables_fit_the_graph_witness : coherent triangle.
Proof.
  apply (@X7_flag_tables_fit_the_graph (fun _ => 0) (mkWorld triangle 6)).
  apply built_run_all with triangle_commands
                           (mkWorld (blank (Num 0) (Num 0)) 0).
  - apply built_blank.
  - exact triangle_built.
Defined.

(** X8.  [addEdgeWithFailure] throws a [TypeError] exactly when [from]
    is not a vertex, or [from] does not list [to] and [to] is not a
    vertex; it never fails in another way.  In the states the program
    reaches that means: exactly when one of the two endpoints is
    missing, where [Graph.addEdge] alone would have done nothing. *)
Theorem X8_addEdgeWithFailure_throws_on_missing_vertex :
  forall random from to c w,
    let g := networkGraph (net w) in
    (addEdgeWithFailure random from to c w = TypeError <->
     Obj.has from g = false \/
     (GraphOps.lists to (GraphOps.getNeighbors from g) = false /\
      Obj.has to g = false)) /\
    addEdgeWithFailure random from to c w <> OutOfFuel /\
    (built random w ->
     (addEdgeWithFailure random from to c w = TypeError <->
      Obj.has from g = false \/ Obj.has to g = false)).
Proof.
  intros random from to c w g.
  assert (Hchar :
    addEdgeWithFailure random from to c w = TypeError <->
    Obj.has from g = false \/
    (GraphOps.lists to (GraphOps.getNeighbors from g) = false /\
     Obj.has to g = false)).
  { unfold addEdgeWithFailure, bind, getNet, GraphOps.getNeighbors, Obj.has.
    fold g. destruct (Obj.get from g) as [lf|]; [|tauto].
    destruct (GraphOps.lists to lf).
    - unfold ret. split; [discriminate|]. intros [H|[H _]]; discriminate.
    - destruct (Obj.get to g) as [lt|]; [|tauto].
      split; [|intros [H|[_ H]]; discriminate].
      destruct (GraphOps.lists from lt); discriminate. }
  split; [exact Hchar|]. split.
  - unfold addEdgeWithFailure, bind, getNet. fold g.
    destruct (Obj.get from g) as [lf|]; [|discriminate].
    destruct (GraphOps.lists to lf); [discriminate|].
    destruct (Obj.get to g) as [lt|]; [|discriminate].
    destruct (GraphOps.lists from lt); discriminate.
  - intros Hb. rewrite Hchar. apply SimFacts.built_simple in Hb.
    destruct Hb as [_ _ Hclosed]. fold g in Hclosed.
    split; [tauto|]. intros [H|H]; [now left|].
    destruct (Obj.has from g) eqn:Hf; [right | now left].
    split; [|exact H].
    destruct (GraphOps.lists to (GraphOps.getNeighbors from g)) eqn:Hl;
      [|reflexivity].
    unfold GraphOps.lists in Hl. apply existsb_exists in Hl.
    destruct Hl as (e & Hin & He). apply String.eqb_eq in He.
    apply Hclosed in Hin. congruence.
Qed.

Lemma X8_addEdgeWithFailure_throws_on_missing_vertex_witness :
  addEdgeWithFailure (fun _ => 0) "a" "z" 1 (mkWorld triangle 6) = TypeError.
Proof.
  apply (proj2 (proj2 (@X8_addEdgeWithFailure_throws_on_missing_vertex
                         (fun _ => 0) "a" "z" 1 (mkWorld triangle 6)))).
  - apply built_run_all with triangle_commands
                             (mkWorld (blank (Num 0) (Num 0)) 0).
    + apply built_blank.
    + exact triangle_built.
  - right. reflexivity.
Defined.

(** X9.  One round of [checkNodeFailures] takes one sample per vertex
    flag, in key order, and negates exactly the flags whose sample is
    below [nodeFailureProbability]; keys, order and every other field
    stay as they were. *)
Theorem X9_checkNodeFailures_toggles_by_sample :
  forall random w,
    NoDup (Obj.keys (nodeFailures (net w))) ->
    checkNodeFailures random w
    = Done tt
        (mkWorld
           (with_nodeFailures
              (toggled random (nodeFailureProbability (net w)) (drawn w)
                       (nodeFailures (net w)))
              (net w))
           (drawn w + List.length (nodeFailures (net w)))).
Proof.
  intros random w Hnd. unfold checkNodeFailures, bind, getNet.
  destruct w as [n d]. cbn [net drawn] in *.
  now rewrite (Resampling.forEach_checkNode random (nodeFailures n) []).
Qed.

Lemma X9_checkNodeFailures_toggles_by_sample_witness :
  checkNodeFailures (fun i => if Nat.eqb i 7 then 0 else 1)
                    (mkWorld (with_probabilities (Num (1 # 2)) (Num 0)
                                                 triangle) 6)
  = Done tt
      (mkWorld
         (with_nodeFailures [("a", false); ("b", true); ("c", false)]
            (with_probabilities (Num (1 # 2)) (Num 0) triangle))
         9).
Proof.
  apply (@X9_checkNodeFailures_toggles_by_sample
           (fun i => if Nat.eqb i 7 then 0 else 1)
           (mkWorld (with_probabilities (Num (1 # 2)) (Num 0) triangle) 6)).
  simpl. repeat constructor; simpl; intuition discriminate.
Defined.

(** X10.  One round of [checkLinkFailures] takes one sample per link
    flag, in key order, and negates exactly the flags whose sample is
    below [linkFailureProbability]; keys, order and every other field
    stay as they were. *)
Theorem X10_checkLinkFailures_toggles_by_sample :
  forall random w,
    NoDup (Obj.keys (linkFailures (net w))) ->
    checkLinkFailures random w
    = Done tt
        (mkWorld
           (with_linkFailures
              (toggled random (linkFailureProbability (net w)) (drawn w)
                       (linkFailures (net w)))
              (net w))
           (drawn w + List.length (linkFailures (net w)))).
Proof.
  intros random w Hnd. unfold checkLinkFailures, bind, getNet.
  destruct w as [n d]. cbn [net drawn] in *.
  now rewrite (Resampling.forEach_checkLink random (linkFailures n) []).
Qed.

Lemma X10_checkLinkFailures_toggles_by_sample_witness :
  checkLinkFailures (fun i => if Nat.eqb i 8 then 0 else 1)
                    (mkWorld (with_probabilities (Num 0) (Num (1 # 2))
                                                 triangle) 6)
  = Done tt
      (mkWorld
         (with_linkFailures [("a-b", false); ("a-c", false); ("b-c", true)]
            (with_probabilities (Num 0) (Num (1 # 2)) triangle))
         9).
Proof.
  apply (@X10_checkLinkFailures_toggles_by_sample
           (fun i => if Nat.eqb i 8 then 0 else 1)
           (mkWorld (with_probabilities (Num 0) (Num (1 # 2)) triangle) 6)).
  simpl. repeat constructor; simpl; intuition discriminate.
Defined.

(** ** The search finds cheapest walks *)

Module Shortest.
Import GraphOps.

Lemma dist_lt_irrefl a : dist_lt a a = false.
Proof. destruct a as [[x|]|]; simpl; auto using Z.ltb_irrefl. Qed.

Lemma dist_lt_trans a b c :
  dist_lt a b = true -> dist_lt b c = true -> dist_lt a c = true.
Proof.
  destruct a as [[x|]|], b as [[y|]|], c as [[z|]|]; simpl;
    try discriminate; try reflexivity.
  rewrite !Z.ltb_lt. lia.
Qed.

(** Among defined distances [select_min] returns a member of the queue
    that none undercuts. *)
Lemma pick_fold_least dist q :
  (forall u, In u q -> exists d, Obj.get u dist = Some d) ->
  forall acc m,
    (forall a, acc = Some a -> exists d, Obj.get a dist = Some d) ->
    List.fold_left (pick dist) q acc = Some m ->
    (forall a, acc = Some a ->
       dist_lt (Obj.get a dist) (Obj.get m dist) = false) /\
    (forall u, In u q -> dist_lt (Obj.get u dist) (Obj.get m dist) = false).
Proof.
  induction q as [|x rest IH]; intros Hq acc m Hdef H; simpl in H.
  - subst acc. split; [|intros u []].
    intros a [= ->]. apply dist_lt_irrefl.
  - destruct (Hq x (or_introl eq_refl)) as [dx Hdx].
    assert (Hq' : forall u, In u rest -> exists d, Obj.get u dist = Some d)
      by (intros u Hu; apply Hq; now right).
    assert (Hdef' : forall a, pick dist acc x = Some a ->
                      exists d, Obj.get a dist = Some d).
    { intros a. unfold pick. destruct acc as [a0|].
      - destruct (dist_lt _ _); intros [= <-]; eauto.
      - intros [= <-]. eauto. }
    destruct (@IH Hq' _ _ Hdef' H) as [Hacc Hrest].
    unfold pick in Hacc. destruct acc as [a|].
    + destruct (Hdef a eq_refl) as [da Hda].
      destruct (dist_lt (Obj.get x dist) (Obj.get a dist)) eqn:E.
      * specialize (Hacc x eq_refl). split.
        -- intros a' [= <-].
           destruct (dist_lt (Obj.get a dist) (Obj.get m dist)) eqn:E';
             [|reflexivity].
           rewrite (dist_lt_trans _ _ _ E E') in Hacc. discriminate.
        -- intros u [<-|Hu]; [exact Hacc | now apply Hrest].
      * specialize (Hacc a eq_refl). split.
        -- now intros a' [= <-].
        -- intros u [<-|Hu]; [|now apply Hrest].
           rewrite Hdx, Hda in *.
           destruct dx as [dx|], da as [da|],
             (Obj.get m dist) as [[dm'|]|]; simpl in *;
             try discriminate; try reflexivity.
           apply Z.ltb_ge in E, Hacc. apply Z.ltb_ge. lia.
    + specialize (Hacc x eq_refl). split; [discriminate|].
      intros u [<-|Hu]; [exact Hacc | now apply Hrest].
Qed.

Lemma select_min_least dist q m :
  (forall u, In u q -> exists d, Obj.get u dist = Some d) ->
  select_min dist q = Some m ->
  forall u, In u q -> dist_lt (Obj.get u dist) (Obj.get m dist) = false.
Proof.
  intros Hq H. apply (@pick_fold_least dist q Hq None m); [discriminate|].
  exact H.
Qed.

(** *** The first loop *)

Lemma set_add_In x y s : In y (set_add x s) <-> y = x \/ In y s.
Proof.
  unfold set_add. destruct (List.existsb (String.eqb x) s) eqn:E.
  - split; [tauto|]. intros [->|H]; [|exact H].
    apply existsb_exists in E. destruct E as (z & Hz & Ez).
    apply String.eqb_eq in Ez. now subst.
  - rewrite in_app_iff. simpl. intuition congruence.
Qed.

Lemma init_fold_queue keys st y :
  In y (queue (List.fold_left init_node keys st))
  <-> In y keys \/ In y (queue st).
Proof.
  revert st. induction keys as [|k rest IH]; intros st; simpl; [tauto|].
  rewrite IH. simpl. rewrite set_add_In. intuition congruence.
Qed.

Lemma init_fold_defined keys st x :
  In x keys \/ (exists d, Obj.get x (distances st) = Some d) ->
  exists d, Obj.get x (distances (List.fold_left init_node keys st)) = Some d.
Proof.
  revert st. induction keys as [|k rest IH]; intros st H; simpl.
  - destruct H as [[]|H]; exact H.
  - apply IH. simpl. rewrite ObjFacts.get_set.
    destruct (String.eqb_spec x k) as [->|Hne]; [right; eauto|].
    destruct H as [[H|H]|H]; [congruence | now left | now right].
Qed.

Lemma init_fold_domain keys st x d :
  Obj.get x (distances (List.fold_left init_node keys st)) = Some d ->
  In x keys \/ exists d', Obj.get x (distances st) = Some d'.
Proof.
  revert st. induction keys as [|k rest IH]; intros st H; simpl in *.
  - right. eauto.
  - apply IH in H. destruct H as [H|[d' H]]; [now left; right|].
    simpl in H. rewrite ObjFacts.get_set in H.
    destruct (String.eqb_spec x k) as [->|_]; [left; now left | right; eauto].
Qed.

Lemma init_search_queue g start y :
  In y (queue (init_search g start)) <-> Obj.has y g = true.
Proof.
  unfold init_search. simpl. rewrite init_fold_queue. simpl.
  rewrite ObjFacts.has_In_keys. tauto.
Qed.

Lemma init_search_defined g start x :
  Obj.has x g = true ->
  exists d, Obj.get x (distances (init_search g start)) = Some d.
Proof.
  intros Hx. unfold init_search. simpl. rewrite ObjFacts.get_set.
  destruct (String.eqb x start); [eauto|].
  apply init_fold_defined. left. now apply ObjFacts.has_In_keys.
Qed.

Lemma init_search_domain g start x d :
  Obj.get x (distances (init_search g start)) = Some d ->
  x = start \/ Obj.has x g = true.
Proof.
  unfold init_search. simpl. rewrite ObjFacts.get_set.
  destruct (String.eqb_spec x start) as [->|_]; [now left|].
  intros H. apply init_fold_domain in H. destruct H as [H|[d' H]].
  - right. now apply ObjFacts.has_In_keys.
  - discriminate.
Qed.

(** *** One turn of the main loop *)

Lemma usable_not_skipped n m e :
  usable n m e = true ->
  (truthy (Obj.get (vertex e) (nodeFailures n))
   || truthy (Obj.get (linkKey m (vertex e)) (linkFailures n)))%bool = false.
Proof.
  unfold usable. rewrite !andb_true_iff, !negb_true_iff.
  intros [[_ H1] H2]. now rewrite H1, H2.
Qed.

Lemma step_cost_nonneg n m x c :
  costs_nonneg (networkGraph n) = true -> step n m x c -> (0 <= c)%Z.
Proof.
  intros Hc (e & Hin & _ & <- & _).
  now apply GraphFacts.costs_nonneg_spec with (networkGraph n) m.
Qed.

Lemma step_has n m x c : step n m x c -> Obj.has x (networkGraph n) = true.
Proof.
  intros (e & _ & <- & _ & Hus). unfold usable in Hus.
  rewrite !andb_true_iff in Hus. tauto.
Qed.

Section Turn.
Variable n : Network.
Variable m : string.
Variable dm : Z.
Variable dist : Obj.t Dist.
Variable prev : Obj.t (option string).

Hypothesis Hcost : costs_nonneg (networkGraph n) = true.
Hypothesis Hm : Obj.get m dist = Some (Finite dm).
Hypothesis Hdef : forall x,
  Obj.has x (networkGraph n) = true -> exists d, Obj.get x dist = Some d.
Hypothesis Hkeys : forall x d,
  Obj.get x dist = Some d -> Obj.has x (networkGraph n) = true.

Lemma relaxed_keeps_m l dp :
  relaxed_inv n m dm dist prev l dp -> Obj.get m (fst dp) = Some (Finite dm).
Proof.
  intros [J1 _]. destruct (J1 m) as [[H _]|(c & Hs & _ & _ & Hlt)].
  - now rewrite H.
  - apply step_cost_nonneg in Hs; [|exact Hcost].
    rewrite Hm in Hlt. simpl in Hlt. apply Z.ltb_lt in Hlt. lia.
Qed.

Lemma relaxed_fold l :
  incl l (getNeighbors m (networkGraph n)) ->
  relaxed_inv n m dm dist prev l
              (List.fold_left (relax n m) l (dist, prev)).
Proof.
  induction l as [|e l IH] using rev_ind; intros Hincl.
  - split; [intros x; left; now split | intros e []].
  - rewrite fold_left_app. cbn [List.fold_left].
    set (dp := List.fold_left (relax n m) l (dist, prev)) in *.
    assert (IH' : relaxed_inv n m dm dist prev l dp).
    { apply IH. intros y Hy. apply Hincl, in_or_app. now left. }
    assert (Hin : In e (getNeighbors m (networkGraph n))).
    { apply Hincl, in_or_app. right. now left. }
    assert (Hce : (0 <= cost e)%Z)
      by now apply GraphFacts.costs_nonneg_spec with (networkGraph n) m.
    assert (Hmdp := relaxed_keeps_m IH').
    destruct IH' as [J1 J2].
    assert (Hold : forall e', In e' (l ++ [e]) -> e' <> e \/ In e' l ->
                     In e' l \/ e' = e).
    { intros e' He' _. apply in_app_or in He'.
      destruct He' as [H|[H|[]]]; auto. }
    unfold relax.
    destruct (truthy (Obj.get (vertex e) (nodeFailures n))
              || truthy (Obj.get (linkKey m (vertex e)) (linkFailures n)))%bool
      eqn:Hskip.
    + split; [exact J1|]. intros e' He' Hus. apply in_app_or in He'.
      destruct He' as [He'|[<-|[]]]; [now apply J2|].
      rewrite (usable_not_skipped _ _ _ Hus) in Hskip. discriminate.
    + rewrite Hmdp. cbn [dist_add].
      destruct (dist_lt (Some (Finite (dm + cost e)))
                        (Obj.get (vertex e) (fst dp))) eqn:Hlt.
      * cbn [fst snd].
        assert (Hlt0 : dist_lt (Some (Finite (dm + cost e)))
                               (Obj.get (vertex e) dist) = true).
        { destruct (J1 (vertex e)) as [[H _]|(c & _ & H & _ & Hlt')].
          - now rewrite <- H.
          - rewrite H in Hlt. exact (dist_lt_trans _ _ _ Hlt Hlt'). }
        assert (Hhas : Obj.has (vertex e) (networkGraph n) = true).
        { destruct (Obj.get (vertex e) dist) as [d0|] eqn:E.
          - now apply Hkeys with d0.
          - simpl in Hlt0. discriminate. }
        assert (Hstep : step n m (vertex e) (cost e)).
        { exists e. repeat split; [exact Hin|]. unfold usable.
          apply orb_false_iff in Hskip. destruct Hskip as [-> ->].
          now rewrite Hhas. }
        split.
        -- intros y. cbn [fst snd].
           destruct (String.eqb_spec y (vertex e)) as [->|Hy].
           ++ right. exists (cost e). split; [exact Hstep|].
              rewrite ObjFacts.get_set_same, SearchFacts.prev_of_set,
                String.eqb_refl. now repeat split.
           ++ rewrite (ObjFacts.get_set_other _ _ Hy),
                SearchFacts.prev_of_set.
              apply String.eqb_neq in Hy. rewrite Hy. apply J1.
        -- intros e' He' Hus. cbn [fst snd]. apply in_app_or in He'.
           destruct He' as [He'|[<-|[]]].
           ++ destruct (J2 e' He' Hus) as (dx & Hdx & Hle).
              destruct (String.eqb_spec (vertex e') (vertex e)) as [Heq|Hne].
              ** rewrite Heq, ObjFacts.get_set_same.
                 exists (dm + cost e)%Z. split; [reflexivity|].
                 rewrite Heq in Hdx. rewrite Hdx in Hlt. simpl in Hlt.
                 apply Z.ltb_lt in Hlt. lia.
              ** rewrite (ObjFacts.get_set_other _ _ Hne). eauto.
           ++ rewrite ObjFacts.get_set_same.
              exists (dm + cost e)%Z. split; [reflexivity | lia].
      * split; [exact J1|]. intros e' He' Hus. apply in_app_or in He'.
        destruct He' as [He'|[<-|[]]]; [now apply J2|].
        assert (Hhas : Obj.has (vertex e) (networkGraph n) = true).
        { unfold usable in Hus. rewrite !andb_true_iff in Hus. tauto. }
        destruct (Hdef _ Hhas) as [d0 Hd0].
        destruct (J1 (vertex e)) as [[H _]|(c & _ & H & _)].
        -- rewrite H, Hd0 in Hlt. rewrite H, Hd0.
           destruct d0 as [dx|]; simpl in Hlt; [|discriminate].
           exists dx. split; [reflexivity|]. apply Z.ltb_ge in Hlt. lia.
        -- rewrite H in Hlt. rewrite H. simpl in Hlt.
           eexists. split; [reflexivity|]. apply Z.ltb_ge in Hlt. lia.
Qed.

(** A vertex no farther than [m] keeps its distance and predecessor. *)
Lemma relaxed_frozen l dp x :
  relaxed_inv n m dm dist prev l dp ->
  dist_lt (Some (Finite dm)) (Obj.get x dist) = false ->
  Obj.get x (fst dp) = Obj.get x dist /\
  prev_of (snd dp) x = prev_of prev x.
Proof.
  intros [J1 _] Hfr. destruct (J1 x) as [H|(c & Hs & _ & _ & Hlt)];
    [exact H|].
  apply step_cost_nonneg in Hs; [|exact Hcost].
  destruct (Obj.get x dist) as [[dx|]|]; simpl in *; try discriminate.
  apply Z.ltb_lt in Hlt. apply Z.ltb_ge in Hfr. lia.
Qed.

End Turn.

(** *** The main loop *)

Lemma set_delete_In m q u : In u (set_delete m q) <-> In u q /\ u <> m.
Proof.
  unfold set_delete. rewrite filter_In, negb_true_iff, String.eqb_neq.
  intuition congruence.
Qed.

Section Loop.
Variable n : Network.
Variable start : string.

Hypothesis Hcost : costs_nonneg (networkGraph n) = true.
Hypothesis Hstart : Obj.has start (networkGraph n) = true.

Lemma relax_keeps_start m dp e :
  In e (getNeighbors m (networkGraph n)) ->
  start_fixed start (fst dp) (snd dp) ->
  start_fixed start (fst (relax n m dp e)) (snd (relax n m dp e)).
Proof.
  intros Hin. apply SearchFacts.relax_start_fixed.
  now apply GraphFacts.costs_nonneg_spec with (networkGraph n) m.
Qed.

Lemma init_settled : settled_inv n start (init_search (networkGraph n) start).
Proof.
  assert (Hq : forall u, In u (queue (init_search (networkGraph n) start))
                 <-> Obj.has u (networkGraph n) = true)
    by (intros u; apply init_search_queue).
  assert (Hfin : forall x d,
            Obj.get x (distances (init_search (networkGraph n) start))
            = Some (Finite d) -> x = start /\ d = 0%Z).
  { intros x d H. apply SearchFacts.init_search_distances in H.
    destruct H as [H|[-> H]]; [discriminate|]. now injection H as <-. }
  split.
  - intros u. apply Hq.
  - now apply init_search_defined.
  - intros x d H. apply init_search_domain in H.
    destruct H as [->|H]; assumption.
  - split; [apply SearchFacts.init_search_start|].
    split; [apply SearchFacts.init_search_previous|].
    intros x d H. apply Hfin in H. lia.
  - intros v u Hv Hnv _. apply Hq in Hv. contradiction.
  - intros v dv x c Hv Hnv _ _. apply Hq in Hv. contradiction.
  - intros x d H. apply Hfin in H. destruct H as [-> ->].
    exists [start]. constructor.
  - intros x m. now rewrite SearchFacts.init_search_previous.
  - intros x d H. apply Hfin in H. now left.
Qed.

Lemma visit_settled st m :
  settled_inv n start st ->
  select_min (distances st) (queue st) = Some m ->
  is_infinity (Obj.get m (distances st)) = false ->
  settled_inv n start (visit n m st).
Proof.
  intros Inv Hsel Hfin.
  assert (Hmq : In m (queue st)) by now apply SearchFacts.select_min_In in Hsel.
  assert (Hmg := inv_queue Inv _ Hmq).
  assert (Hqdef : forall u, In u (queue st) ->
                    exists d, Obj.get u (distances st) = Some d).
  { intros u Hu. apply (inv_defined Inv), (inv_queue Inv), Hu. }
  assert (Hleast := SearchFacts.select_min_In _ _ Hsel).
  assert (Hmin := @select_min_least _ _ _ Hqdef Hsel).
  destruct (inv_defined Inv _ Hmg) as [d0 Hd0].
  destruct d0 as [dm|]; [|rewrite Hd0 in Hfin; discriminate].
  set (L := getNeighbors m (networkGraph n)).
  assert (R := @relaxed_fold n m dm (distances st) (previous st) Hcost Hd0
                 (inv_defined Inv) (inv_keys Inv) L (incl_refl L)).
  set (dp := List.fold_left (relax n m) L (distances st, previous st)) in *.
  assert (Hmdp := @relaxed_keeps_m n m dm (distances st) (previous st)
                    Hcost Hd0 L dp R).
  assert (Hfrozen : forall v,
            Obj.has v (networkGraph n) = true ->
            ~ In v (set_delete m (queue st)) ->
            dist_lt (Some (Finite dm)) (Obj.get v (distances st)) = false).
  { intros v Hv Hnv. destruct (String.eqb_spec v m) as [->|Hne].
    - rewrite Hd0. apply dist_lt_irrefl.
    - rewrite <- Hd0. apply (inv_order Inv); [exact Hv | | exact Hmq].
      intros Hin. apply Hnv, set_delete_In. now split. }
  assert (Hsame : forall v,
            Obj.has v (networkGraph n) = true ->
            ~ In v (set_delete m (queue st)) ->
            Obj.get v (fst dp) = Obj.get v (distances st) /\
            prev_of (snd dp) v = prev_of (previous st) v).
  { intros v Hv Hnv.
    apply (@relaxed_frozen n m dm (distances st) (previous st) Hcost L dp v R).
    now apply Hfrozen. }
  destruct R as [J1 J2].
  unfold visit. fold L. fold dp.
  split; cbn [distances previous queue].
  - intros u Hu. apply set_delete_In in Hu. apply (inv_queue Inv), Hu.
  - intros x Hx. destruct (inv_defined Inv _ Hx) as [d Hd].
    destruct (J1 x) as [[H _]|(c & _ & H & _)]; rewrite H; eauto.
  - intros x d Hd. destruct (J1 x) as [[H _]|(c & Hs & _)].
    + rewrite H in Hd. now apply (inv_keys Inv) with d.
    + now apply step_has in Hs.
  - apply (SearchFacts.visit_keeps n (start_fixed start) relax_keeps_start
             m st (inv_start Inv)).
  - intros v u Hv Hnv Hu. apply set_delete_In in Hu. destruct Hu as [Hu Hum].
    destruct (Hsame v Hv Hnv) as [Hdv _]. rewrite Hdv.
    assert (Hfr := Hfrozen v Hv Hnv).
    destruct (J1 u) as [[H _]|(c & Hs & H & _)]; rewrite H.
    + destruct (String.eqb_spec v m) as [->|Hne].
      * now apply Hmin.
      * apply (inv_order Inv); [exact Hv | | exact Hu].
        intros Hin. apply Hnv, set_delete_In. now split.
    + apply step_cost_nonneg in Hs; [|exact Hcost].
      destruct (Obj.get v (distances st)) as [[dv|]|]; simpl in *;
        try discriminate; try reflexivity.
      apply Z.ltb_ge in Hfr. apply Z.ltb_ge. lia.
  - intros v dv x c Hv Hnv Hdv Hs.
    destruct (Hsame v Hv Hnv) as [Hdv' _]. rewrite Hdv' in Hdv.
    destruct (String.eqb_spec v m) as [->|Hne].
    + rewrite Hd0 in Hdv. injection Hdv as <-.
      destruct Hs as (e & Hin & <- & <- & Hus). now apply J2.
    + assert (Hnq : ~ In v (queue st)).
      { intros Hin. apply Hnv, set_delete_In. now split. }
      destruct (@inv_relaxed _ _ _ Inv v dv x c Hv Hnq Hdv Hs)
        as (dx & Hdx & Hle).
      destruct (J1 x) as [[H _]|(c' & _ & H & _ & Hlt)]; rewrite H.
      * eauto.
      * rewrite Hdx in Hlt. simpl in Hlt. apply Z.ltb_lt in Hlt.
        eexists. split; [reflexivity | lia].
  - intros x d Hd. destruct (J1 x) as [[H _]|(c & Hs & H & _)];
      rewrite H in Hd.
    + now apply (inv_walk Inv).
    + injection Hd as <-. destruct (@inv_walk _ _ _ Inv m dm Hd0) as [p Hp].
      exists (p ++ [x]). now apply walk_step with m.
  - intros x m' Hp.
    destruct (J1 x) as [[Hdx Hpx]|(c & Hs & Hdx & Hpx & _)];
      rewrite Hpx in Hp.
    + destruct (@inv_prev _ _ _ Inv x m' Hp)
        as (Hm' & Hnq & dm' & c & H1 & H2 & H3).
      assert (Hnq' : ~ In m' (set_delete m (queue st))).
      { intros Hin. apply set_delete_In in Hin. tauto. }
      split; [exact Hm'|]. split; [exact Hnq'|].
      exists dm', c. destruct (Hsame m' Hm' Hnq') as [-> _].
      rewrite Hdx. now repeat split.
    + injection Hp as <-. split; [exact Hmg|]. split.
      * intros Hin. apply set_delete_In in Hin. tauto.
      * exists dm, c. now repeat split.
  - intros x d Hd. destruct (J1 x) as [[Hdx Hpx]|(c & _ & _ & Hpx & _)].
    + rewrite Hdx in Hd. rewrite Hpx. now apply (inv_reached Inv) with d.
    + right. eauto.
Qed.

Lemma search_loop_settled fuel st :
  settled_inv n start st -> settled_inv n start (search_loop n fuel st).
Proof.
  revert st. induction fuel as [|fuel IH]; intros st Inv; simpl; [exact Inv|].
  destruct (select_min (distances st) (queue st)) as [m|] eqn:Hsel;
    [|exact Inv].
  destruct (is_infinity (Obj.get m (distances st))) eqn:Hinf; [exact Inv|].
  apply IH. now apply visit_settled.
Qed.

Lemma dijkstra_settled : settled_inv n start (dijkstra n start).
Proof. unfold dijkstra. apply search_loop_settled, init_settled. Qed.

(** When the loop has ended, what is left in the queue was not
    reached. *)
Lemma dijkstra_queue_unreached u d :
  In u (queue (dijkstra n start)) ->
  Obj.get u (distances (dijkstra n start)) <> Some (Finite d).
Proof.
  intros Hu Hd. assert (Inv := dijkstra_settled).
  destruct (@SearchFacts.search_loop_final n
              (List.length (queue (init_search (networkGraph n) start)))
              (init_search (networkGraph n) start) (Nat.le_refl _))
    as [Hq|(m & Hsel & Hinf)]; fold (dijkstra n start) in *.
  - rewrite Hq in Hu. destruct Hu.
  - assert (Hqdef : forall v, In v (queue (dijkstra n start)) ->
              exists dv, Obj.get v (distances (dijkstra n start)) = Some dv).
    { intros v Hv. apply (inv_defined Inv), (inv_queue Inv), Hv. }
    assert (Hmin := @select_min_least _ _ _ Hqdef Hsel u Hu).
    rewrite Hd in Hmin.
    destruct (Obj.get m (distances (dijkstra n start))) as [[dm|]|];
      simpl in *; discriminate.
Qed.

(** No walk from the start is cheaper than the distance found. *)
Lemma dijkstra_least p x w :
  walk n start p x w ->
  exists d, Obj.get x (distances (dijkstra n start)) = Some (Finite d) /\
            (d <= w)%Z.
Proof.
  assert (Inv := dijkstra_settled).
  induction 1 as [|p m x c w Hw IH Hs].
  - exists 0%Z. split; [apply (inv_start Inv) | lia].
  - destruct IH as (dm & Hdm & Hle).
    assert (Hm := @inv_keys _ _ _ Inv m _ Hdm).
    assert (Hnq : ~ In m (queue (dijkstra n start))).
    { intros Hin. exact (@dijkstra_queue_unreached m dm Hin Hdm). }
    destruct (@inv_relaxed _ _ _ Inv m dm x c Hm Hnq Hdm Hs)
      as (dx & Hdx & Hle').
    exists dx. split; [exact Hdx | lia].
Qed.

End Loop.

End Shortest.

(** ** The returned path *)

Module Paths.
Import GraphOps.

Lemma walk_ends_with n s p x w :
  walk n s p x w -> exists q, p = q ++ [x].
Proof.
  destruct 1 as [|p m x c w _ _]; [now exists [] | now exists p].
Qed.

Lemma walk_long n s p x w :
  walk n s p x w -> x <> s -> (1 < List.length p)%nat.
Proof.
  destruct 1 as [|p m x c w Hw _]; [congruence|]. intros _.
  apply walk_ends_with in Hw. destruct Hw as [q ->].
  rewrite !length_app. simpl. lia.
Qed.

Lemma costs_positive_nonneg g :
  costs_positive g = true -> costs_nonneg g = true.
Proof.
  unfold costs_positive, costs_nonneg. rewrite !forallb_forall.
  intros H kv Hkv. specialize (H kv Hkv). rewrite forallb_forall in *.
  intros e He. specialize (H e He). apply Z.ltb_lt in H. apply Z.leb_le. lia.
Qed.

Section Reconstruct.
Variable n : Network.
Variable start : string.

Hypothesis Hcost : costs_nonneg (networkGraph n) = true.
Hypothesis Hstart : Obj.has start (networkGraph n) = true.
Hypothesis Hlabel : Obj.has "" (networkGraph n) = false.

Let st := dijkstra n start.

(** The walk back from a reached vertex spells out a walk from the
    start whose cost is the distance found. *)
Lemma reconstruct_walk fuel :
  forall c dc path p,
    Obj.get c (distances st) = Some (Finite dc) ->
    reconstruct fuel (previous st) (Some c) path = Some p ->
    exists q, walk n start q c dc /\ p = q ++ path.
Proof.
  assert (Inv := Shortest.dijkstra_settled n start Hcost Hstart).
  fold st in Inv.
  induction fuel as [|fuel IH]; intros c dc path p Hdc; simpl;
    [discriminate|].
  assert (Hc : Obj.has c (networkGraph n) = true)
    by exact (@inv_keys _ _ _ Inv c _ Hdc).
  destruct (String.eqb_spec c "") as [->|_]; [congruence|]. simpl.
  destruct (prev_of (previous st) c) as [m|] eqn:Hp.
  - destruct (@inv_prev _ _ _ Inv c m Hp) as (_ & _ & dm & cc & Hdm & Hdc' & Hs).
    rewrite Hdc in Hdc'. injection Hdc' as ->.
    intros H. destruct (IH _ _ _ _ Hdm H) as (q & Hw & ->).
    exists (q ++ [c]). split; [now apply walk_step with m|].
    now rewrite <- app_assoc.
  - destruct fuel; simpl; [discriminate|]. intros [= <-].
    destruct (@inv_reached _ _ _ Inv c dc Hdc) as [->|[m Hm]]; [|congruence].
    destruct (inv_start Inv) as (H0 & _). rewrite H0 in Hdc.
    injection Hdc as <-. exists [start]. split; [constructor | reflexivity].
Qed.

(** A returned path is a cheapest walk from [start] to [end_]. *)
Lemma returned_path_cheapest fuel end_ p :
  findShortestPath fuel n start end_ = Some (Some p) ->
  exists d,
    walk n start p end_ d /\
    distance_to n start end_ = Some (Finite d) /\
    forall p' w, walk n start p' end_ w -> (d <= w)%Z.
Proof.
  assert (Inv := Shortest.dijkstra_settled n start Hcost Hstart).
  unfold findShortestPath, distance_to. fold st in Inv |- *.
  destruct (reconstruct fuel (previous st) (Some end_) []) as [path|] eqn:E;
    [|discriminate].
  simpl. unfold found.
  destruct (1 <? List.length path)%nat eqn:Hlen; [|discriminate].
  intros [= <-]. apply Nat.ltb_lt in Hlen.
  assert (Hfin : exists d, Obj.get end_ (distances st) = Some (Finite d)).
  { destruct fuel as [|fuel]; simpl in E; [discriminate|].
    destruct (negb (String.eqb end_ "")).
    - destruct (prev_of (previous st) end_) as [m|] eqn:Hp.
      + destruct (@inv_prev _ _ _ Inv end_ m Hp)
          as (_ & _ & dm & c & _ & H & _). eauto.
      + destruct fuel; simpl in E; [discriminate|].
        injection E as <-. simpl in Hlen. lia.
    - injection E as <-. simpl in Hlen. lia. }
  destruct Hfin as [d Hd]. exists d.
  destruct (reconstruct_walk _ _ _ Hd E) as (q & Hw & ->).
  rewrite app_nil_r. split; [exact Hw|]. split; [exact Hd|].
  intros p' w Hw'.
  destruct (Shortest.dijkstra_least Hcost Hstart Hw') as (d' & Hd' & Hle).
  fold st in Hd'. rewrite Hd in Hd'. injection Hd' as <-. exact Hle.
Qed.

End Reconstruct.

End Paths.

(** ** What the search depends on *)

Module SearchInputs.
Import GraphOps.

Lemma relax_same_failures n1 n2 m dp e :
  same_failures n1 n2 -> relax n1 m dp e = relax n2 m dp e.
Proof.
  intros (_ & Hn & Hl). unfold relax. now rewrite Hn, Hl.
Qed.

Lemma fold_relax_same_failures n1 n2 m l dp :
  same_failures n1 n2 ->
  List.fold_left (relax n1 m) l dp = List.fold_left (relax n2 m) l dp.
Proof.
  intros H. revert dp. induction l as [|e rest IH]; intros dp; simpl;
    [reflexivity|].
  now rewrite IH, (relax_same_failures m dp e H).
Qed.

Lemma search_loop_same_failures n1 n2 fuel st :
  same_failures n1 n2 -> search_loop n1 fuel st = search_loop n2 fuel st.
Proof.
  intros H. revert st. induction fuel as [|fuel IH]; intros st; simpl;
    [reflexivity|].
  destruct (select_min _ _) as [m|]; [|reflexivity].
  destruct (is_infinity _); [reflexivity|].
  rewrite IH. unfold visit.
  destruct H as (Hg & Hn & Hl).
  rewrite Hg, (@fold_relax_same_failures n1 n2); [reflexivity|].
  now repeat split.
Qed.

Lemma dijkstra_same_failures n1 n2 start :
  same_failures n1 n2 -> dijkstra n1 start = dijkstra n2 start.
Proof.
  intros H. unfold dijkstra. destruct H as (Hg & Hn & Hl). rewrite Hg.
  apply search_loop_same_failures. now repeat split.
Qed.

(** With an unknown start the loop breaks at once. *)
Lemma dijkstra_unknown_start n start :
  Obj.has start (networkGraph n) = false ->
  dijkstra n start = init_search (networkGraph n) start.
Proof.
  intros Hs. unfold dijkstra.
  destruct (List.length (queue (init_search (networkGraph n) start)));
    cbn [search_loop]; [reflexivity|].
  destruct (select_min _ _) as [m|] eqn:Hsel; [|reflexivity].
  apply SearchFacts.select_min_In, Shortest.init_search_queue in Hsel.
  destruct (Shortest.init_search_defined (networkGraph n) start m Hsel)
    as [d Hd].
  rewrite Hd. apply SearchFacts.init_search_distances in Hd.
  destruct Hd as [->|[-> _]]; [reflexivity | congruence].
Qed.

(** A vertex that has no distance never gets one, nor a predecessor. *)
Lemma relax_keeps_undefined n x m dp e :
  Obj.get x (fst dp) = None /\ prev_of (snd dp) x = None ->
  Obj.get x (fst (relax n m dp e)) = None /\
  prev_of (snd (relax n m dp e)) x = None.
Proof.
  intros [Hd Hp]. unfold relax.
  destruct (_ || _)%bool; [now split|].
  destruct (dist_lt _ _) eqn:Hlt; [|now split].
  destruct (dist_add _ _) as [d|]; [|now split]. cbn [fst snd].
  assert (Hne : x <> vertex e).
  { intros ->. rewrite Hd in Hlt.
    destruct (Some d) as [[?|]|]; discriminate. }
  rewrite (ObjFacts.get_set_other _ _ Hne), SearchFacts.prev_of_set.
  apply String.eqb_neq in Hne. now rewrite Hne.
Qed.

Lemma dijkstra_unknown_end n start end_ :
  Obj.has end_ (networkGraph n) = false -> end_ <> start ->
  prev_of (previous (dijkstra n start)) end_ = None.
Proof.
  intros He Hne.
  apply (SearchFacts.dijkstra_keeps n
           (fun dist prev => Obj.get end_ dist = None /\
                             prev_of prev end_ = None)).
  - intros m dp e _. apply relax_keeps_undefined.
  - cbv zeta. split; [|apply SearchFacts.init_search_previous].
    destruct (Obj.get end_ (distances (init_search (networkGraph n) start)))
      as [d|] eqn:E; [|reflexivity].
    apply Shortest.init_search_domain in E. destruct E; congruence.
Qed.

End SearchInputs.

(** ** Sums that stay exact *)

Module Exact.
Import GraphOps.

Lemma max_cost_inner l acc :
  (acc <= List.fold_right (fun e a => Z.max (cost e) a) acc l)%Z /\
  (forall e, In e l ->
     (cost e <= List.fold_right (fun e a => Z.max (cost e) a) acc l)%Z).
Proof.
  induction l as [|e0 rest [IH1 IH2]]; simpl.
  - split; [lia | intros e []].
  - split; [lia|]. intros e [<-|He]; [lia|]. specialize (IH2 e He). lia.
Qed.

Lemma max_cost_nonneg g : (0 <= max_cost g)%Z.
Proof.
  unfold max_cost. induction g as [|[k l] rest IH]; simpl; [lia|].
  destruct (max_cost_inner l
              (List.fold_right
                 (fun kv acc =>
                    List.fold_right (fun e a => Z.max (cost e) a) acc (snd kv))
                 0%Z rest)) as [H _].
  lia.
Qed.

Lemma max_cost_In g k l e :
  In (k, l) g -> In e l -> (cost e <= max_cost g)%Z.
Proof.
  unfold max_cost. induction g as [|[k0 l0] rest IH]; simpl; [tauto|].
  destruct (max_cost_inner l0
              (List.fold_right
                 (fun kv acc =>
                    List.fold_right (fun e a => Z.max (cost e) a) acc (snd kv))
                 0%Z rest)) as [H1 H2].
  intros [[= -> ->]|Hin] He.
  - now apply H2.
  - specialize (IH Hin He). lia.
Qed.

Lemma max_cost_ge g u e :
  In e (getNeighbors u g) -> (cost e <= max_cost g)%Z.
Proof.
  unfold getNeighbors. intros Hin.
  destruct (Obj.get u g) as [l|] eqn:Hu; [|destruct Hin].
  apply ObjFacts.get_In in Hu. now apply max_cost_In with u l.
Qed.

Lemma costs_within_nonneg g : costs_within g = true -> costs_nonneg g = true.
Proof. unfold costs_within. intros H. now apply andb_true_iff in H. Qed.

Lemma costs_within_bound g :
  costs_within g = true ->
  (max_cost g * Z.of_nat (List.length (Obj.keys g)) <= exact_bound)%Z.
Proof.
  unfold costs_within. intros H. apply andb_true_iff in H.
  now apply Z.leb_le.
Qed.

Lemma set_add_length x s :
  (List.length (set_add x s) <= S (List.length s))%nat.
Proof.
  unfold set_add. destruct (List.existsb _ s); [lia|].
  rewrite length_app. simpl. lia.
Qed.

Lemma init_fold_queue_length keys st :
  (List.length (queue (List.fold_left init_node keys st))
   <= List.length keys + List.length (queue st))%nat.
Proof.
  revert st. induction keys as [|k rest IH]; intros st; simpl; [lia|].
  etransitivity; [apply IH|]. simpl.
  assert (H := set_add_length k (queue st)). lia.
Qed.

Lemma init_search_queue_length g start :
  (List.length (queue (init_search g start)) <= List.length (Obj.keys g))%nat.
Proof.
  unfold init_search. simpl.
  etransitivity; [apply init_fold_queue_length|]. simpl. lia.
Qed.

Section Bound.
Variable n : Network.

Let g := networkGraph n.
Let M := max_cost g.
Let K := Z.of_nat (List.length (Obj.keys g)).

Hypothesis Hcost : costs_within g = true.

(** One turn of the inner loop: what it stores is the distance of
    [m], at most [B], plus one cost. *)
Lemma relax_within m B dp e :
  In e (getNeighbors m g) ->
  within (B + M) (fst dp) /\
  (forall dm, Obj.get m (fst dp) = Some (Finite dm) -> (dm <= B)%Z) ->
  within (B + M) (fst (relax n m dp e)) /\
  (forall dm, Obj.get m (fst (relax n m dp e)) = Some (Finite dm) ->
              (dm <= B)%Z).
Proof.
  intros Hin [Hw Hm]. unfold relax.
  destruct (truthy (Obj.get (vertex e) (nodeFailures n))
            || truthy (Obj.get (linkKey m (vertex e)) (linkFailures n)))%bool;
    [now split|].
  destruct (Obj.get m (fst dp)) as [[dm|]|] eqn:Em in |- *; cbn [dist_add];
    [| simpl; now split | simpl; now split].
  destruct (dist_lt (Some (Finite (dm + cost e)))
                    (Obj.get (vertex e) (fst dp))) eqn:Hlt;
    [|now split].
  cbn [fst snd].
  assert (Hc0 : (0 <= cost e)%Z).
  { apply GraphFacts.costs_nonneg_spec with g m;
      [now apply costs_within_nonneg | exact Hin]. }
  assert (HcM : (cost e <= M)%Z) by now apply max_cost_ge with m.
  assert (Hdm : (0 <= dm <= B)%Z).
  { split; [apply (Hw m dm Em) | now apply Hm]. }
  split.
  - intros x d. rewrite ObjFacts.get_set.
    destruct (String.eqb x (vertex e)); [|apply Hw].
    intros [= <-]. lia.
  - intros d. rewrite ObjFacts.get_set.
    destruct (String.eqb_spec m (vertex e)) as [E|_]; [|now apply Hm].
    rewrite <- E, Em in Hlt. simpl in Hlt. apply Z.ltb_lt in Hlt. lia.
Qed.

Lemma relax_fold_within m B l :
  forall dp,
    (forall e, In e l -> In e (getNeighbors m g)) ->
    within (B + M) (fst dp) /\
    (forall dm, Obj.get m (fst dp) = Some (Finite dm) -> (dm <= B)%Z) ->
    within (B + M) (fst (List.fold_left (relax n m) l dp)).
Proof.
  induction l as [|e rest IH]; intros dp Hl H; simpl; [exact (proj1 H)|].
  apply IH.
  - intros e' He'. apply Hl. now right.
  - apply relax_within; [apply Hl; now left | exact H].
Qed.

(** Between two turns of the main loop no distance is above the
    largest cost times the number of vertices that have left the
    queue. *)
Lemma search_loop_within fuel :
  forall st,
    (Z.of_nat (List.length (queue st)) <= K)%Z ->
    within (M * (K - Z.of_nat (List.length (queue st)))) (distances st) ->
    let st' := search_loop n fuel st in
    (Z.of_nat (List.length (queue st')) <= K)%Z /\
    within (M * (K - Z.of_nat (List.length (queue st')))) (distances st').
Proof.
  assert (HM : (0 <= M)%Z) by apply max_cost_nonneg.
  induction fuel as [|fuel IH]; intros st Hq Hw; cbn [search_loop];
    [now split|].
  destruct (select_min (distances st) (queue st)) as [m|] eqn:Hsel;
    [|now split].
  destruct (is_infinity (Obj.get m (distances st))); [now split|].
  apply SearchFacts.select_min_In in Hsel.
  assert (Hlen := SearchFacts.set_delete_shorter _ _ Hsel).
  apply IH; cbn [visit queue distances].
  - lia.
  - set (B := (M * (K - Z.of_nat (List.length (queue st))))%Z) in *.
    assert (Hw' : within (B + M)
                    (fst (List.fold_left (relax n m) (getNeighbors m g)
                            (distances st, previous st)))).
    { apply relax_fold_within; [auto|]. cbn [fst]. split.
      - intros x d Hx. specialize (Hw x d Hx). lia.
      - intros dm Hdm. apply (Hw m dm Hdm). }
    intros x d Hx. specialize (Hw' x d Hx).
    split; [lia|]. unfold B in Hw'. nia.
Qed.

(** Every distance the search holds between two turns of its main loop
    is an integer from [0] to [2^53], and so is every sum that the next
    turn computes. *)
Lemma search_stays_exact start fuel :
  let st := search_loop n fuel (init_search g start) in
  within exact_bound (distances st) /\
  (forall m dm e,
     In m (queue st) ->
     Obj.get m (distances st) = Some (Finite dm) ->
     In e (getNeighbors m g) ->
     (0 <= dm + cost e <= exact_bound)%Z).
Proof.
  assert (HM : (0 <= M)%Z) by apply max_cost_nonneg.
  assert (HMK : (M * K <= exact_bound)%Z) by now apply costs_within_bound.
  assert (Hq0 := init_search_queue_length g start).
  destruct (@search_loop_within fuel (init_search g start)) as [Hq Hw].
  - unfold K. lia.
  - intros x d Hx. apply SearchFacts.init_search_distances in Hx.
    destruct Hx as [Hx|[_ [= ->]]]; [discriminate|].
    split; [lia|]. apply Z.mul_nonneg_nonneg; [exact HM | unfold K; lia].
  - cbv zeta.
    set (st := search_loop n fuel (init_search g start)) in *.
    assert (Hlen : (0 <= Z.of_nat (List.length (queue st)))%Z) by lia.
    split.
    + intros x d Hx. specialize (Hw x d Hx). split; [lia|]. nia.
    + intros m dm e Hm Hdm He.
      assert (Hc0 : (0 <= cost e)%Z).
      { apply GraphFacts.costs_nonneg_spec with g m;
          [now apply costs_within_nonneg | exact He]. }
      assert (HcM : (cost e <= M)%Z) by now apply max_cost_ge with m.
      specialize (Hw m dm Hdm).
      assert (Hpos : (1 <= Z.of_nat (List.length (queue st)))%Z).
      { destruct (queue st); [destruct Hm | simpl; lia]. }
      split; [lia|]. nia.
Qed.

End Bound.

End Exact.

(** X11.  On a graph whose costs the numbers of JavaScript add exactly
    (none negative, the largest times the number of vertices at most
    [2^53]), in which no vertex has the name of a member of
    [Object.prototype], and from a start that is a vertex: every
    distance the search holds between two turns of its main loop, and
    every sum the next turn computes, is an integer from [0] to [2^53];
    and the distances the search ends with are the least costs of walks
    along usable entries (target in the graph and up, link flag not set
    as read from the side the walk comes from): a finite distance is the
    cost of some walk from the start, and no walk to the vertex is
    cheaper; a vertex that a walk reaches has a finite distance. *)
Theorem X11_distances_are_least_walk_costs :
  forall n start x,
    costs_within (networkGraph n) = true ->
    plain_labels (networkGraph n) = true ->
    Obj.has start (networkGraph n) = true ->
    (forall turns,
       let st := search_loop n turns (init_search (networkGraph n) start) in
       within exact_bound (distances st) /\
       (forall m dm e,
          In m (queue st) ->
          Obj.get m (distances st) = Some (Finite dm) ->
          In e (GraphOps.getNeighbors m (networkGraph n)) ->
          (0 <= dm + cost e <= exact_bound)%Z)) /\
    (forall d, distance_to n start x = Some (Finite d) ->
               exists p, walk n start p x d) /\
    (forall p w, walk n start p x w ->
               exists d, distance_to n start x = Some (Finite d) /\
                         (d <= w)%Z).
Proof.
  intros n start x Hw _ Hs.
  assert (Hc := Exact.costs_within_nonneg _ Hw).
  split; [|split].
  - intros turns. now apply Exact.search_stays_exact.
  - intros d Hd.
    exact (@inv_walk _ _ _ (Shortest.dijkstra_settled n start Hc Hs) x d Hd).
  - intros p w Hwalk. exact (Shortest.dijkstra_least Hc Hs Hwalk).
Qed.

Lemma X11_distances_are_least_walk_costs_witness :
  exists p, walk triangle "a" p "c" 2.
Proof.
  apply (proj1 (proj2 (@X11_distances_are_least_walk_costs triangle "a" "c"
                         eq_refl eq_refl eq_refl)) 2%Z).
  vm_compute. reflexivity.
Defined.

(** X12.  On a graph whose costs the numbers of JavaScript add exactly,
    in which no vertex has the name of a member of [Object.prototype]
    or is labelled by the empty string, from a start that is a vertex
    and for an end that is not such a name either: a path that
    [findShortestPath] returns is the vertex sequence of a walk from
    [start] to [end] along usable entries, its cost is the distance
    found for [end], and no walk from [start] to [end] is cheaper. *)
Theorem X12_returned_path_is_cheapest_walk :
  forall n start end_ fuel p,
    costs_within (networkGraph n) = true ->
    plain_labels (networkGraph n) = true ->
    inherited end_ = false ->
    Obj.has start (networkGraph n) = true ->
    Obj.has "" (networkGraph n) = false ->
    findShortestPath fuel n start end_ = Some (Some p) ->
    exists d,
      walk n start p end_ d /\
      distance_to n start end_ = Some (Finite d) /\
      forall p' w, walk n start p' end_ w -> (d <= w)%Z.
Proof.
  intros n start end_ fuel p Hw _ _ Hs Hl.
  apply Paths.returned_path_cheapest; try assumption.
  now apply Exact.costs_within_nonneg.
Qed.

Lemma X12_returned_path_is_cheapest_walk_witness :
  exists d,
    walk (set_link "a-c" true triangle) "a" ["a"; "b"; "c"] "c" d /\
    distance_to (set_link "a-c" true triangle) "a" "c" = Some (Finite d) /\
    forall p' w, walk (set_link "a-c" true triangle) "a" p' "c" w ->
                 (d <= w)%Z.
Proof.
  apply (@X12_returned_path_is_cheapest_walk
           (set_link "a-c" true triangle) "a" "c" 4 ["a"; "b"; "c"]);
    vm_compute; reflexivity.
Defined.

(** X13.  On a graph whose costs are all positive [findShortestPath]
    returns (some fuel is enough for the walk back, and more changes
    nothing).  When moreover the numbers of JavaScript add the costs
    exactly, no vertex has the name of a member of [Object.prototype]
    or is labelled by the empty string, the start is a vertex and the
    end is not such a name either, the result is a path exactly when
    [end] differs from [start] and some walk along usable entries leads
    from [start] to [end]; otherwise it is [null]. *)
Theorem X13_path_returned_iff_reachable :
  forall n start end_,
    GraphOps.costs_positive (networkGraph n) = true ->
    exists fuel r,
      (forall k, findShortestPath (fuel + k) n start end_ = Some r) /\
      (costs_within (networkGraph n) = true ->
       plain_labels (networkGraph n) = true ->
       inherited end_ = false ->
       Obj.has start (networkGraph n) = true ->
       Obj.has "" (networkGraph n) = false ->
       ((exists p, r = Some p) <->
        (end_ <> start /\ exists p w, walk n start p end_ w))).
Proof.
  intros n start end_ Hpos.
  assert (Hc := Paths.costs_positive_nonneg _ Hpos).
  destruct (findShortestPath_returns n start end_ Hpos) as (fuel & r & Hr).
  exists fuel, r. split; [exact Hr|]. intros _ _ _ Hs Hl.
  assert (Hr0 := Hr 0%nat). rewrite Nat.add_0_r in Hr0. split.
  - intros [p ->].
    destruct (@Paths.returned_path_cheapest n start Hc Hs Hl fuel end_ p Hr0)
      as (d & Hw & _). split; [|eauto].
    intros ->.
    destruct (SearchFacts.dijkstra_start_fixed n start Hc) as (_ & Hp & _).
    assert (H2 := @findShortestPath_more fuel 2 n start start (Some p) Hr0).
    unfold findShortestPath in H2.
    replace (fuel + 2)%nat with (S (S fuel)) in H2 by lia.
    rewrite (SearchFacts.reconstruct_no_predecessor fuel _ _ Hp) in H2.
    simpl in H2. rewrite SearchFacts.found_short in H2; [discriminate|].
    destruct (String.eqb start ""); simpl; lia.
  - intros (Hne & p & w & Hw).
    destruct (Shortest.dijkstra_least Hc Hs Hw) as (d & Hd & _).
    unfold findShortestPath in Hr0.
    destruct (reconstruct fuel _ _ _) as [path|] eqn:E; [|discriminate].
    destruct (@Paths.reconstruct_walk n start Hc Hs Hl fuel end_ d [] path
                Hd E) as (q & Hq & ->).
    apply Paths.walk_long in Hq; [|exact Hne].
    simpl in Hr0. injection Hr0 as <-. unfold found.
    rewrite app_nil_r. apply Nat.ltb_lt in Hq. rewrite Hq. eauto.
Qed.

Lemma X13_path_returned_iff_reachable_witness :
  exists fuel r,
    (forall k, findShortestPath (fuel + k) triangle "a" "c" = Some r) /\
    ((exists p, r = Some p) <->
     ("c" <> "a" /\ exists p w, walk triangle "a" p "c" w)).
Proof.
  destruct (@X13_path_returned_iff_reachable triangle "a" "c" eq_refl)
    as (fuel & r & Hr & Hiff).
  exists fuel, r. split; [exact Hr|]. apply Hiff; reflexivity.
Defined.

(** X14.  When [start] or [end] is not a vertex of the graph, and [end]
    is a vertex or else not the name of a member of [Object.prototype]
    (which the table [previous] would inherit), [findShortestPath]
    returns [null], whatever the costs and flags. *)
Theorem X14_unknown_endpoint_no_path :
  forall n start end_ fuel,
    Obj.has start (networkGraph n) = false \/
    Obj.has end_ (networkGraph n) = false ->
    Obj.has end_ (networkGraph n) = true \/ inherited end_ = false ->
    (2 <= fuel)%nat ->
    findShortestPath fuel n start end_ = Some None.
Proof.
  intros n start end_ fuel H _ Hfuel.
  assert (Hp : prev_of (previous (dijkstra n start)) end_ = None).
  { destruct (Obj.has start (networkGraph n)) eqn:Hs.
    - destruct H as [H|H]; [discriminate|].
      apply SearchInputs.dijkstra_unknown_end; [exact H | congruence].
    - rewrite SearchInputs.dijkstra_unknown_start by exact Hs.
      apply SearchFacts.init_search_previous. }
  destruct fuel as [|[|fuel]]; try lia.
  unfold findShortestPath.
  rewrite (SearchFacts.reconstruct_no_predecessor fuel _ _ Hp).
  simpl. f_equal. apply SearchFacts.found_short.
  destruct (String.eqb end_ ""); simpl; lia.
Qed.

Lemma X14_unknown_endpoint_no_path_witness :
  findShortestPath 2 triangle "z" "c" = Some None /\
  findShortestPath 2 triangle "a" "z" = Some None.
Proof.
  split.
  - apply (@X14_unknown_endpoint_no_path triangle "z" "c" 2);
      [left; reflexivity | left; reflexivity | lia].
  - apply (@X14_unknown_endpoint_no_path triangle "a" "z" 2);
      [right; reflexivity | right; reflexivity | lia].
Defined.

(** X15.  [findShortestPath] depends on the flag tables only through
    which flags are truthy: two networks with the same graph whose
    tables read alike give the same result.  So after [resetNetwork]
    the result is the one of the bare graph with nothing flagged,
    whatever was flagged before. *)
Theorem X15_search_after_reset_is_failure_free :
  (forall n1 n2 fuel start end_,
     same_failures n1 n2 ->
     findShortestPath fuel n1 start end_
     = findShortestPath fuel n2 start end_) /\
  (forall w w' fuel start end_,
     resetNetwork w = Done tt w' ->
     findShortestPath fuel (net w') start end_
     = findShortestPath fuel (unflagged (networkGraph (net w))) start end_).
Proof.
  assert (Hgen : forall n1 n2 fuel start end_,
            same_failures n1 n2 ->
            findShortestPath fuel n1 start end_
            = findShortestPath fuel n2 start end_).
  { intros n1 n2 fuel start end_ H. unfold findShortestPath.
    now rewrite (SearchInputs.dijkstra_same_failures start H). }
  split; [exact Hgen|].
  intros w w' fuel start end_ [= <-]. apply Hgen.
  split; [reflexivity|]. split; intros k; simpl;
    rewrite ObjFacts.get_map_values;
    match goal with |- context [Obj.get k ?o] => destruct (Obj.get k o) end;
    reflexivity.
Qed.

Lemma X15_search_after_reset_is_failure_free_witness :
  exists w',
    resetNetwork (mkWorld (set_node "c" true triangle) 6) = Done tt w' /\
    findShortestPath 4 (net w') "a" "c"
    = findShortestPath 4 (unflagged triangle_graph) "a" "c".
Proof.
  eexists. split; [reflexivity|].
  apply (proj2 X15_search_after_reset_is_failure_free
               (mkWorld (set_node "c" true triangle) 6)).
  reflexivity.
Defined.

Lemma X6_mutators_keep_graph_simple_witness :
  simple (GraphOps.addVertex "d" triangle_graph) /\
  simple (GraphOps.removeVertex "b" triangle_graph) /\
  simple (GraphOps.removeEdge "a" "b" triangle_graph).
Proof.
  assert (Hs : simple triangle_graph).
  { apply (@SimFacts.built_simple (fun _ => 0) (mkWorld triangle 6)).
    apply built_run_all with triangle_commands
                             (mkWorld (blank (Num 0) (Num 0)) 0);
      [apply built_blank | exact triangle_built]. }
  split; [|split].
  - exact (proj1 (X6_mutators_keep_graph_simple "a" "d" 0%Z Hs)).
  - exact (proj1 (proj2 (X6_mutators_keep_graph_simple "a" "b" 0%Z Hs))).
  - exact (proj1 (proj2 (proj2
             (X6_mutators_keep_graph_simple "a" "b" 0%Z Hs)))).
Defined.

(** ** The traversals *)

Module Traversal.
Import GraphOps.

Lemma truthy_set x y (visited : Obj.t bool) :
  truthy (Obj.get x (Obj.set y true visited))
  = (String.eqb x y || truthy (Obj.get x visited))%bool.
Proof. rewrite ObjFacts.get_set. now destruct (String.eqb x y). Qed.

Lemma reads_truthy_plain (visited : Obj.t bool) x :
  inherited x = false -> reads_truthy visited x = truthy (Obj.get x visited).
Proof.
  intros Hx. unfold reads_truthy.
  destruct (Obj.get x visited) as [[|]|]; auto.
Qed.

Lemma plain_labels_has g x :
  plain_labels g = true -> Obj.has x g = true -> inherited x = false.
Proof.
  unfold plain_labels. rewrite forallb_forall. intros Hp Hx.
  apply ObjFacts.has_In_keys in Hx. apply Hp in Hx.
  now destruct (inherited x).
Qed.

Lemma lists_In v l : lists v l = true <-> exists e, In e l /\ vertex e = v.
Proof.
  unfold lists. rewrite existsb_exists. split; intros (e & H1 & H2);
    exists e; (split; [exact H1|]); now apply String.eqb_eq.
Qed.

Lemma reaches_has g s x :
  closed g -> Obj.has s g = true -> reaches g s x -> Obj.has x g = true.
Proof.
  intros Hc Hs. induction 1 as [|x y _ _ Hl]; [exact Hs|].
  apply lists_In in Hl. destruct Hl as (e & Hin & <-). now apply Hc with x.
Qed.

Lemma getNeighbors_Some v g l : Obj.get v g = Some l -> getNeighbors v g = l.
Proof. unfold getNeighbors. now intros ->. Qed.

(** A duplicate-free list of vertices is no longer than the list of
    keys. *)
Lemma NoDup_keys_length (g : Graph) l :
  NoDup l -> (forall x, In x l -> Obj.has x g = true) ->
  (List.length l <= List.length (Obj.keys g))%nat.
Proof.
  intros Hnd Hin. apply NoDup_incl_length; [exact Hnd|].
  intros x Hx. now apply ObjFacts.has_In_keys, Hin.
Qed.

(** *** Breadth first *)

Section Breadth.
Variable g : Graph.
Variable start : string.

Lemma bfs_enqueue_fold neighbors :
  forall visited queue log,
    (forall e, In e neighbors -> inherited (vertex e) = false) ->
    (forall e, In e neighbors -> reaches g start (vertex e)) ->
    (forall x, truthy (Obj.get x visited) = true <-> In x (log ++ queue)) ->
    NoDup (log ++ queue) ->
    let vq := List.fold_left bfs_enqueue neighbors (visited, queue) in
    (forall x, truthy (Obj.get x (fst vq)) = true <-> In x (log ++ snd vq)) /\
    NoDup (log ++ snd vq) /\
    (exists more, snd vq = queue ++ more /\
                  forall x, In x more -> reaches g start x) /\
    (forall e, In e neighbors -> In (vertex e) (log ++ snd vq)).
Proof.
  induction neighbors as [|e rest IH]; intros visited queue log Hp Hr Hv Hnd.
  - simpl. split; [exact Hv|]. split; [exact Hnd|]. split.
    + exists []. split; [now rewrite app_nil_r | intros x []].
    + intros e [].
  - cbn [List.fold_left].
    destruct (truthy (Obj.get (vertex e) visited)) eqn:Hm.
    + replace (bfs_enqueue (visited, queue) e) with (visited, queue)
        by (unfold bfs_enqueue; cbn [fst snd];
            rewrite reads_truthy_plain by (apply Hp; now left);
            now rewrite Hm).
      destruct (IH visited queue log) as (A & B & (more & C1 & C2) & D);
        try assumption.
      { intros e' He'. apply Hp. now right. }
      { intros e' He'. apply Hr. now right. }
      split; [exact A|]. split; [exact B|]. split; [now exists more|].
      intros e' [<-|He']; [|now apply D].
      apply Hv in Hm. rewrite C1, app_assoc. apply in_or_app. now left.
    + replace (bfs_enqueue (visited, queue) e)
        with (Obj.set (vertex e) true visited, queue ++ [vertex e])
        by (unfold bfs_enqueue; cbn [fst snd];
            rewrite reads_truthy_plain by (apply Hp; now left);
            now rewrite Hm).
      destruct (IH (Obj.set (vertex e) true visited) (queue ++ [vertex e])
                   log) as (A & B & (more & C1 & C2) & D).
      * intros e' He'. apply Hp. now right.
      * intros e' He'. apply Hr. now right.
      * intros x. rewrite truthy_set, orb_true_iff, Hv, String.eqb_eq.
        rewrite !in_app_iff. simpl. intuition congruence.
      * rewrite app_assoc. apply NoDup_app; [exact Hnd | | ].
        -- repeat constructor. intros [].
        -- intros x Hx [<-|[]]. apply Hv in Hx. congruence.
      * split; [exact A|]. split; [exact B|]. split.
        -- exists (vertex e :: more). split.
           ++ rewrite C1, <- app_assoc. reflexivity.
           ++ intros x [<-|Hx]; [apply Hr; now left | now apply C2].
        -- intros e' [<-|He']; [|now apply D].
           rewrite C1, !in_app_iff. simpl. tauto.
Qed.

Hypothesis Hclosed : closed g.
Hypothesis Hplain : plain_labels g = true.
Hypothesis Hstart : Obj.has start g = true.

Lemma bfs_turn visited v rest log neighbors :
  bfs_inv g start visited (v :: rest) log ->
  Obj.get v g = Some neighbors ->
  let vq := List.fold_left bfs_enqueue neighbors (visited, rest) in
  bfs_inv g start (fst vq) (snd vq) (log ++ [v]).
Proof.
  intros [Hv Hnd Hr Hd [tail Hf]] Hg vq.
  assert (Hrv : reaches g start v).
  { apply Hr, in_or_app. right. now left. }
  destruct (@bfs_enqueue_fold neighbors visited rest (log ++ [v]))
    as (A & B & (more & C1 & C2) & D).
  - intros e He. apply plain_labels_has with g; [exact Hplain|].
    apply Hclosed with v. now rewrite (getNeighbors_Some _ _ Hg).
  - intros e He. apply reaches_step with v; [exact Hrv|].
    rewrite (getNeighbors_Some _ _ Hg). apply lists_In. eauto.
  - intros x. rewrite Hv, <- app_assoc. reflexivity.
  - now rewrite <- app_assoc.
  - fold vq in A, B, C1, D. split.
    + exact A.
    + exact B.
    + intros x. rewrite C1, app_assoc, in_app_iff.
      intros [Hx|Hx]; [|now apply C2].
      apply Hr. now rewrite <- app_assoc in Hx.
    + intros x y Hx Hl. apply in_app_or in Hx. destruct Hx as [Hx|[<-|[]]].
      * specialize (Hd x y Hx Hl). rewrite C1, !app_assoc.
        apply in_or_app. left. now rewrite <- app_assoc.
      * rewrite (getNeighbors_Some _ _ Hg) in Hl. apply lists_In in Hl.
        destruct Hl as (e & He & <-). now apply D.
    + exists (tail ++ more). rewrite C1, !app_assoc.
      rewrite <- (app_assoc log [v] rest). simpl. rewrite Hf. reflexivity.
Qed.

Lemma bfs_loop_ends fuel :
  forall visited queue log,
    bfs_inv g start visited queue log ->
    (List.length (Obj.keys g) < fuel + List.length log)%nat ->
    exists log',
      bfs_loop fuel g visited queue log = Finished log' /\
      NoDup log' /\
      (exists tail, log' = start :: tail) /\
      forall v, In v log' <-> reaches g start v.
Proof.
  induction fuel as [|fuel IH]; intros visited queue log Inv Hfuel.
  - exfalso. destruct Inv as [_ Hnd Hr _ _].
    assert (List.length (log ++ queue) <= List.length (Obj.keys g))%nat.
    { apply NoDup_keys_length; [exact Hnd|]. intros x Hx.
      apply reaches_has with start; auto. }
    rewrite length_app in H. simpl in Hfuel. lia.
  - destruct queue as [|v rest]; cbn [bfs_loop].
    + destruct Inv as [_ Hnd Hr Hd Hf]. rewrite app_nil_r in *.
      exists log. split; [reflexivity|]. split; [exact Hnd|].
      split; [exact Hf|]. intros v. split; [apply Hr|].
      induction 1 as [|x y _ IHx Hl].
      * destruct Hf as [tail ->]. now left.
      * exact (Hd x y IHx Hl).
    + assert (Hv : Obj.has v g = true).
      { apply reaches_has with start; auto.
        apply (bfs_reached Inv), in_or_app. right. now left. }
      unfold Obj.has in Hv.
      destruct (Obj.get v g) as [neighbors|] eqn:Hg; [|discriminate].
      cbv zeta. apply IH.
      * now apply bfs_turn.
      * rewrite length_app. simpl. lia.
Qed.

End Breadth.

(** *** Depth first *)

Lemma dfs_push_fold visited neighbors :
  forall stack,
    let stack' := List.fold_left (dfs_push visited) neighbors stack in
    (forall x, In x stack' <->
       In x stack \/
       (reads_truthy visited x = false /\
        exists e, In e neighbors /\ vertex e = x)) /\
    (List.length stack' <= List.length stack + List.length neighbors)%nat.
Proof.
  induction neighbors as [|e rest IH]; intros stack; cbn [List.fold_left].
  - cbv zeta. split; [|simpl; lia]. intros x. split; [now left|].
    intros [H|(_ & e & [] & _)]. exact H.
  - destruct (IH (dfs_push visited stack e)) as [A B]. cbv zeta. split.
    + intros x. rewrite A. unfold dfs_push.
      destruct (reads_truthy visited (vertex e)) eqn:Hm.
      * split.
        -- intros [H|(Hx & e' & He' & <-)]; [now left|].
           right. split; [exact Hx|]. exists e'. split; [now right|].
           reflexivity.
        -- intros [H|(Hx & e' & [<-|He'] & <-)]; [now left | congruence |].
           right. split; [exact Hx|]. now exists e'.
      * simpl. split.
        -- intros [[<-|H]|(Hx & e' & He' & <-)].
           ++ right. split; [exact Hm|]. exists e. split; [now left|].
              reflexivity.
           ++ now left.
           ++ right. split; [exact Hx|]. exists e'. split; [now right|].
              reflexivity.
        -- intros [H|(Hx & e' & [<-|He'] & <-)].
           ++ left. now right.
           ++ left. now left.
           ++ right. split; [exact Hx|]. now exists e'.
    + etransitivity; [exact B|]. unfold dfs_push.
      destruct (reads_truthy _ _); simpl; lia.
Qed.

Lemma existsb_eqb_In x l :
  List.existsb (String.eqb x) l = true <-> In x l.
Proof.
  rewrite existsb_exists. split.
  - intros (y & Hy & E). apply String.eqb_eq in E. now subst.
  - intros H. exists x. split; [exact H | apply String.eqb_refl].
Qed.

Lemma pending_more (g : Graph) log v :
  (pending (log ++ [v]) g <= pending log g)%nat.
Proof.
  unfold pending. induction g as [|[k l] rest IH]; simpl; [lia|].
  rewrite existsb_app.
  destruct (List.existsb (String.eqb k) log); simpl; [exact IH|].
  destruct (String.eqb k v); simpl; lia.
Qed.

(** Logging a vertex takes its entries off what is pending. *)
Lemma pending_visit (g : Graph) log v neighbors :
  Obj.get v g = Some neighbors -> ~ In v log ->
  (pending (log ++ [v]) g + List.length neighbors <= pending log g)%nat.
Proof.
  intros Hg Hv. apply (proj2 (not_iff_compat (existsb_eqb_In v log))) in Hv.
  apply not_true_is_false in Hv.
  revert Hg. induction g as [|[k l] rest IH]; simpl; [discriminate|].
  destruct (String.eqb_spec v k) as [->|Hne].
  - intros [= ->]. unfold pending. simpl. rewrite existsb_app, Hv. simpl.
    rewrite String.eqb_refl. simpl.
    assert (H := pending_more rest log k). unfold pending in H. lia.
  - intros Hg. specialize (IH Hg). unfold pending in *. simpl.
    rewrite existsb_app. simpl.
    assert (Hkv : String.eqb k v = false)
      by (apply String.eqb_neq; congruence).
    rewrite Hkv, orb_false_r.
    destruct (List.existsb (String.eqb k) log); simpl; lia.
Qed.

Section Depth.
Variable g : Graph.
Variable start : string.

Hypothesis Hclosed : closed g.
Hypothesis Hplain : plain_labels g = true.
Hypothesis Hstart : Obj.has start g = true.

Lemma dfs_skip visited v rest log :
  dfs_inv g start visited (v :: rest) log ->
  truthy (Obj.get v visited) = true ->
  dfs_inv g start visited rest log.
Proof.
  intros [Hv Hnd Hr Hd [tail Hf]] Hm. apply Hv in Hm. split.
  - exact Hv.
  - exact Hnd.
  - intros x Hx. apply Hr. apply in_app_or in Hx.
    apply in_or_app. destruct Hx; [now left | right; now right].
  - intros x y Hx Hl. specialize (Hd x y Hx Hl).
    apply in_app_or in Hd. apply in_or_app.
    destruct Hd as [H|[<-|H]]; auto.
  - destruct log as [|h l0]; [destruct Hm|].
    simpl in Hf. injection Hf as -> _. now exists (l0 ++ rest).
Qed.

Lemma dfs_turn visited v rest log neighbors :
  dfs_inv g start visited (v :: rest) log ->
  truthy (Obj.get v visited) = false ->
  Obj.get v g = Some neighbors ->
  dfs_inv g start (Obj.set v true visited)
          (List.fold_left (dfs_push (Obj.set v true visited)) neighbors rest)
          (log ++ [v]).
Proof.
  intros [Hv Hnd Hr Hd [tail Hf]] Hm Hg.
  assert (Hnv : ~ In v log) by (rewrite <- Hv; congruence).
  assert (Hrv : reaches g start v).
  { apply Hr, in_or_app. right. now left. }
  destruct (dfs_push_fold (Obj.set v true visited) neighbors rest) as [A _].
  assert (Hv' : forall x, truthy (Obj.get x (Obj.set v true visited)) = true
                          <-> In x (log ++ [v])).
  { intros x. rewrite truthy_set, orb_true_iff, Hv, String.eqb_eq.
    rewrite in_app_iff. simpl. intuition congruence. }
  split.
  - exact Hv'.
  - apply NoDup_app; [exact Hnd | repeat constructor; intros [] |].
    intros x Hx [<-|[]]. contradiction.
  - intros x Hx. apply in_app_or in Hx. destruct Hx as [Hx|Hx].
    + apply in_app_or in Hx. destruct Hx as [Hx|[<-|[]]]; [|exact Hrv].
      apply Hr, in_or_app. now left.
    + apply A in Hx. destruct Hx as [Hx|(_ & e & He & <-)].
      * apply Hr, in_or_app. right. now right.
      * apply reaches_step with v; [exact Hrv|].
        rewrite (getNeighbors_Some _ _ Hg). apply lists_In. eauto.
  - intros x y Hx Hl. apply in_app_or in Hx. destruct Hx as [Hx|[<-|[]]].
    + specialize (Hd x y Hx Hl). apply in_app_or in Hd.
      rewrite !in_app_iff, A. simpl. destruct Hd as [H|[<-|H]]; tauto.
    + rewrite (getNeighbors_Some _ _ Hg) in Hl. apply lists_In in Hl.
      destruct Hl as (e & He & <-).
      assert (Hpe : inherited (vertex e) = false).
      { apply plain_labels_has with g; [exact Hplain|].
        apply Hclosed with v. now rewrite (getNeighbors_Some _ _ Hg). }
      destruct (truthy (Obj.get (vertex e) (Obj.set v true visited))) eqn:E.
      * apply in_or_app. left. now apply Hv'.
      * apply in_or_app. right. apply A. right.
        split; [now rewrite reads_truthy_plain | eauto].
  - destruct log as [|h l0]; simpl in Hf.
    + injection Hf as -> _. simpl. eauto.
    + injection Hf as -> _. simpl. eauto.
Qed.

Lemma dfs_loop_ends fuel :
  forall visited stack log,
    dfs_inv g start visited stack log ->
    (List.length stack + pending log g < fuel)%nat ->
    exists log',
      dfs_loop fuel g visited stack log = Finished log' /\
      NoDup log' /\
      (exists tail, log' = start :: tail) /\
      forall v, In v log' <-> reaches g start v.
Proof.
  induction fuel as [|fuel IH]; intros visited stack log Inv Hfuel; [lia|].
  destruct stack as [|v rest]; cbn [dfs_loop].
  - destruct Inv as [_ Hnd Hr Hd Hf]. rewrite app_nil_r in *.
    exists log. split; [reflexivity|]. split; [exact Hnd|].
    split; [exact Hf|]. intros v. split; [apply Hr|].
    induction 1 as [|x y _ IHx Hl].
    + destruct Hf as [tail ->]. now left.
    + exact (Hd x y IHx Hl).
  - assert (Hv : Obj.has v g = true).
    { apply reaches_has with start; auto.
      apply (dfs_reached Inv), in_or_app. right. now left. }
    rewrite reads_truthy_plain by now apply plain_labels_has with g.
    destruct (truthy (Obj.get v visited)) eqn:Hm.
    + apply IH; [now apply dfs_skip with v | simpl in Hfuel; lia].
    + unfold Obj.has in Hv.
      destruct (Obj.get v g) as [neighbors|] eqn:Hg; [|discriminate].
      cbv zeta. apply IH; [now apply dfs_turn|].
      destruct (dfs_push_fold (Obj.set v true visited) neighbors rest)
        as [_ B].
      assert (Hnv : ~ In v log).
      { rewrite <- (dfs_marked Inv). congruence. }
      assert (P := @pending_visit g log v neighbors Hg Hnv).
      simpl in Hfuel. lia.
Qed.

End Depth.

End Traversal.

(** X16.  On a graph whose entries all name vertices, and in which no
    vertex has the name of a member of [Object.prototype] (the table
    [visited] would read such a vertex as visited before it is), [BFS]
    from a vertex ends without throwing once it has more fuel than there
    are vertices; it logs the start first, logs no vertex twice, and
    logs exactly the vertices that can be reached from the start along
    adjacency entries. *)
Theorem X16_BFS_logs_reachable_once :
  forall g start fuel,
    closed g ->
    plain_labels g = true ->
    Obj.has start g = true ->
    (List.length (Obj.keys g) < fuel)%nat ->
    exists log,
      BFS fuel g start = Finished log /\
      NoDup log /\
      (exists tail, log = start :: tail) /\
      forall v, In v log <-> reaches g start v.
Proof.
  intros g start fuel Hc Hp Hs Hfuel. unfold BFS.
  apply Traversal.bfs_loop_ends;
    [exact Hc | exact Hp | exact Hs | | simpl; lia].
  split.
  - intros x. rewrite Traversal.truthy_set. simpl.
    rewrite orb_false_r, String.eqb_eq. intuition congruence.
  - repeat constructor. intros [].
  - intros x [<-|[]]. constructor.
  - intros x y [].
  - now exists [].
Qed.

(** X17.  On a graph whose entries all name vertices, and in which no
    vertex has the name of a member of [Object.prototype] (the table
    [visited] would read such a vertex as visited before it is), [DFS]
    from a vertex ends without throwing once it has more fuel than one
    plus the number of adjacency entries; it logs the start first, logs
    no vertex twice, and logs exactly the vertices that can be reached
    from the start along adjacency entries. *)
Theorem X17_DFS_logs_reachable_once :
  forall g start fuel,
    closed g ->
    plain_labels g = true ->
    Obj.has start g = true ->
    (1 + pending [] g < fuel)%nat ->
    exists log,
      DFS fuel g start = Finished log /\
      NoDup log /\
      (exists tail, log = start :: tail) /\
      forall v, In v log <-> reaches g start v.
Proof.
  intros g start fuel Hc Hp Hs Hfuel. unfold DFS.
  apply Traversal.dfs_loop_ends;
    [exact Hc | exact Hp | exact Hs | | simpl; lia].
  split.
  - intros x. simpl. split; [discriminate | intros []].
  - constructor.
  - intros x [<-|[]]. constructor.
  - intros x y [].
  - now exists [].
Qed.

(** X18.  Started from a label that is not a vertex, [BFS] logs that
    label and then throws, reading the adjacency list of [undefined].
    So does [DFS], unless the label is the name of a member of
    [Object.prototype]: the empty table [visited] then reads the label
    as visited already, and [DFS] skips it, logs nothing and returns. *)
Theorem X18_traversal_from_unknown_vertex_throws :
  forall g start fuel,
    Obj.has start g = false ->
    BFS (S fuel) g start = Thrown [start] /\
    DFS (S (S fuel)) g start
    = (if inherited start then Finished [] else Thrown [start]) /\
    (inherited start = false -> DFS (S fuel) g start = Thrown [start]).
Proof.
  intros g start fuel Hs. unfold Obj.has in Hs. unfold BFS, DFS.
  cbn [bfs_loop dfs_loop]. unfold reads_truthy. simpl.
  destruct (Obj.get start g); [discriminate|].
  split; [reflexivity|]. split.
  - now destruct (inherited start).
  - now intros ->.
Qed.

Lemma simple_is_closed g : simple g -> closed g.
Proof. intros [_ _ H]. exact H. Qed.

Lemma triangle_graph_closed : closed triangle_graph.
Proof.
  apply simple_is_closed.
  apply (@SimFacts.built_simple (fun _ => 0) (mkWorld triangle 6)).
  apply built_run_all with triangle_commands
                           (mkWorld (blank (Num 0) (Num 0)) 0);
    [apply built_blank | exact triangle_built].
Qed.

Lemma X16_BFS_logs_reachable_once_witness :
  exists log,
    BFS 4 triangle_graph "a" = Finished log /\
    NoDup log /\
    (exists tail, log = "a" :: tail) /\
    forall v, In v log <-> reaches triangle_graph "a" v.
Proof.
  apply (@X16_BFS_logs_reachable_once triangle_graph "a" 4).
  - exact triangle_graph_closed.
  - reflexivity.
  - reflexivity.
  - simpl. lia.
Defined.

Lemma X17_DFS_logs_reachable_once_witness :
  exists log,
    DFS 8 triangle_graph "a" = Finished log /\
    NoDup log /\
    (exists tail, log = "a" :: tail) /\
    forall v, In v log <-> reaches triangle_graph "a" v.
Proof.
  apply (@X17_DFS_logs_reachable_once triangle_graph "a" 8).
  - exact triangle_graph_closed.
  - reflexivity.
  - reflexivity.
  - apply Nat.ltb_lt. reflexivity.
Defined.

Lemma X18_traversal_from_unknown_vertex_throws_witness :
  BFS 1 triangle_graph "z" = Thrown ["z"] /\
  DFS 2 triangle_graph "z" = Thrown ["z"] /\
  DFS 1 triangle_graph "z" = Thrown ["z"].
Proof.
  destruct (@X18_traversal_from_unknown_vertex_throws
              triangle_graph "z" 0 eq_refl) as (A & B & C).
  split; [exact A|]. split; [exact B | exact (C eq_refl)].
Defined.

(** X19.  Whatever [Math.random()] returns and whatever the two
    probabilities are, the constructor's [initializeRouters] ends
    without throwing after exactly 43 samples; it always builds the same
    graph of 20 routers and 23 links (no link of the list is skipped as
    a duplicate), the flag of the i-th router is decided by the i-th
    sample and the flag of the k-th link, keyed [from-to], by sample
    20 + k. *)
Theorem X19_constructor_builds_fixed_topology :
  forall random p q,
    construct random p q
    = Done tt
        (mkWorld
           (mkNetwork shipped_graph
                      (shipped_nodeFailures random p)
                      (shipped_linkFailures random q)
                      false p q)
           43) /\
    List.length (Obj.keys shipped_graph) = 20%nat /\
    pending [] shipped_graph = 46%nat /\
    GraphOps.costs_positive shipped_graph = true.
Proof.
  intros random p q. split; [vm_compute; reflexivity|].
  split; [reflexivity|]. split; reflexivity.
Qed.

(** ** A whole tick *)

Lemma resample_result random w :
  NoDup (Obj.keys (nodeFailures (net w))) ->
  NoDup (Obj.keys (linkFailures (net w))) ->
  resample random w
  = Done tt
      (mkWorld
         (with_linkFailures
            (toggled random (linkFailureProbability (net w))
                     (drawn w + List.length (nodeFailures (net w)))
                     (linkFailures (net w)))
            (with_nodeFailures
               (toggled random (nodeFailureProbability (net w)) (drawn w)
                        (nodeFailures (net w)))
               (net w)))
         (drawn w + List.length (nodeFailures (net w))
          + List.length (linkFailures (net w)))).
Proof.
  intros Hn Hl. destruct w as [n d]. cbn [net drawn] in *.
  unfold resample, bind at 1, checkNodeFailures, bind at 1, getNet at 1.
  cbn [net drawn].
  rewrite (Resampling.forEach_checkNode random (nodeFailures n) []);
    [| reflexivity | exact Hn].
  unfold checkLinkFailures, bind, getNet. cbn [net drawn app].
  rewrite (Resampling.forEach_checkLink random (linkFailures n) []);
    [| reflexivity | exact Hl].
  reflexivity.
Qed.

(** X20.  On a graph whose costs are all positive a tick of the
    simulation always completes, without throwing: while paused it
    changes nothing, takes no sample and reports no path; while running
    it resamples every vertex flag and then every link flag (one sample
    each, in key order), leaves the graph alone, and reports what
    [findShortestPath("Router-1", "Router-20")] returns on the
    resampled flags. *)
Theorem X20_tick_completes :
  forall random w,
    GraphOps.costs_positive (networkGraph (net w)) = true ->
    NoDup (Obj.keys (nodeFailures (net w))) ->
    NoDup (Obj.keys (linkFailures (net w))) ->
    exists fuel r w',
      (forall k, tick random (fuel + k) w = Done r w') /\
      networkGraph (net w') = networkGraph (net w) /\
      (isPaused (net w) = true -> r = None /\ w' = w) /\
      (isPaused (net w) = false ->
       nodeFailures (net w')
       = toggled random (nodeFailureProbability (net w)) (drawn w)
                 (nodeFailures (net w)) /\
       linkFailures (net w')
       = toggled random (linkFailureProbability (net w))
                 (drawn w + List.length (nodeFailures (net w)))
                 (linkFailures (net w)) /\
       drawn w' = (drawn w + List.length (nodeFailures (net w))
                   + List.length (linkFailures (net w)))%nat /\
       forall k,
         findShortestPath (fuel + k) (net w') "Router-1" "Router-20"
         = Some r).
Proof.
  intros random w Hpos Hn Hl.
  destruct (isPaused (net w)) eqn:Hp.
  - exists 0%nat, None, w. split; [|split; [reflexivity|split]].
    + intros k. cbv [tick bind getNet]. rewrite Hp. reflexivity.
    + now split.
    + discriminate.
  - set (w1 := mkWorld
         (with_linkFailures
            (toggled random (linkFailureProbability (net w))
                     (drawn w + List.length (nodeFailures (net w)))
                     (linkFailures (net w)))
            (with_nodeFailures
               (toggled random (nodeFailureProbability (net w)) (drawn w)
                        (nodeFailures (net w)))
               (net w)))
         (drawn w + List.length (nodeFailures (net w))
          + List.length (linkFailures (net w)))).
    destruct (findShortestPath_returns (net w1) "Router-1" "Router-20" Hpos)
      as (fuel & r & Hr).
    exists fuel, r, w1. split; [|split; [reflexivity|split]].
    + intros k. cbv [tick bind getNet]. rewrite Hp.
      rewrite (resample_result random w Hn Hl). fold w1.
      unfold shortestPath. now rewrite Hr.
    + discriminate.
    + intros _. repeat split. exact Hr.
Qed.

Lemma X20_tick_completes_witness :
  exists fuel r w',
    forall k, tick (fun _ => 0) (fuel + k)
                   (mkWorld (mkNetwork shipped_graph
                               (shipped_nodeFailures (fun _ => 1) (Num 0))
                               (shipped_linkFailures (fun _ => 1) (Num 0))
                               false (Num (1 # 2)) (Num 0)) 43)
              = Done r w'.
Proof.
  destruct (@X20_tick_completes (fun _ => 0)
              (mkWorld (mkNetwork shipped_graph
                          (shipped_nodeFailures (fun _ => 1) (Num 0))
                          (shipped_linkFailures (fun _ => 1) (Num 0))
                          false (Num (1 # 2)) (Num 0)) 43))
    as (fuel & r & w' & H & _).
  - reflexivity.
  - vm_compute. repeat constructor; simpl; intuition discriminate.
  - vm_compute. repeat constructor; simpl; intuition discriminate.
  - exists fuel, r, w'. exact H.
Defined.

(** ** A vertex that fences a region *)

Lemma fenced_spec g region cut m e :
  fenced g region cut = true ->
  In m region -> In e (GraphOps.getNeighbors m g) ->
  In (vertex e) region \/ vertex e = cut.
Proof.
  unfold fenced. rewrite forallb_forall. intros H Hm He.
  specialize (H m Hm). rewrite forallb_forall in H. specialize (H e He).
  apply orb_true_iff in H. destruct H as [H|H].
  - left. now apply Traversal.existsb_eqb_In.
  - right. now apply String.eqb_eq.
Qed.

Lemma relax_keeps_fenced n region cut m dp e :
  fenced (networkGraph n) region cut = true ->
  node_down n cut ->
  In e (GraphOps.getNeighbors m (networkGraph n)) ->
  (forall x d, Obj.get x (fst dp) = Some (Finite d) -> In x region) /\
  (forall x p, prev_of (snd dp) x = Some p -> In x region) ->
  (forall x d, Obj.get x (fst (relax n m dp e)) = Some (Finite d) ->
               In x region) /\
  (forall x p, prev_of (snd (relax n m dp e)) x = Some p -> In x region).
Proof.
  intros Hf Hdown Hin [Hd Hp]. unfold relax.
  destruct (truthy (Obj.get (vertex e) (nodeFailures n))) eqn:Hv;
    [now split|].
  destruct (truthy (Obj.get (linkKey m (vertex e)) (linkFailures n)));
    [now split|].
  cbn [orb].
  destruct (Obj.get m (fst dp)) as [[dm|]|] eqn:Hm; cbn [dist_add];
    [| simpl; now split | simpl; now split].
  destruct (dist_lt _ _); [|now split]. cbn [fst snd].
  assert (Hx : In (vertex e) region).
  { destruct (fenced_spec _ _ _ _ _ Hf (Hd _ _ Hm) Hin) as [H|H];
      [exact H|].
    unfold node_down in Hdown. rewrite <- H in Hdown. congruence. }
  split.
  - intros x d. rewrite ObjFacts.get_set.
    destruct (String.eqb_spec x (vertex e)) as [->|_]; [now intros _|].
    apply Hd.
  - intros x p. rewrite SearchFacts.prev_of_set.
    destruct (String.eqb_spec x (vertex e)) as [->|_]; [now intros _|].
    apply Hp.
Qed.

(** X21.  When every adjacency entry of a set of vertices leads back
    into the set or to one vertex [cut], and [cut] is down, the search
    from inside the set never leaves it: for a start inside and an end
    outside that is a vertex, or else not the name of a member of
    [Object.prototype] (which the table [previous] would inherit),
    [findShortestPath] returns [null], whatever the costs and the other
    flags.  In the topology the constructor builds, Router-10 fences
    Router-1 ... Router-9 in this way. *)
Theorem X21_down_cut_vertex_no_path :
  forall n region cut start end_ fuel,
    fenced (networkGraph n) region cut = true ->
    In start region ->
    ~ In end_ region ->
    Obj.has end_ (networkGraph n) = true \/ inherited end_ = false ->
    node_down n cut ->
    (2 <= fuel)%nat ->
    findShortestPath fuel n start end_ = Some None.
Proof.
  intros n region cut start end_ fuel Hf Hs He _ Hdown Hfuel.
  assert (Hinv :
    (forall x d, Obj.get x (distances (dijkstra n start)) = Some (Finite d) ->
                 In x region) /\
    (forall x p, prev_of (previous (dijkstra n start)) x = Some p ->
                 In x region)).
  { apply (SearchFacts.dijkstra_keeps n
             (fun dist prev =>
                (forall x d, Obj.get x dist = Some (Finite d) -> In x region)
                /\ (forall x p, prev_of prev x = Some p -> In x region))).
    - intros m dp e Hin. now apply relax_keeps_fenced with cut.
    - cbv zeta. split.
      + intros x d H. apply SearchFacts.init_search_distances in H.
        destruct H as [H|[-> _]]; [discriminate | exact Hs].
      + intros x p. now rewrite SearchFacts.init_search_previous. }
  assert (Hp : prev_of (previous (dijkstra n start)) end_ = None).
  { destruct (prev_of (previous (dijkstra n start)) end_) as [p|] eqn:E;
      [|reflexivity].
    exfalso. apply He. exact (proj2 Hinv _ _ E). }
  destruct fuel as [|[|fuel]]; try lia.
  unfold findShortestPath.
  rewrite (SearchFacts.reconstruct_no_predecessor fuel _ _ Hp).
  simpl. f_equal. apply SearchFacts.found_short.
  destruct (String.eqb end_ ""); simpl; lia.
Qed.

Lemma X21_down_cut_vertex_no_path_witness :
  findShortestPath 2 (set_node "Router-10" true (unflagged shipped_graph))
                   "Router-1" "Router-20"
  = Some None.
Proof.
  apply (@X21_down_cut_vertex_no_path
           (set_node "Router-10" true (unflagged shipped_graph))
           upstream "Router-10" "Router-1" "Router-20" 2).
  - vm_compute. reflexivity.
  - simpl. tauto.
  - simpl. intuition discriminate.
  - left. reflexivity.
  - reflexivity.
  - lia.
Defined.

(** X22.  Whatever the costs, every vertex after the first of a path
    that [findShortestPath] returns is up. *)
Theorem X22_returned_path_after_first_is_up :
  forall n fuel start end_ p,
    findShortestPath fuel n start end_ = Some (Some p) ->
    forall v, In v (List.tl p) -> node_up n v.
Proof.
  intros n fuel start end_ p. unfold findShortestPath.
  destruct (reconstruct fuel _ _ _) as [path|] eqn:E; [|discriminate].
  simpl. unfold found. destruct (1 <? List.length path)%nat; [|discriminate].
  intros [= <-] v Hv.
  destruct (SearchFacts.reconstruct_chain _ _ _ _ E) as (chain & -> & _ & H).
  rewrite app_nil_r in Hv. destruct (H v Hv) as [q Hq].
  now apply SearchFacts.dijkstra_up with start q.
Qed.

Lemma X22_returned_path_after_first_is_up_witness :
  node_up (set_node "a" true triangle) "c".
Proof.
  apply (@X22_returned_path_after_first_is_up
           (set_node "a" true triangle) 3 "a" "c" ["a"; "c"]).
  - vm_compute. reflexivity.
  - simpl. tauto.
Defined.
